(** * cuegen: translation of a service's config schema into a CUE document

    A shallow embedding of [compiler/internal/cuegen/service.go]: the
    usage-counting pass, the merge of top-level fields, the recursive
    type translator and the assembly of the generated file, followed by
    the properties the specification states about them. *)

From Stdlib Require Import ZArith NArith Bool Ascii.
From stdpp Require Import gmap strings list fin_maps sorting.

Local Open Scope string_scope.
Local Open Scope nat_scope.
Local Open Scope list_scope.

(** ** Outcomes of fallible code

    [Err] is a returned Go [error], [Panic] a Go [panic], and [OutOfFuel]
    only says that the recursion bound of the model was too small. *)

Definition error := string.

Inductive result (A : Type) : Type :=
| Ok (a : A)
| Err (e : error)
| Panic (msg : string)
| OutOfFuel.

Arguments Ok {A} a.
Arguments Err {A} e.
Arguments Panic {A} msg.
Arguments OutOfFuel {A}.

Global Instance result_bind : MBind result := λ A B k r,
  match r with
  | Ok a => k a
  | Err e => Err e
  | Panic m => Panic m
  | OutOfFuel => OutOfFuel
  end.

(** [for _, x := range l { acc, err = body(x, acc); if err != nil { return err } }] *)
Fixpoint foldM {A S} (body : A → S → result S) (l : list A) (acc : S) : result S :=
  match l with
  | [] => Ok acc
  | x :: rest => acc' ← body x acc; foldM body rest acc'
  end.

Definition succeeded {A} (r : result A) : Prop := ∃ a, r = Ok a.

(** A Go call that returns a value or an [error]. *)
Definition returned {A} (r : A + error) : result A :=
  match r with
  | inl a => Ok a
  | inr err => Err err
  end.

(** ** cue/token: positions and operators *)

Module token.

Inductive RelPos := Elided | NoSpace | Blank | Newline | NewSection.

(** [Pos]: no position, a relative position ([RelPos.Pos()]) or a place
    in a parsed source. *)
Inductive Pos := NoPos | RelPos_Pos (r : RelPos) | FilePos (offset : Z).

Inductive Token := ILLEGAL | AND | OtherToken (name : string).

Definition RelPos_eqb (a b : RelPos) : bool :=
  match a, b with
  | Elided, Elided | NoSpace, NoSpace | Blank, Blank
  | Newline, Newline | NewSection, NewSection => true
  | _, _ => false
  end.

Definition Pos_eqb (a b : Pos) : bool :=
  match a, b with
  | NoPos, NoPos => true
  | RelPos_Pos r, RelPos_Pos r' => RelPos_eqb r r'
  | FilePos o, FilePos o' => Z.eqb o o'
  | _, _ => false
  end.

Definition Token_eqb (a b : Token) : bool :=
  match a, b with
  | ILLEGAL, ILLEGAL => true
  | AND, AND => true
  | OtherToken n, OtherToken n' => String.eqb n n'
  | _, _ => false
  end.

End token.

(** ** cue/ast: the document tree

    Only the node kinds and the node fields this package builds or reads
    are kept. *)

Module ast.
Import token.

Record Comment := mkComment { Slash : Pos; Text : string }.

Record CommentGroup := mkCommentGroup {
  Doc : bool;
  Line : bool;
  Position : Z;
  List : list Comment
}.

Scheme All for list.

Record FieldOf (E : Type) := mkField {
  Label : E;
  Optional : Pos;
  Value : E;
  Comments : list CommentGroup
}.
Arguments mkField {E}.
Arguments Label {E}.
Arguments Optional {E}.
Arguments Value {E}.
Arguments Comments {E}.

Scheme All for FieldOf.

Inductive Expr :=
| Ident (NamePos : Pos) (Name : string)
| BasicLit (Value : string)
| UnaryExpr (Op : Token) (X : Expr)
| BinaryExpr (X : Expr) (Op : Token) (Y : Expr)
| SelectorExpr (X : Expr) (Sel : Expr)
| ListLit (Elts : list Expr)
| Ellipsis (Typ : Expr)
| StructLit (Elts : list (FieldOf Expr)).

Abbreviation Field := (FieldOf Expr).

Record ImportSpec := mkImportSpec { Name : option Expr; Path : string }.

Inductive Decl :=
| Package (Name : Expr)
| ImportDecl (Specs : list ImportSpec)
| FieldDecl (f : Field).

Record File := mkFile {
  Decls : list Decl;
  Imports : list ImportSpec;
  FileComments : list CommentGroup
}.

(** Constructors of the library. *)
Definition NewIdent (name : string) : Expr := Ident NoPos name.
Definition NewSel (x : Expr) (sel : string) : Expr := SelectorExpr x (NewIdent sel).
Definition NewBinExpr (op : Token) (x y : Expr) : Expr := BinaryExpr x op y.
Definition NewList (exprs : list Expr) : Expr := ListLit exprs.
(** [NewStruct(fields...)] with fields only. *)
Definition NewStruct (fields : list Field) : Expr := StructLit fields.
(** [NewStruct(label, value)]: one field made of a label and its value. *)
Definition NewStructLabelled (label value : Expr) : Expr :=
  StructLit [mkField label NoPos value []].
Definition NewImport (name : option Expr) (importPath : string) : ImportSpec :=
  mkImportSpec name importPath.

(** Assignments to one field of a node. *)
Definition setLabel (f : Field) (l : Expr) : Field :=
  mkField l (Optional f) (Value f) (Comments f).
Definition setOptional (f : Field) (p : Pos) : Field :=
  mkField (Label f) p (Value f) (Comments f).
Definition setValue (f : Field) (v : Expr) : Field :=
  mkField (Label f) (Optional f) v (Comments f).
Definition SetComments (f : Field) (cs : list CommentGroup) : Field :=
  mkField (Label f) (Optional f) (Value f) cs.
Definition AddComment (f : Field) (g : CommentGroup) : Field :=
  SetComments f (Comments f ++ [g]).
Definition setNamePos (e : Expr) (p : Pos) : Expr :=
  match e with
  | Ident _ n => Ident p n
  | _ => e
  end.

(** The printer writes the [?] of an optional field when its [Optional]
    position is set. *)
Definition isOptional (f : Field) : bool := negb (Pos_eqb (Optional f) NoPos).

(** *** Structural equality, as [reflect.DeepEqual] computes it *)

Definition Comment_eqb (a b : Comment) : bool :=
  Pos_eqb (Slash a) (Slash b) && String.eqb (Text a) (Text b).

Fixpoint list_eqb {A} (eqb : A → A → bool) (l l' : list A) : bool :=
  match l, l' with
  | [], [] => true
  | x :: r, y :: r' => eqb x y && list_eqb eqb r r'
  | _, _ => false
  end.

Definition CommentGroup_eqb (a b : CommentGroup) : bool :=
  Bool.eqb (Doc a) (Doc b) && Bool.eqb (Line a) (Line b)
  && Z.eqb (Position a) (Position b) && list_eqb Comment_eqb (List a) (List b).

Fixpoint Expr_eqb (a b : Expr) {struct a} : bool :=
  match a, b with
  | Ident p n, Ident p' n' => Pos_eqb p p' && String.eqb n n'
  | BasicLit v, BasicLit v' => String.eqb v v'
  | UnaryExpr o x, UnaryExpr o' x' => Token_eqb o o' && Expr_eqb x x'
  | BinaryExpr x o y, BinaryExpr x' o' y' =>
      Expr_eqb x x' && Token_eqb o o' && Expr_eqb y y'
  | SelectorExpr x s, SelectorExpr x' s' => Expr_eqb x x' && Expr_eqb s s'
  | ListLit es, ListLit es' =>
      (fix go (l l' : list Expr) {struct l} : bool :=
         match l, l' with
         | [], [] => true
         | x :: r, y :: r' => Expr_eqb x y && go r r'
         | _, _ => false
         end) es es'
  | Ellipsis t, Ellipsis t' => Expr_eqb t t'
  | StructLit fs, StructLit fs' =>
      (fix go (l l' : list (FieldOf Expr)) {struct l} : bool :=
         match l, l' with
         | [], [] => true
         | f :: r, g :: r' =>
             Expr_eqb (Label f) (Label g) && Pos_eqb (Optional f) (Optional g)
             && Expr_eqb (Value f) (Value g)
             && list_eqb CommentGroup_eqb (Comments f) (Comments g)
             && go r r'
         | _, _ => false
         end) fs fs'
  | _, _ => false
  end.

End ast.

(** [reflect.DeepEqual] on two expressions. *)
Definition DeepEqual (x y : ast.Expr) : bool := ast.Expr_eqb x y.

(** ** The schema of the parser front end

    The generated protobuf declarations are not part of the sources at
    hand; the types below follow their use in [service.go]. *)

Module schema.

(** Modelled from the spec: the [schema.Builtin] enumeration is declared
    outside the sources at hand.  Its named constants are the kinds of the
    fixed mapping table; the type is a Go [int32], so it also holds values
    that are none of the named constants: [Builtin_other]. *)
Inductive Builtin :=
| Builtin_ANY | Builtin_BOOL
| Builtin_INT8 | Builtin_INT16 | Builtin_INT32 | Builtin_INT64
| Builtin_UINT8 | Builtin_UINT16 | Builtin_UINT32 | Builtin_UINT64
| Builtin_FLOAT32 | Builtin_FLOAT64
| Builtin_STRING | Builtin_BYTES | Builtin_TIME
| Builtin_UUID | Builtin_JSON | Builtin_USER_ID
| Builtin_INT | Builtin_UINT
| Builtin_other (code : Z).

Definition Builtin_known (b : Builtin) : bool :=
  match b with
  | Builtin_other _ => false
  | _ => true
  end.

(** A structured tag: [Key:"Name,Option,Option"]. *)
Record Tag := mkTag { Key : string; Name : string; Options : list string }.

(** The cases of the [Type.Typ] union; [Type_other] is any case this
    package has no branch for (a type parameter, a nil type).  A named
    type is identified by its declaration id. *)
Inductive Type_ :=
| Type_Named (Id : N)
| Type_Struct (Fields : list Field)
| Type_Map (Key : Type_) (Value : Type_)
| Type_List (Elem : Type_)
| Type_Builtin (b : Builtin)
| Type_Config (Elem : Type_)
| Type_other
with Field :=
| mkField (Name : string) (Typ : Type_) (Doc : string) (Tags : list Tag).

Definition Field_Name (f : Field) : string := let 'mkField n _ _ _ := f in n.
Definition Field_Typ (f : Field) : Type_ := let 'mkField _ t _ _ := f in t.
Definition Field_Doc (f : Field) : string := let 'mkField _ _ d _ := f in d.
Definition Field_Tags (f : Field) : list Tag := let 'mkField _ _ _ ts := f in ts.

(** A declaration of the registry [Meta.Decls], a slice indexed by id. *)
Record Decl := mkDecl { Decl_Name : string; Decl_Type : Type_; Decl_Doc : string }.

(** What the walk hands to its visitor. *)
Inductive Node := Node_Named (Id : N) | Node_Builtin (b : Builtin) | Node_other.

Global Instance Builtin_eq_dec : EqDecision Builtin.
Proof. solve_decision. Defined.

Global Instance Node_eq_dec : EqDecision Node.
Proof. solve_decision. Defined.

End schema.

(** ** Collaborators that live outside the sources at hand *)

Import token.

(** Modelled from the spec: [encoding.GetConcreteType] is declared in
    another package.  The declaration registry maps the identifier of a
    named type to its resolved body; resolution of a named type is that
    lookup and fails when the reference cannot be resolved; any other type
    is concrete already. *)
Definition GetConcreteType (decls : list schema.Decl) (typ : schema.Type_)
  : result schema.Type_ :=
  match typ with
  | schema.Type_Named id =>
      match decls !! N.to_nat id with
      | Some decl => Ok (schema.Decl_Type decl)
      | None => Err "cannot resolve named type"
      end
  | _ => Ok typ
  end.

(** Modelled from the spec: [encoding.GetConcreteStructType] is declared in
    another package.  It is the resolution above, for a declaration that
    has to be a record type. *)
Definition GetConcreteStructType (decls : list schema.Decl) (typ : schema.Type_)
  : result (list schema.Field) :=
  concrete ← GetConcreteType decls typ;
  match concrete with
  | schema.Type_Struct fields => Ok fields
  | _ => Err "not a struct type"
  end.

(** Modelled from the spec: [schema.Walk] is declared in another package.
    It traverses the type depth first, calls the visitor once per node
    encountered, repeats included, and continues into the resolved
    declaration of a named type every time it meets one.  [fuel] bounds
    the depth of the traversal. *)
Fixpoint Walk {S : Type} (fuel : nat) (decls : list schema.Decl)
    (typ : schema.Type_) (visitor : schema.Node → S → result S) (acc : S)
  : result S :=
  match fuel with
  | O => OutOfFuel
  | S n =>
      match typ with
      | schema.Type_Named id =>
          acc ← visitor (schema.Node_Named id) acc;
          concrete ← GetConcreteType decls typ;
          Walk n decls concrete visitor acc
      | schema.Type_Struct fields =>
          acc ← visitor schema.Node_other acc;
          foldM (fun f acc => Walk n decls (schema.Field_Typ f) visitor acc) fields acc
      | schema.Type_Map k v =>
          acc ← visitor schema.Node_other acc;
          acc ← Walk n decls k visitor acc;
          Walk n decls v visitor acc
      | schema.Type_List e =>
          acc ← visitor schema.Node_other acc;
          Walk n decls e visitor acc
      | schema.Type_Builtin b => visitor (schema.Node_Builtin b) acc
      | schema.Type_Config e =>
          acc ← visitor schema.Node_other acc;
          Walk n decls e visitor acc
      | schema.Type_other => visitor schema.Node_other acc
      end
  end.

(** The nodes that the walk of a type meets, in the order of the visits. *)
Fixpoint walkNodes (fuel : nat) (decls : list schema.Decl) (typ : schema.Type_)
  : result (list schema.Node) :=
  match fuel with
  | O => OutOfFuel
  | S n =>
      match typ with
      | schema.Type_Named id =>
          concrete ← GetConcreteType decls typ;
          nodes ← walkNodes n decls concrete;
          Ok (schema.Node_Named id :: nodes)
      | schema.Type_Struct fields =>
          nodes ← foldM (fun f acc =>
                           nodes ← walkNodes n decls (schema.Field_Typ f);
                           Ok (acc ++ nodes))
                        fields [];
          Ok (schema.Node_other :: nodes)
      | schema.Type_Map k v =>
          nodesK ← walkNodes n decls k;
          nodesV ← walkNodes n decls v;
          Ok (schema.Node_other :: nodesK ++ nodesV)
      | schema.Type_List e =>
          nodes ← walkNodes n decls e;
          Ok (schema.Node_other :: nodes)
      | schema.Type_Builtin b => Ok [schema.Node_Builtin b]
      | schema.Type_Config e =>
          nodes ← walkNodes n decls e;
          Ok (schema.Node_other :: nodes)
      | schema.Type_other => Ok [schema.Node_other]
      end
  end.

(** The number of references to the named type [id] among the nodes. *)
Definition references (id : N) (nodes : list schema.Node) : nat :=
  length (filter (fun node => node = schema.Node_Named id) nodes).

(** Modelled from the spec: the [definitionGenerator] behind [typeUsage]
    is declared in another file of the package.  It is the Usage Table: a
    reference count per named-type identifier, only ever incremented. *)
Record definitionGenerator := mkDefinitionGenerator { counts : gmap N nat }.

Definition Count (d : definitionGenerator) (named : N) : nat :=
  default 0 (counts d !! named).

Definition Inc (d : definitionGenerator) (named : N) : definitionGenerator :=
  mkDefinitionGenerator (<[named := S (Count d named)]> (counts d)).

(** The named types whose count exceeds [n], in ascending order of their
    identifier (the order of their declarations), each once. *)
Definition NamesWithCountsOver (d : definitionGenerator) (n : nat) : list N :=
  merge_sort N.le (filter (fun id => n < Count d id) (map_to_list (counts d)).*1).

(** Modelled from the spec: [commentAlreadyPresent] is declared in another
    file of the package.  A comment is already present on a field when each
    of its lines occurs, by equality of text, among the comment lines of
    the field. *)
Definition commentAlreadyPresent (field : ast.Field) (comment : ast.CommentGroup) : bool :=
  forallb
    (fun c => existsb
       (fun g => existsb (fun c' => String.eqb (ast.Text c') (ast.Text c)) (ast.List g))
       (ast.Comments field))
    (ast.List comment).

(** ** The service under generation *)

Record service := mkService {
  svc_Name : string;                       (* s.svc.Name *)
  Meta_Decls : list schema.Decl;           (* s.g.res.Meta.Decls *)
  file : ast.File;
  neededImports : gmap string string;      (* package path to name *)
  topLevelFields : list ast.Field;
  (** [fieldLookup] holds pointers to the fields of [topLevelFields]: a
      pointer is the index of the field it points to, and an assignment
      through it updates the field in place. *)
  fieldLookup : gmap string nat;
  typeUsage : definitionGenerator
}.

Definition set_file (s : service) (f : ast.File) : service :=
  mkService (svc_Name s) (Meta_Decls s) f (neededImports s) (topLevelFields s)
            (fieldLookup s) (typeUsage s).
Definition set_neededImports (s : service) (m : gmap string string) : service :=
  mkService (svc_Name s) (Meta_Decls s) (file s) m (topLevelFields s)
            (fieldLookup s) (typeUsage s).
Definition set_topLevelFields (s : service) (l : list ast.Field) : service :=
  mkService (svc_Name s) (Meta_Decls s) (file s) (neededImports s) l
            (fieldLookup s) (typeUsage s).
Definition set_fieldLookup (s : service) (m : gmap string nat) : service :=
  mkService (svc_Name s) (Meta_Decls s) (file s) (neededImports s) (topLevelFields s)
            m (typeUsage s).
Definition set_typeUsage (s : service) (d : definitionGenerator) : service :=
  mkService (svc_Name s) (Meta_Decls s) (file s) (neededImports s) (topLevelFields s)
            (fieldLookup s) d.

(** A service before its generation pass. *)
Definition newService (name : string) (decls : list schema.Decl) : service :=
  mkService name decls (ast.mkFile [] [] []) ∅ [] ∅ (mkDefinitionGenerator ∅).

(** Every pointer of [fieldLookup] points into [topLevelFields]. *)
Definition lookup_wf (s : service) : Prop :=
  ∀ name ptr, fieldLookup s !! name = Some ptr → ptr < length (topLevelFields s).

(** The comment block at the head of the generated file. *)
Definition headerComment : ast.CommentGroup :=
  ast.mkCommentGroup false false 0
    (map (ast.mkComment NoPos)
       [ "// Code generated by encore. DO NOT EDIT.";
         "//";
         "// The contents of this file are generated from the structs used in";
         "// conjunction with Encore's `config.Load[T]()` function. This file";
         "// automatically be regenerated if the data types within the struct";
         "// are changed.";
         "//";
         "// For more information about this file, see:";
         "// https://encore.dev/docs/develop/config" ]).

(** ** A small service for the worked examples *)

Module demo.

(** A stand-in for the CUE parser on the fragments of the examples: a
    match constraint, a bare identifier, and two malformed fragments. *)
Definition ParseExpr (src : string) : ast.Expr + error :=
  match src with
  | EmptyString => inr "expected operand, found 'EOF'"
  | String "="%char (String "~"%char pattern) =>
      inl (ast.UnaryExpr (OtherToken "=~") (ast.BasicLit pattern))
  | String "("%char _ => inr "expected ')', found 'EOF'"
  | _ => inl (ast.Ident (FilePos 0) src)
  end.

(** A stand-in for [ast.LabelName] on identifier labels. *)
Definition LabelName (label : ast.Expr) : string + error :=
  match label with
  | ast.Ident _ EmptyString => inr "empty identifier"
  | ast.Ident _ name => inl name
  | _ => inr "label is not an identifier"
  end.

(** The declarations of the example, by identifier: 0 [Retry], 1 [Server],
    2 [Client], 3 [Empty]. *)
Definition cueName (id : N) : string :=
  match id with
  | 0%N => "#Retry"
  | 1%N => "#Server"
  | 2%N => "#Client"
  | _ => "#Empty"
  end.

(** A documentation line becomes a line comment that trails the field. *)
Definition docComment (doc : string) : ast.CommentGroup :=
  ast.mkCommentGroup false true 4 [ast.mkComment NoPos (String.append "// " doc)].

Definition int_ : schema.Type_ := schema.Type_Builtin schema.Builtin_INT.
Definition string_ : schema.Type_ := schema.Type_Builtin schema.Builtin_STRING.

Definition Retry : schema.Decl :=
  schema.mkDecl "Retry"
    (schema.Type_Struct [schema.mkField "Count" int_ "" []]) "".

Definition Server : schema.Decl :=
  schema.mkDecl "Server"
    (schema.Type_Struct
       [ schema.mkField "Port" int_ "The port" [];
         schema.mkField "Name" string_ ""
           [schema.mkTag "json" "name" []; schema.mkTag "cue" "=~^[a-z]+$" []];
         schema.mkField "Retry" (schema.Type_Named 0) "" [] ])
    "The server".

Definition Client : schema.Decl :=
  schema.mkDecl "Client"
    (schema.Type_Struct
       [ schema.mkField "Port" int_ "The port" [schema.mkTag "json" "" ["omitempty"]];
         schema.mkField "Retry" (schema.Type_Config (schema.Type_Named 0)) "" [];
         schema.mkField "Since" (schema.Type_Builtin schema.Builtin_TIME) ""
           [schema.mkTag "cue" "" ["opt"]] ])
    "".

Definition Empty : schema.Decl := schema.mkDecl "Empty" (schema.Type_Struct []) "".

Definition decls : list schema.Decl := [Retry; Server; Client; Empty].

(** [Retry] mentions no named type; the others mention [Retry] at most. *)
Definition rank (id : N) : nat :=
  match id with
  | 0%N => 0
  | _ => 1
  end.



Definition PortDocumented : schema.Type_ :=
  schema.Type_Struct [schema.mkField "Port" int_ "The port" []].

(** A declaration with a malformed annotation on its second field. *)
Definition Malformed : schema.Type_ :=
  schema.Type_Struct
    [ schema.mkField "Port" int_ "" [];
      schema.mkField "Name" string_ "" [schema.mkTag "cue" "(" []] ].

End demo.

(** The service after the counting pass over [Server] and [Client]. *)
Definition demo_counted : service :=
  set_neededImports
    (set_typeUsage (newService "svc" demo.decls)
       (mkDefinitionGenerator (<[0%N := 2]> (<[2%N := 1]> (<[1%N := 1]> ∅)))))
    (<["time" := "time"]> ∅).

(** The fields of the demo service, once both declarations are registered. *)
Definition demo_fields : list ast.Field :=
  [ ast.mkField (ast.NewIdent "Port") NoPos (ast.NewIdent "int")
      [ast.mkCommentGroup false true 0
         [ast.mkComment (RelPos_Pos NewSection) "// The port"]];
    ast.mkField (ast.NewIdent "name") NoPos
      (ast.BinaryExpr (ast.NewIdent "string") AND
         (ast.UnaryExpr (OtherToken "=~") (ast.BasicLit "^[a-z]+$"))) [];
    ast.mkField (ast.NewIdent "Retry") NoPos (ast.NewIdent "#Retry") [];
    ast.mkField (ast.NewIdent "Since") (RelPos_Pos Blank)
      (ast.SelectorExpr (ast.NewIdent "time") (ast.NewIdent "Time")) [] ].

Definition demo_registered : service :=
  set_fieldLookup (set_topLevelFields demo_counted demo_fields)
    (<["Since" := 3]> (<["Retry" := 2]> (<["name" := 1]> (<["Port" := 0]> ∅)))).

(** The definition hoisted for [Retry]. *)
Definition demo_Retry_definition : ast.Field :=
  ast.mkField (ast.Ident (RelPos_Pos NewSection) "#Retry") NoPos
    (ast.StructLit [ast.mkField (ast.NewIdent "Count") NoPos (ast.NewIdent "int") []]) [].

Definition demo_generated : service :=
  set_file demo_registered
    (ast.mkFile
       ([ast.Package (ast.NewIdent "svc");
         ast.ImportDecl [ast.mkImportSpec None "time"];
         ast.FieldDecl demo_Retry_definition]
        ++ (ast.FieldDecl <$> demo_fields))
       [ast.mkImportSpec None "time"]
       [headerComment]).

(** ** service.go *)

Section Cuegen.

(** [parser.ParseExpr("encore struct", src)] of the CUE library: the
    expression read from [src], or the error of the parser. *)
Variable ParseExpr : string → ast.Expr + error.

(** [ast.LabelName(label)] of the CUE library: the name of a label, or an
    error for a label that has none. *)
Variable LabelName : ast.Expr → string + error.

(** Modelled from the spec: the output identifier that the
    [definitionGenerator] assigns to a named type is a fixed function of
    its schema identifier. *)
Variable cueName : N → string.

(** Modelled from the spec: [addCommentToField] is declared in another
    file of the package; documentation becomes a comment block attached
    to the field.  [docComment] is the block made from a documentation
    string. *)
Variable docComment : string → ast.CommentGroup.

Definition CueIdent (named : N) : ast.Expr := ast.NewIdent (cueName named).

Definition addCommentToField (field : ast.Field) (doc : string) : ast.Field :=
  ast.AddComment field (docComment doc).

(** *** countNamedUsagesAndCollectImports *)

(** The [switch] of the visitor. *)
Definition countNode (node : schema.Node) (s : service) : service :=
  match node with
  | schema.Node_Named named => set_typeUsage s (Inc (typeUsage s) named)
  | schema.Node_Builtin schema.Builtin_TIME =>
      set_neededImports s (<["time" := "time"]> (neededImports s))
  | _ => s
  end.

(** The visitor: the switch, then [return nil]. *)
Definition countVisitor (node : schema.Node) (s : service) : result service :=
  Ok (countNode node s).

Definition countNamedUsagesAndCollectImports (fuel : nat) (s : service)
    (typ : schema.Type_) : result service :=
  Walk fuel (Meta_Decls s) typ countVisitor s.

(** *** builtinToCue *)

Definition builtinToCue (builtin : schema.Builtin) : result ast.Expr :=
  match builtin with
  | schema.Builtin_ANY => Ok (ast.NewIdent "_")
  | schema.Builtin_BOOL => Ok (ast.NewIdent "bool")
  | schema.Builtin_INT8 => Ok (ast.NewIdent "int8")
  | schema.Builtin_INT16 => Ok (ast.NewIdent "int16")
  | schema.Builtin_INT32 => Ok (ast.NewIdent "int32")
  | schema.Builtin_INT64 => Ok (ast.NewIdent "int64")
  | schema.Builtin_UINT8 => Ok (ast.NewIdent "uint8")
  | schema.Builtin_UINT16 => Ok (ast.NewIdent "uint16")
  | schema.Builtin_UINT32 => Ok (ast.NewIdent "uint32")
  | schema.Builtin_UINT64 => Ok (ast.NewIdent "uint64")
  | schema.Builtin_FLOAT32 => Ok (ast.NewIdent "float32")
  | schema.Builtin_FLOAT64 => Ok (ast.NewIdent "float64")
  | schema.Builtin_STRING => Ok (ast.NewIdent "string")
  | schema.Builtin_BYTES => Ok (ast.NewIdent "bytes")
  | schema.Builtin_TIME => Ok (ast.NewSel (ast.NewIdent "time") "Time")
  | schema.Builtin_UUID => Ok (ast.NewIdent "string")
  | schema.Builtin_JSON => Ok (ast.NewIdent "string")
  | schema.Builtin_USER_ID => Ok (ast.NewIdent "string")
  | schema.Builtin_INT => Ok (ast.NewIdent "int")
  | schema.Builtin_UINT => Ok (ast.NewIdent "uint")
  | schema.Builtin_other _ => Panic "unknown builtin"
  end.

(** *** structToFields *)

(** [for _, option := range tag.Options { if option == name { isOptional = true } }] *)
Definition scanOptions (name : string) (options : list string) (isOptional : bool) : bool :=
  fold_left (fun acc option => if String.eqb option name then true else acc)
            options isOptional.

(** The body of the loop over [f.Tags]: the state is the field under
    construction and [isOptional]. *)
Definition applyTag (tag : schema.Tag) (st : ast.Field * bool)
  : result (ast.Field * bool) :=
  let '(field, isOptional) := st in
  let '(field, isOptional) :=
    if String.eqb (schema.Key tag) "json" then
      (if negb (String.eqb (schema.Name tag) "")
       then ast.setLabel field (ast.NewIdent (schema.Name tag))
       else field,
       scanOptions "omitempty" (schema.Options tag) isOptional)
    else (field, isOptional) in
  if String.eqb (schema.Key tag) "cue" then
    field ← (if negb (String.eqb (schema.Name tag) "")
             then expr ← returned (ParseExpr (schema.Name tag));
                  Ok (ast.setValue field (ast.NewBinExpr AND (ast.Value field) expr))
             else Ok field);
    Ok (field, scanOptions "opt" (schema.Options tag) isOptional)
  else Ok (field, isOptional).

(** The body of the loop over [stru.Fields]; [translate] is
    [s.toCueType]. *)
Definition structToField (translate : schema.Type_ → result ast.Expr)
    (f : schema.Field) : result ast.Field :=
  fieldType ← translate (schema.Field_Typ f);
  let field := ast.mkField (ast.NewIdent (schema.Field_Name f)) NoPos fieldType [] in
  '(field, isOptional) ← foldM applyTag (schema.Field_Tags f) (field, false);
  let field := if (isOptional : bool) then ast.setOptional field (RelPos_Pos Blank) else field in
  let field := if negb (String.eqb (schema.Field_Doc f) "")
               then addCommentToField field (schema.Field_Doc f) else field in
  Ok field.

Fixpoint structToFieldsWith (translate : schema.Type_ → result ast.Expr)
    (fields : list schema.Field) : result (list ast.Field) :=
  match fields with
  | [] => Ok []
  | f :: rest =>
      field ← structToField translate f;
      fields' ← structToFieldsWith translate rest;
      Ok (field :: fields')
  end.

(** *** toCueType

    [fuel] bounds the depth of the recursion, which follows the named
    types into their declarations. *)
Fixpoint toCueType (fuel : nat) (s : service) (unknownType : schema.Type_)
  : result ast.Expr :=
  match fuel with
  | O => OutOfFuel
  | S n =>
      match unknownType with
      | schema.Type_Named named =>
          let usageCount := Count (typeUsage s) named in
          if usageCount <=? 1 then
            concrete ← GetConcreteType (Meta_Decls s) unknownType;
            toCueType n s concrete
          else Ok (CueIdent named)
      | schema.Type_Struct fields =>
          fields ← structToFieldsWith (toCueType n s) fields;
          Ok (ast.NewStruct fields)
      | schema.Type_Map key value =>
          keyType ← toCueType n s key;
          valueType ← toCueType n s value;
          Ok (ast.NewStructLabelled (ast.NewList [keyType]) valueType)
      | schema.Type_List elem =>
          listType ← toCueType n s elem;
          Ok (ast.NewList [ast.Ellipsis listType])
      | schema.Type_Builtin builtin => builtinToCue builtin
      | schema.Type_Config elem => toCueType n s elem
      | schema.Type_other => Panic "unexpected type"
      end
  end.

Definition structToFields (fuel : nat) (s : service) (stru : list schema.Field)
  : result (list ast.Field) :=
  structToFieldsWith (toCueType fuel s) stru.

(** *** registerTopLevelField *)

(** [existingCommentGrp.List = append(existingCommentGrp.List, lines...)],
    where [existingCommentGrp] is the first comment group of [existing]. *)
Definition appendToFirstGroup (existing : ast.Field) (lines : list ast.Comment)
  : ast.Field :=
  match ast.Comments existing with
  | grp :: others =>
      ast.SetComments existing
        (ast.mkCommentGroup (ast.Doc grp) (ast.Line grp) (ast.Position grp)
                            (ast.List grp ++ lines) :: others)
  | [] => existing
  end.

(** [if len(existingCommentGrp.List) > 0 { existingCommentGrp.Position = 0;
    existingCommentGrp.List[0].Slash = token.NewSection.Pos() }] *)
Definition repositionFirstGroup (existing : ast.Field) : ast.Field :=
  match ast.Comments existing with
  | grp :: others =>
      match ast.List grp with
      | first :: lines =>
          ast.SetComments existing
            (ast.mkCommentGroup (ast.Doc grp) (ast.Line grp) 0
               (ast.mkComment (RelPos_Pos NewSection) (ast.Text first) :: lines)
             :: others)
      | [] => existing
      end
  | [] => existing
  end.

(** [for _, comment := range field.Comments() { if !commentAlreadyPresent(...) {...} }] *)
Definition unionComments (existing : ast.Field) (comments : list ast.CommentGroup)
  : ast.Field :=
  fold_left
    (fun existing comment =>
       if negb (commentAlreadyPresent existing comment)
       then appendToFirstGroup existing (ast.List comment)
       else existing)
    comments existing.

Definition mergeComments (existing field : ast.Field) : ast.Field :=
  if 0 <? length (ast.Comments field) then
    if length (ast.Comments existing) =? 0 then
      ast.SetComments existing (ast.Comments field)
    else
      let existing := unionComments existing (ast.Comments field) in
      repositionFirstGroup existing
  else existing.

Definition mergeValues (existing field : ast.Field) : ast.Field :=
  if negb (DeepEqual (ast.Value existing) (ast.Value field))
  then ast.setValue existing (ast.NewBinExpr AND (ast.Value existing) (ast.Value field))
  else existing.

(** The body of the loop over the fields of one declaration. *)
Definition registerField (field : ast.Field) (s : service) : result service :=
  name ← returned (LabelName (ast.Label field));
  match fieldLookup s !! name with
  | Some ptr =>
      match topLevelFields s !! ptr with
      | Some existing =>
          let existing := mergeComments existing field in
          let existing := mergeValues existing field in
          Ok (set_topLevelFields s (<[ptr := existing]> (topLevelFields s)))
      | None => Panic "invalid memory address"
      end
  | None =>
      let s := set_fieldLookup s (<[name := length (topLevelFields s)]> (fieldLookup s)) in
      Ok (set_topLevelFields s (topLevelFields s ++ [field]))
  end.

Definition registerTopLevelField (fuel : nat) (s : service) (typ : schema.Type_)
  : result service :=
  concrete ← GetConcreteStructType (Meta_Decls s) typ;
  fields ← structToFields fuel s concrete;
  foldM registerField fields s.

(** *** generateCue *)

(** The import specifications, in the order of the sorted paths. *)
Definition importSpecs (neededImports : gmap string string) : list ast.ImportSpec :=
  let imports := merge_sort String.le (map_to_list neededImports).*1 in
  (fun importPath =>
     let name := default "" (neededImports !! importPath) in
     let ident := if negb (String.eqb name importPath)
                  then Some (ast.NewIdent name) else None in
     ast.NewImport ident importPath) <$> imports.

(** The body of the loop over the names used more than once. *)
Definition hoistDefinition (fuel : nat) (s : service) (named : N) (f : ast.File)
  : result ast.File :=
  let namedType := schema.Type_Named named in
  match Meta_Decls s !! N.to_nat named with
  | None => Panic "index out of range"
  | Some decl =>
      concrete ← GetConcreteType (Meta_Decls s) namedType;
      let defIdent := CueIdent named in
      fieldType ← toCueType fuel s concrete;
      let field := ast.mkField defIdent NoPos fieldType [] in
      let field :=
        if negb (String.eqb (schema.Decl_Doc decl) "")
        then addCommentToField field (schema.Decl_Doc decl)
        else ast.setLabel field (ast.setNamePos defIdent (RelPos_Pos NewSection)) in
      Ok (ast.mkFile (ast.Decls f ++ [ast.FieldDecl field]) (ast.Imports f)
                     (ast.FileComments f))
  end.

Definition generateCue (fuel : nat) (s : service) : result service :=
  if length (topLevelFields s) =? 0 then Ok s
  else
    let f := file s in
    let pkg := ast.Package (ast.NewIdent (svc_Name s)) in
    let f := ast.mkFile (ast.Decls f ++ [pkg]) (ast.Imports f)
                        (ast.FileComments f ++ [headerComment]) in
    let f :=
      if 0 <? size (neededImports s) then
        let imports := ast.Imports f ++ importSpecs (neededImports s) in
        ast.mkFile (ast.Decls f ++ [ast.ImportDecl imports]) imports (ast.FileComments f)
      else f in
    f ← foldM (hoistDefinition fuel s) (NamesWithCountsOver (typeUsage s) 1) f;
    let f := ast.mkFile (ast.Decls f ++ (ast.FieldDecl <$> topLevelFields s))
                        (ast.Imports f) (ast.FileComments f) in
    Ok (set_file s f).

(** Modelled from the spec: the driver of a generation pass is declared
    in another file of the package.  The usage counter runs first, over
    every declared type; then each declaration is registered; then the
    document is assembled. *)
Definition generate (fuel : nat) (name : string) (decls : list schema.Decl)
    (roots : list schema.Type_) : result service :=
  s ← foldM (fun typ s => countNamedUsagesAndCollectImports fuel s typ) roots
            (newService name decls);
  s ← foldM (fun typ s => registerTopLevelField fuel s typ) roots s;
  generateCue fuel s.

(** ** Notions used in the statements *)

(** The translation of [typ] ends with the outcome [r], for some bound on
    the recursion. *)
Definition translatesTo (s : service) (typ : schema.Type_) (r : result ast.Expr) : Prop :=
  r ≠ OutOfFuel ∧ ∃ fuel, toCueType fuel s typ = r.

(** The tag marks its field optional: a json tag with the option
    [omitempty], or a cue tag with the option [opt]. *)
Definition marksOptional (tag : schema.Tag) : bool :=
  (String.eqb (schema.Key tag) "json"
   && existsb (fun option => String.eqb option "omitempty") (schema.Options tag))
  || (String.eqb (schema.Key tag) "cue"
      && existsb (fun option => String.eqb option "opt") (schema.Options tag)).

(** The finishing steps of [structToFields] for one field: the optional
    mark and the documentation. *)
Definition finishField (f : schema.Field) (field : ast.Field) (isOptional : bool)
  : ast.Field :=
  let field := if isOptional then ast.setOptional field (RelPos_Pos Blank) else field in
  if negb (String.eqb (schema.Field_Doc f) "")
  then addCommentToField field (schema.Field_Doc f) else field.

(** The field that the merge leaves in the table. *)
Definition mergedField (existing field : ast.Field) : ast.Field :=
  mergeValues (mergeComments existing field) field.

(** The standalone definition of a named type, as the loop of
    [generateCue] builds it. *)
Definition definitionOf (fuel : nat) (s : service) (named : N) : result ast.Field :=
  match Meta_Decls s !! N.to_nat named with
  | None => Panic "index out of range"
  | Some decl =>
      fieldType ← toCueType fuel s (schema.Decl_Type decl);
      Ok (if negb (String.eqb (schema.Decl_Doc decl) "")
          then addCommentToField (ast.mkField (CueIdent named) NoPos fieldType [])
                                 (schema.Decl_Doc decl)
          else ast.mkField (ast.Ident (RelPos_Pos NewSection) (cueName named))
                           NoPos fieldType [])
  end.

(** The field is a definition of the identifier assigned to [named]. *)
Definition definesIdent (named : N) (def : ast.Field) : bool :=
  match ast.Label def with
  | ast.Ident _ name => String.eqb name (cueName named)
  | _ => false
  end.

(** The import declaration of the document, if any. *)
Definition importDecls (s : service) : list ast.Decl :=
  if 0 <? size (neededImports s)
  then [ast.ImportDecl (ast.Imports (file s) ++ importSpecs (neededImports s))]
  else [].

(** The text of every comment line attached to a field. *)
Definition commentTexts (field : ast.Field) : list string :=
  concat ((fun g => ast.Text <$> ast.List g) <$> ast.Comments field).

(** What the registration of fields leaves alone. *)
Definition countingState (s : service) :=
  (svc_Name s, Meta_Decls s, file s, neededImports s, typeUsage s).

(** What the counting pass leaves alone. *)
Definition mergingState (s : service) :=
  (svc_Name s, Meta_Decls s, file s, topLevelFields s, fieldLookup s).

(** The nodes met by the walks of all the declared types of a service. *)
Definition walkAll (fuel : nat) (decls : list schema.Decl) (roots : list schema.Type_)
  : result (list schema.Node) :=
  foldM (fun typ acc => nodes ← walkNodes fuel decls typ; Ok (acc ++ nodes)) roots [].

(** The size of a type, and the named types it mentions. *)
Fixpoint typeSize (typ : schema.Type_) : nat :=
  match typ with
  | schema.Type_Struct fields =>
      S ((fix go (fs : list schema.Field) : nat :=
            match fs with
            | [] => 0
            | f :: rest => typeSize (schema.Field_Typ f) + go rest
            end) fields)
  | schema.Type_Map key value => S (typeSize key + typeSize value)
  | schema.Type_List elem => S (typeSize elem)
  | schema.Type_Config elem => S (typeSize elem)
  | _ => 1
  end.

Fixpoint mentions (typ : schema.Type_) : list N :=
  match typ with
  | schema.Type_Named id => [id]
  | schema.Type_Struct fields =>
      (fix go (fs : list schema.Field) : list N :=
         match fs with
         | [] => []
         | f :: rest => mentions (schema.Field_Typ f) ++ go rest
         end) fields
  | schema.Type_Map key value => mentions key ++ mentions value
  | schema.Type_List elem => mentions elem
  | schema.Type_Config elem => mentions elem
  | _ => []
  end.

(** The schema graph is acyclic: the declarations can be ranked so that a
    declaration only mentions named types of a lower rank. *)
Definition acyclic (decls : list schema.Decl) (rank : N → nat) : Prop :=
  ∀ id decl, decls !! N.to_nat id = Some decl →
    ∀ id', id' ∈ mentions (schema.Decl_Type decl) → rank id' < rank id.

Definition maxBodySize (decls : list schema.Decl) : nat :=
  foldr (fun decl m => typeSize (schema.Decl_Type decl) `max` m) 0 decls.

Definition maxRank (rank : N → nat) (ids : list N) : nat :=
  foldr (fun id m => rank id `max` m) 0 ids.

(** The table and the lookup agree: every field of the table has a name,
    and a name points at an index exactly when the field at that index
    carries the name as its label. *)
Definition table_inv (s : service) : Prop :=
  (∀ i f, topLevelFields s !! i = Some f →
          ∃ name, LabelName (ast.Label f) = inl name)
  ∧ ∀ name i, fieldLookup s !! name = Some i
              ↔ ∃ f, topLevelFields s !! i = Some f
                     ∧ LabelName (ast.Label f) = inl name.

(** No field of [s] is lost, moved, renamed or has its optional mark
    changed in [s']. *)
Definition keepsFields (s s' : service) : Prop :=
  (∀ name ptr, fieldLookup s !! name = Some ptr → fieldLookup s' !! name = Some ptr)
  ∧ ∀ i f, topLevelFields s !! i = Some f →
           ∃ f', topLevelFields s' !! i = Some f'
                 ∧ ast.Label f' = ast.Label f ∧ ast.Optional f' = ast.Optional f.

(** The names of the json tags that carry one, and the annotations of the
    cue tags that carry one, in the order of the tags. *)
Definition jsonNames (tags : list schema.Tag) : list string :=
  schema.Name <$>
    filter (fun tag => schema.Key tag = "json" ∧ schema.Name tag ≠ "") tags.

Definition annotations (tags : list schema.Tag) : list string :=
  schema.Name <$>
    filter (fun tag => schema.Key tag = "cue" ∧ schema.Name tag ≠ "") tags.

(** The annotations read one after the other, up to the first that the
    parser rejects. *)
Fixpoint parseAll (srcs : list string) : list ast.Expr + error :=
  match srcs with
  | [] => inl []
  | src :: rest =>
      match ParseExpr src with
      | inr err => inr err
      | inl expr =>
          match parseAll rest with
          | inr err => inr err
          | inl exprs => inl (expr :: exprs)
          end
      end
  end.

(** [value & e1 & ... & en], associated to the left. *)
Definition conjoin (value : ast.Expr) (exprs : list ast.Expr) : ast.Expr :=
  fold_left (fun value expr => ast.BinaryExpr value AND expr) exprs value.

(** A type that needs nothing of the registry to be translated: its named
    types are all used more than once, its builtins are known, and the
    annotations of its fields can be read. *)
Definition tagParses (tag : schema.Tag) : bool :=
  if String.eqb (schema.Key tag) "cue" && negb (String.eqb (schema.Name tag) "")
  then match ParseExpr (schema.Name tag) with inl _ => true | inr _ => false end
  else true.

Fixpoint translatable (s : service) (typ : schema.Type_) : bool :=
  match typ with
  | schema.Type_Named named => 1 <? Count (typeUsage s) named
  | schema.Type_Struct fields =>
      (fix go (fs : list schema.Field) : bool :=
         match fs with
         | [] => true
         | f :: rest =>
             translatable s (schema.Field_Typ f)
             && forallb tagParses (schema.Field_Tags f) && go rest
         end) fields
  | schema.Type_Map key value => translatable s key && translatable s value
  | schema.Type_List elem => translatable s elem
  | schema.Type_Builtin builtin => schema.Builtin_known builtin
  | schema.Type_Config elem => translatable s elem
  | schema.Type_other => false
  end.


(** The fields that a type holds, as a traversal finds them: the field
    [f] stands in [typ], or in the declaration of a named type met on the
    way; only named types whose identifier satisfies [follow] are
    entered. *)
Inductive reachesVia (follow : N → Prop) (decls : list schema.Decl)
  : schema.Type_ → schema.Field → Prop :=
| reaches_field fields f :
    f ∈ fields → reachesVia follow decls (schema.Type_Struct fields) f
| reaches_struct fields g f :
    g ∈ fields → reachesVia follow decls (schema.Field_Typ g) f →
    reachesVia follow decls (schema.Type_Struct fields) f
| reaches_key key value f :
    reachesVia follow decls key f → reachesVia follow decls (schema.Type_Map key value) f
| reaches_value key value f :
    reachesVia follow decls value f →
    reachesVia follow decls (schema.Type_Map key value) f
| reaches_elem elem f :
    reachesVia follow decls elem f → reachesVia follow decls (schema.Type_List elem) f
| reaches_config elem f :
    reachesVia follow decls elem f → reachesVia follow decls (schema.Type_Config elem) f
| reaches_named named decl f :
    follow named → decls !! N.to_nat named = Some decl →
    reachesVia follow decls (schema.Decl_Type decl) f →
    reachesVia follow decls (schema.Type_Named named) f.

(** The fields that a declared type holds, however often the named types
    on the way are used. *)
Definition reaches (decls : list schema.Decl) : schema.Type_ → schema.Field → Prop :=
  reachesVia (fun _ => True) decls.

(** The fields that the translation of a type comes across: it enters the
    named types that it inlines, those used once at most. *)
Definition reachesInline (s : service) : schema.Type_ → schema.Field → Prop :=
  reachesVia (fun named => Count (typeUsage s) named ≤ 1) (Meta_Decls s).

(** The use sites inside a type: the types, at any depth, that the
    translator is applied to when it translates [typ].  It goes through
    records, maps, lists and wrappers, and through the named types that it
    inlines. *)
Inductive useSite (s : service) : schema.Type_ → schema.Type_ → Prop :=
| useSite_here typ : useSite s typ typ
| useSite_field fields g t :
    g ∈ fields → useSite s (schema.Field_Typ g) t →
    useSite s (schema.Type_Struct fields) t
| useSite_key key value t :
    useSite s key t → useSite s (schema.Type_Map key value) t
| useSite_value key value t :
    useSite s value t → useSite s (schema.Type_Map key value) t
| useSite_elem elem t : useSite s elem t → useSite s (schema.Type_List elem) t
| useSite_config elem t : useSite s elem t → useSite s (schema.Type_Config elem) t
| useSite_inlined named decl t :
    Count (typeUsage s) named ≤ 1 → Meta_Decls s !! N.to_nat named = Some decl →
    useSite s (schema.Decl_Type decl) t → useSite s (schema.Type_Named named) t.

(** [sub] occurs in the expression [e]. *)
Inductive contains : ast.Expr → ast.Expr → Prop :=
| contains_here e : contains e e
| contains_left x op y sub : contains x sub → contains (ast.BinaryExpr x op y) sub
| contains_right x op y sub : contains y sub → contains (ast.BinaryExpr x op y) sub
| contains_element es e sub :
    e ∈ es → contains e sub → contains (ast.ListLit es) sub
| contains_ellipsis t sub : contains t sub → contains (ast.Ellipsis t) sub
| contains_label fields field sub :
    field ∈ fields → contains (ast.Label field) sub →
    contains (ast.StructLit fields) sub
| contains_value fields field sub :
    field ∈ fields → contains (ast.Value field) sub →
    contains (ast.StructLit fields) sub.

(** Every value of the table of [s] still occurs, at the same index, in
    the table of [s']. *)
Definition keepsValues (s s' : service) : Prop :=
  ∀ i f, topLevelFields s !! i = Some f →
         ∃ f', topLevelFields s' !! i = Some f' ∧ contains (ast.Value f') (ast.Value f).






(** ** Structural equality decides equality of document trees *)

Section DeepEqualFacts.
Import ast.

Lemma RelPos_eqb_eq a b : RelPos_eqb a b = true ↔ a = b.
Proof. destruct a, b; simpl; split; congruence. Qed.

Lemma Pos_eqb_eq a b : Pos_eqb a b = true ↔ a = b.
Proof.
  destruct a, b; simpl; try (split; congruence).
  - rewrite RelPos_eqb_eq. split; congruence.
  - rewrite Z.eqb_eq. split; congruence.
Qed.

Lemma Token_eqb_eq a b : Token_eqb a b = true ↔ a = b.
Proof.
  destruct a, b; simpl; try (split; congruence).
  rewrite String.eqb_eq. split; congruence.
Qed.

Lemma list_eqb_eq {A} (eqb : A → A → bool) :
  (∀ x y, eqb x y = true ↔ x = y) →
  ∀ l l', list_eqb eqb l l' = true ↔ l = l'.
Proof.
  intros Heq l. induction l as [|x l IH]; intros [|y l']; simpl;
    try (split; congruence).
  rewrite andb_true_iff, Heq, IH. split; [intros [-> ->] | intros [= -> ->]]; done.
Qed.

Lemma Comment_eqb_eq a b : Comment_eqb a b = true ↔ a = b.
Proof.
  destruct a, b. unfold Comment_eqb. simpl.
  rewrite andb_true_iff, Pos_eqb_eq, String.eqb_eq.
  split; [intros [-> ->] | intros [= -> ->]]; done.
Qed.

Lemma CommentGroup_eqb_eq a b : CommentGroup_eqb a b = true ↔ a = b.
Proof.
  destruct a, b. unfold CommentGroup_eqb. simpl.
  rewrite !andb_true_iff, !Bool.eqb_true_iff, Z.eqb_eq,
    (list_eqb_eq _ Comment_eqb_eq).
  split; [intros [[[-> ->] ->] ->] | intros [= -> -> -> ->]]; done.
Qed.

Lemma Expr_eqb_eq a : ∀ b, Expr_eqb a b = true ↔ a = b.
Proof.
  induction a as [p n | v | o x IH | x IHx o y IHy | x IHx s IHs
                 | es IH | t IH | fs IH];
    intros b; destruct b as [p' n' | v' | o' x' | x' o' y' | x' s' | es' | t' | fs'];
    simpl; try (split; congruence).
  - rewrite andb_true_iff, Pos_eqb_eq, String.eqb_eq.
    split; [intros [-> ->] | intros [= -> ->]]; done.
  - rewrite String.eqb_eq. split; congruence.
  - rewrite andb_true_iff, Token_eqb_eq, IH.
    split; [intros [-> ->] | intros [= -> ->]]; done.
  - rewrite !andb_true_iff, Token_eqb_eq, IHx, IHy.
    split; [intros [[-> ->] ->] | intros [= -> -> ->]]; done.
  - rewrite andb_true_iff, IHx, IHs.
    split; [intros [-> ->] | intros [= -> ->]]; done.
  - revert es'. induction IH as [|a Pa l Hl IHl]; intros [|b l'];
      try (split; congruence).
    rewrite andb_true_iff, Pa, IHl.
    split; [intros [-> [= ->]] | intros [= -> ->]]; done.
  - rewrite IH. split; congruence.
  - revert fs'. induction IH as [|a Pa l Hl IHl]; intros [|b l'];
      try (split; congruence).
    destruct Pa as [la Pl oa va Pv ca]. destruct b as [lb ob vb cb]. simpl.
    rewrite !andb_true_iff, Pl, Pv, Pos_eqb_eq,
      (list_eqb_eq _ CommentGroup_eqb_eq), IHl.
    split; [intros [[[[-> ->] ->] ->] [= ->]] | intros [= -> -> -> -> ->]]; done.
Qed.

Lemma DeepEqual_eq x y : DeepEqual x y = true ↔ x = y.
Proof. apply Expr_eqb_eq. Qed.

Lemma DeepEqual_refl x : DeepEqual x x = true.
Proof. by apply DeepEqual_eq. Qed.

End DeepEqualFacts.

(** ** The recursion bound: more fuel never changes an outcome *)

Lemma foldM_cons {A St} (body : A → St → result St) x l acc :
  foldM body (x :: l) acc = body x acc ≫= foldM body l.
Proof. done. Qed.

Lemma foldM_app {A St} (body : A → St → result St) l1 l2 acc :
  foldM body (l1 ++ l2) acc = foldM body l1 acc ≫= foldM body l2.
Proof.
  revert acc. induction l1 as [|x l1 IH]; intros acc; [done|].
  rewrite <- app_comm_cons, !foldM_cons. destruct (body x acc); simpl; auto.
Qed.

Lemma bind_cases {A B} (r : result A) (k : A → result B) (out : result B) :
  r ≫= k = out → out ≠ OutOfFuel →
  (∃ a, r = Ok a ∧ k a = out) ∨ (∃ e, r = Err e ∧ out = Err e)
  ∨ (∃ m, r = Panic m ∧ out = Panic m).
Proof.
  destruct r as [a|e|m|]; simpl; intros <- Hout; eauto.
  by destruct Hout.
Qed.

Lemma structToField_mono tr1 tr2 f r :
  (∀ t r, tr1 t = r → r ≠ OutOfFuel → tr2 t = r) →
  structToField tr1 f = r → r ≠ OutOfFuel → structToField tr2 f = r.
Proof.
  intros Htr E Hr. unfold structToField in *.
  destruct (bind_cases _ _ _ E Hr) as [(a & E1 & _) | [(e & E1 & _) | (m & E1 & _)]];
    rewrite E1 in E; rewrite (Htr _ _ E1); done.
Qed.

Lemma structToFieldsWith_mono tr1 tr2 fields :
  (∀ t r, tr1 t = r → r ≠ OutOfFuel → tr2 t = r) →
  ∀ r, structToFieldsWith tr1 fields = r → r ≠ OutOfFuel →
       structToFieldsWith tr2 fields = r.
Proof.
  intros Htr. induction fields as [|f rest IH]; intros r E Hr; [done|].
  simpl in *.
  destruct (bind_cases _ _ _ E Hr) as [(a & E1 & E2) | [(e & E1 & _) | (m & E1 & _)]];
    rewrite E1 in E; rewrite (structToField_mono tr1 tr2 _ _ Htr E1); try done.
  simpl in *.
  destruct (bind_cases _ _ _ E2 Hr) as [(b & E3 & _) | [(e & E3 & _) | (m & E3 & _)]];
    rewrite E3 in E; rewrite (IH _ E3); done.
Qed.

Lemma toCueType_mono n : ∀ s typ r,
  toCueType n s typ = r → r ≠ OutOfFuel → ∀ m, n ≤ m → toCueType m s typ = r.
Proof.
  induction n as [|n IH]; intros s typ r E Hr m Hm; [simpl in E; congruence|].
  destruct m as [|m]; [lia|].
  assert (Hstep : ∀ t r, toCueType n s t = r → r ≠ OutOfFuel → toCueType m s t = r)
    by (intros; eapply IH; eauto with lia).
  destruct typ as [named | fields | key value | elem | b | elem |]; simpl in *; try done.
  - destruct (Count (typeUsage s) named <=? 1); [|done].
    destruct (bind_cases _ _ _ E Hr) as [(a & E1 & E2) | [(e & E1 & _) | (k & E1 & _)]];
      rewrite E1 in E |- *; simpl in *; auto.
  - destruct (bind_cases _ _ _ E Hr) as [(a & E1 & _) | [(e & E1 & _) | (k & E1 & _)]];
      rewrite E1 in E; rewrite (structToFieldsWith_mono _ _ _ Hstep _ E1); done.
  - destruct (bind_cases _ _ _ E Hr) as [(a & E1 & E2) | [(e & E1 & _) | (k & E1 & _)]];
      rewrite E1 in E; rewrite (Hstep _ _ E1); try done.
    simpl in *.
    destruct (bind_cases _ _ _ E2 Hr) as [(c & E3 & _) | [(e & E3 & _) | (k & E3 & _)]];
      rewrite E3 in E; rewrite (Hstep _ _ E3); done.
  - destruct (bind_cases _ _ _ E Hr) as [(a & E1 & _) | [(e & E1 & _) | (k & E1 & _)]];
      rewrite E1 in E; rewrite (Hstep _ _ E1); done.
  - auto.
Qed.

(** A type has one outcome at most, whatever the bound. *)
Lemma translatesTo_functional s typ r1 r2 :
  translatesTo s typ r1 → translatesTo s typ r2 → r1 = r2.
Proof.
  intros [H1 [n1 E1]] [H2 [n2 E2]].
  rewrite <- (toCueType_mono _ _ _ _ E1 H1 (n1 `max` n2)) by lia.
  rewrite <- (toCueType_mono _ _ _ _ E2 H2 (n1 `max` n2)) by lia. done.
Qed.

(** ** Wrapper transparency *)

(** C7: a config wrapper around a type K translates to exactly what K
    translates to: unwrapping is one step of the recursion that adds no
    node, so every outcome of the translation of the wrapper is an outcome
    of the translation of K, and conversely; in particular the two
    expressions are equal whenever both translations return one. *)
Theorem config_wrapper_is_transparent (s : service) (K : schema.Type_) :
  (∀ fuel, toCueType (S fuel) s (schema.Type_Config K) = toCueType fuel s K)
  ∧ (∀ r, translatesTo s (schema.Type_Config K) r ↔ translatesTo s K r)
  ∧ (∀ fuel fuel' wrapped inner,
       toCueType fuel s (schema.Type_Config K) = Ok wrapped →
       toCueType fuel' s K = Ok inner → wrapped = inner).
Proof.
  assert (Hiff : ∀ r, translatesTo s (schema.Type_Config K) r ↔ translatesTo s K r).
  { intros r. unfold translatesTo. split.
    - intros [Hr [[|fuel] E]]; [simpl in E; congruence|]. eauto.
    - intros [Hr [fuel E]]. split; [done|]. by exists (S fuel). }
  split; [done|]. split; [exact Hiff|].
  intros fuel fuel' wrapped inner Hw Hi.
  assert (Ok wrapped = Ok inner) as [= ->]; [|done].
  apply (translatesTo_functional s K).
  - apply Hiff. split; [done|]. by exists fuel.
  - split; [done|]. by exists fuel'.
Qed.

(** ** The fixed mapping of the builtin kinds *)

(** C6: every builtin kind translates as the fixed table says (ANY to [_],
    BOOL to [bool], the sized and unsized integer and float kinds to the
    identifier of the same name, STRING to [string], BYTES to [bytes], TIME
    to the selector [time.Time], UUID, JSON and USER_ID to [string]); a
    value outside the named kinds makes the translation panic, and the
    named kinds are exactly those for which it returns an expression.  The
    translator hands a builtin type to this table unchanged. *)
Theorem builtinToCue_fixed_table :
  builtinToCue schema.Builtin_ANY = Ok (ast.NewIdent "_")
  ∧ builtinToCue schema.Builtin_BOOL = Ok (ast.NewIdent "bool")
  ∧ builtinToCue schema.Builtin_INT8 = Ok (ast.NewIdent "int8")
  ∧ builtinToCue schema.Builtin_INT16 = Ok (ast.NewIdent "int16")
  ∧ builtinToCue schema.Builtin_INT32 = Ok (ast.NewIdent "int32")
  ∧ builtinToCue schema.Builtin_INT64 = Ok (ast.NewIdent "int64")
  ∧ builtinToCue schema.Builtin_UINT8 = Ok (ast.NewIdent "uint8")
  ∧ builtinToCue schema.Builtin_UINT16 = Ok (ast.NewIdent "uint16")
  ∧ builtinToCue schema.Builtin_UINT32 = Ok (ast.NewIdent "uint32")
  ∧ builtinToCue schema.Builtin_UINT64 = Ok (ast.NewIdent "uint64")
  ∧ builtinToCue schema.Builtin_INT = Ok (ast.NewIdent "int")
  ∧ builtinToCue schema.Builtin_UINT = Ok (ast.NewIdent "uint")
  ∧ builtinToCue schema.Builtin_FLOAT32 = Ok (ast.NewIdent "float32")
  ∧ builtinToCue schema.Builtin_FLOAT64 = Ok (ast.NewIdent "float64")
  ∧ builtinToCue schema.Builtin_STRING = Ok (ast.NewIdent "string")
  ∧ builtinToCue schema.Builtin_BYTES = Ok (ast.NewIdent "bytes")
  ∧ builtinToCue schema.Builtin_TIME
    = Ok (ast.SelectorExpr (ast.Ident NoPos "time") (ast.Ident NoPos "Time"))
  ∧ builtinToCue schema.Builtin_UUID = Ok (ast.NewIdent "string")
  ∧ builtinToCue schema.Builtin_JSON = Ok (ast.NewIdent "string")
  ∧ builtinToCue schema.Builtin_USER_ID = Ok (ast.NewIdent "string")
  ∧ (∀ code, builtinToCue (schema.Builtin_other code) = Panic "unknown builtin")
  ∧ (∀ b, succeeded (builtinToCue b) ↔ schema.Builtin_known b = true)
  ∧ (∀ fuel s b, toCueType (S fuel) s (schema.Type_Builtin b) = builtinToCue b).
Proof.
  repeat split; try reflexivity.
  - intros [e He]. destruct b; try reflexivity. discriminate He.
  - intros Hk. destruct b; try discriminate Hk; eexists; reflexivity.
Qed.

(** ** Tags of a field *)

Local Arguments applyTag : simpl never.

Lemma scanOptions_spec name options isOptional :
  scanOptions name options isOptional
  = isOptional || existsb (fun option => String.eqb option name) options.
Proof.
  unfold scanOptions. revert isOptional.
  induction options as [|o rest IH]; intros acc; simpl; [by rewrite orb_false_r|].
  rewrite IH. destruct (String.eqb o name), acc; done.
Qed.

Lemma String_eqb_json_cue key :
  String.eqb key "json" = true → String.eqb key "cue" = false.
Proof. intros ->%String.eqb_eq. done. Qed.

(** What one tag does to the field under construction, by cases on the
    outcome of the parser. *)
Lemma applyTag_spec tag field isOptional :
  applyTag tag (field, isOptional)
  = if String.eqb (schema.Key tag) "json" then
      Ok (if negb (String.eqb (schema.Name tag) "")
          then ast.setLabel field (ast.NewIdent (schema.Name tag)) else field,
          isOptional || marksOptional tag)
    else if String.eqb (schema.Key tag) "cue" then
      if negb (String.eqb (schema.Name tag) "") then
        match ParseExpr (schema.Name tag) with
        | inr err => Err err
        | inl expr =>
            Ok (ast.setValue field (ast.NewBinExpr AND (ast.Value field) expr),
                isOptional || marksOptional tag)
        end
      else Ok (field, isOptional || marksOptional tag)
    else Ok (field, isOptional).
Proof.
  unfold applyTag, marksOptional. rewrite !scanOptions_spec.
  destruct (String.eqb (schema.Key tag) "json") eqn:Hj.
  - rewrite (String_eqb_json_cue _ Hj). simpl. rewrite orb_false_r. reflexivity.
  - destruct (String.eqb (schema.Key tag) "cue"); [|done]. simpl.
    destruct (String.eqb (schema.Name tag) ""); simpl;
      [rewrite scanOptions_spec; reflexivity|].
    destruct (ParseExpr (schema.Name tag)); simpl;
      rewrite ?scanOptions_spec; reflexivity.
Qed.

Lemma applyTag_outcome tag st :
  (∃ st', applyTag tag st = Ok st') ∨ (∃ err, applyTag tag st = Err err).
Proof.
  destruct st as [field isOptional]. rewrite applyTag_spec.
  repeat case_match; eauto.
Qed.

Lemma applyTag_keeps tag field isOptional field' isOptional' :
  applyTag tag (field, isOptional) = Ok (field', isOptional') →
  ast.Optional field' = ast.Optional field
  ∧ ast.Comments field' = ast.Comments field
  ∧ isOptional' = isOptional || marksOptional tag.
Proof.
  rewrite applyTag_spec. unfold marksOptional.
  repeat case_match; intros [= <- <-]; simpl in *; rewrite ?orb_false_r; done.
Qed.

Lemma foldM_applyTag_outcome tags st :
  (∃ st', foldM applyTag tags st = Ok st') ∨ (∃ err, foldM applyTag tags st = Err err).
Proof.
  revert st. induction tags as [|tag rest IH]; intros st; [simpl; eauto|].
  rewrite foldM_cons.
  destruct (applyTag_outcome tag st) as [[st' ->] | [err ->]]; simpl; eauto.
Qed.

Lemma foldM_applyTag_keeps tags : ∀ field isOptional field' isOptional',
  foldM applyTag tags (field, isOptional) = Ok (field', isOptional') →
  ast.Optional field' = ast.Optional field
  ∧ ast.Comments field' = ast.Comments field
  ∧ isOptional' = isOptional || existsb marksOptional tags.
Proof.
  induction tags as [|tag rest IH]; intros field o field' o'.
  - simpl. intros [= <- <-]. by rewrite orb_false_r.
  - rewrite foldM_cons.
    destruct (applyTag_outcome tag (field, o)) as [[[f1 o1] E] | [err E]];
      rewrite E; simpl; [|done].
    intros (-> & -> & ->)%IH. apply applyTag_keeps in E as (-> & -> & ->).
    by rewrite orb_assoc.
Qed.

(** Tags whose name is empty leave the field as it is. *)
Lemma foldM_applyTag_empty_names tags : ∀ field isOptional,
  Forall (fun tag => schema.Name tag = "") tags →
  foldM applyTag tags (field, isOptional)
  = Ok (field, isOptional || existsb marksOptional tags).
Proof.
  induction tags as [|tag rest IH]; intros field o Hall.
  - simpl. by rewrite orb_false_r.
  - inversion Hall as [|? ? Hname Hrest]; subst.
    rewrite foldM_cons, applyTag_spec, Hname. simpl.
    repeat case_match; simpl; rewrite IH by done; unfold marksOptional;
      repeat match goal with H : String.eqb _ _ = _ |- _ => rewrite H end;
      simpl; rewrite ?orb_false_r, ?orb_assoc; done.
Qed.

(** A malformed cue tag stops the loop over the tags with an error. *)
Lemma foldM_applyTag_parse_error tags tag err : ∀ st,
  tag ∈ tags → schema.Key tag = "cue" → schema.Name tag ≠ "" →
  ParseExpr (schema.Name tag) = inr err →
  ∃ err', foldM applyTag tags st = Err err'.
Proof.
  intros st Hin Hkey Hname Hparse. revert st.
  induction tags as [|t rest IH]; intros st; [by apply elem_of_nil in Hin|].
  rewrite foldM_cons. apply elem_of_cons in Hin as [<- | Hin].
  - destruct st as [field o]. rewrite applyTag_spec, Hkey, Hparse. simpl.
    apply String.eqb_neq in Hname. rewrite Hname. simpl. eauto.
  - destruct (applyTag_outcome t st) as [[st' ->] | [err' ->]]; simpl; eauto.
Qed.

Lemma finishField_keeps f field isOptional :
  ast.Label (finishField f field isOptional) = ast.Label field
  ∧ ast.Value (finishField f field isOptional) = ast.Value field
  ∧ ast.Optional (finishField f field isOptional)
    = (if isOptional then RelPos_Pos Blank else ast.Optional field).
Proof. unfold finishField. repeat case_match; done. Qed.

Lemma structToField_unfold translate f :
  structToField translate f
  = fieldType ← translate (schema.Field_Typ f);
    st ← foldM applyTag (schema.Field_Tags f)
           (ast.mkField (ast.NewIdent (schema.Field_Name f)) NoPos fieldType [], false);
    Ok (finishField f st.1 st.2).
Proof.
  unfold structToField. destruct (translate (schema.Field_Typ f)); simpl; try done.
  destruct (foldM applyTag _ _) as [[field o]| | |]; done.
Qed.

(** The field is marked optional exactly when one of its tags says so. *)
Lemma structToField_optional translate f field :
  structToField translate f = Ok field →
  ast.isOptional field = existsb marksOptional (schema.Field_Tags f).
Proof.
  rewrite structToField_unfold.
  destruct (translate (schema.Field_Typ f)) as [v| | |]; simpl; try done.
  destruct (foldM applyTag _ _) as [[fld o]| | |] eqn:E; simpl; try done.
  intros [= <-]. apply foldM_applyTag_keeps in E as (Ho & _ & ->). simpl in *.
  unfold ast.isOptional.
  destruct (finishField_keeps f fld (existsb marksOptional (schema.Field_Tags f)))
    as (_ & _ & ->).
  destruct (existsb marksOptional (schema.Field_Tags f)); [done|]. by rewrite Ho.
Qed.

Lemma structToField_outcome translate f v :
  translate (schema.Field_Typ f) = Ok v →
  (∃ field, structToField translate f = Ok field)
  ∨ (∃ err, structToField translate f = Err err).
Proof.
  intros E. rewrite structToField_unfold, E. simpl.
  destruct (foldM_applyTag_outcome (schema.Field_Tags f)
              (ast.mkField (ast.NewIdent (schema.Field_Name f)) NoPos v [], false))
    as [[st' ->] | [err ->]]; simpl; eauto.
Qed.

Lemma structToFieldsWith_length translate fields out :
  structToFieldsWith translate fields = Ok out → length out = length fields.
Proof.
  revert out. induction fields as [|f rest IH]; intros out; simpl.
  - by intros [= <-].
  - destruct (structToField translate f); simpl; try done.
    destruct (structToFieldsWith translate rest); simpl; try done.
    intros [= <-]. simpl. f_equal. by apply IH.
Qed.

Lemma structToField_parse_error translate f tag err :
  tag ∈ schema.Field_Tags f → schema.Key tag = "cue" → schema.Name tag ≠ "" →
  ParseExpr (schema.Name tag) = inr err →
  ¬ succeeded (structToField translate f)
  ∧ (succeeded (translate (schema.Field_Typ f)) →
     ∃ err', structToField translate f = Err err').
Proof.
  intros Hin Hkey Hname Hparse. rewrite structToField_unfold.
  destruct (translate (schema.Field_Typ f)) as [v| | |] eqn:E; simpl;
    try (split; [intros [? ?]; done | intros [? ?]; done]).
  destruct (foldM_applyTag_parse_error _ _ _
              (ast.mkField (ast.NewIdent (schema.Field_Name f)) NoPos v [], false)
              Hin Hkey Hname Hparse) as [err' ->].
  simpl. split; [intros [? ?]; done | eauto].
Qed.

Lemma structToFieldsWith_not_ok translate fields f :
  f ∈ fields → ¬ succeeded (structToField translate f) →
  ¬ succeeded (structToFieldsWith translate fields).
Proof.
  intros Hin Hbad. induction fields as [|g rest IH]; [by apply elem_of_nil in Hin|].
  simpl. intros [out E]. apply elem_of_cons in Hin as [<- | Hin].
  - destruct (structToField translate f) eqn:E1; simpl in E; try done.
    apply Hbad. by eexists.
  - destruct (structToField translate g); simpl in E; try done.
    destruct (structToFieldsWith translate rest) eqn:E2; simpl in E; try done.
    apply IH; [done|]. by eexists.
Qed.

Lemma structToFieldsWith_err translate fields f err :
  f ∈ fields → structToField translate f = Err err →
  (∀ f', f' ∈ fields → succeeded (translate (schema.Field_Typ f'))) →
  ∃ err', structToFieldsWith translate fields = Err err'.
Proof.
  intros Hin Hbad Hall. induction fields as [|g rest IH]; [by apply elem_of_nil in Hin|].
  simpl. apply elem_of_cons in Hin as [<- | Hin].
  - rewrite Hbad. simpl. eauto.
  - destruct (Hall g) as [v Hv]; [by left|].
    destruct (structToField_outcome translate g v Hv) as [[fld ->] | [e ->]];
      simpl; [|eauto].
    destruct IH as [err' ->]; [done| |simpl; eauto].
    intros f' Hf'. apply Hall. by right.
Qed.

(** ** The recursion ends on an acyclic schema *)

Lemma typeSize_pos typ : 1 ≤ typeSize typ.
Proof. destruct typ; simpl; lia. Qed.

Lemma typeSize_field fields f :
  f ∈ fields → typeSize (schema.Field_Typ f) < typeSize (schema.Type_Struct fields).
Proof.
  simpl. induction fields as [|g rest IH]; intros Hin; [by apply elem_of_nil in Hin|].
  apply elem_of_cons in Hin as [<- | Hin]; [lia|]. specialize (IH Hin). lia.
Qed.

Lemma mentions_field fields f id :
  f ∈ fields → id ∈ mentions (schema.Field_Typ f) →
  id ∈ mentions (schema.Type_Struct fields).
Proof.
  simpl. induction fields as [|g rest IH]; intros Hin Hid; [by apply elem_of_nil in Hin|].
  apply elem_of_app. apply elem_of_cons in Hin as [<- | Hin]; auto.
Qed.

Lemma maxBodySize_ge decls i decl :
  decls !! i = Some decl → typeSize (schema.Decl_Type decl) ≤ maxBodySize decls.
Proof.
  revert i. induction decls as [|d rest IH]; intros [|i]; simpl; try done.
  - intros [= ->]. lia.
  - intros H%IH. lia.
Qed.

Lemma maxRank_ge rank ids id : id ∈ ids → rank id ≤ maxRank rank ids.
Proof.
  induction ids as [|x rest IH]; intros Hin; [by apply elem_of_nil in Hin|].
  simpl. apply elem_of_cons in Hin as [<- | Hin]; [lia|]. specialize (IH Hin). lia.
Qed.

Lemma structToField_returns translate f :
  translate (schema.Field_Typ f) ≠ OutOfFuel → structToField translate f ≠ OutOfFuel.
Proof.
  rewrite structToField_unfold.
  destruct (translate (schema.Field_Typ f)) as [v| | |]; simpl; try done.
  intros _.
  by destruct (foldM_applyTag_outcome (schema.Field_Tags f)
                 (ast.mkField (ast.NewIdent (schema.Field_Name f)) NoPos v [], false))
    as [[st' ->] | [err ->]].
Qed.

Lemma structToFieldsWith_returns translate fields :
  (∀ f, f ∈ fields → translate (schema.Field_Typ f) ≠ OutOfFuel) →
  structToFieldsWith translate fields ≠ OutOfFuel.
Proof.
  induction fields as [|f rest IH]; intros Hall; [done|]. simpl.
  assert (Hf := structToField_returns translate f (Hall f ltac:(by left))).
  destruct (structToField translate f); simpl; try done.
  assert (Hrest : structToFieldsWith translate rest ≠ OutOfFuel).
  { apply IH. intros g Hg. apply Hall. by right. }
  by destruct (structToFieldsWith translate rest).
Qed.

(** With a bound of the size of the type plus, for each rank it may still
    descend, the size of the largest declaration and one step into it, the
    translation does not run out of fuel. *)
Lemma toCueType_returns_within rank s :
  acyclic (Meta_Decls s) rank →
  ∀ r n typ fuel,
    typeSize typ ≤ n → (∀ id, id ∈ mentions typ → rank id < r) →
    n + r * S (maxBodySize (Meta_Decls s)) ≤ fuel →
    toCueType fuel s typ ≠ OutOfFuel.
Proof.
  intros Hacyclic. set (M := maxBodySize (Meta_Decls s)).
  induction r as [r IHr] using lt_wf_ind.
  induction n as [|n IHn]; intros typ fuel Hsize Hrank Hfuel.
  { pose proof (typeSize_pos typ). lia. }
  destruct fuel as [|fuel]; [lia|].
  assert (Hsub : ∀ sub, typeSize sub < typeSize typ →
                   (∀ id, id ∈ mentions sub → id ∈ mentions typ) →
                   toCueType fuel s sub ≠ OutOfFuel).
  { intros sub Hlt Hsubm. apply (IHn sub fuel); [lia|auto|lia]. }
  destruct typ as [named | fields | key value | elem | b | elem |]; simpl.
  - destruct (Count (typeUsage s) named <=? 1); [|done].
    unfold GetConcreteType.
    destruct (Meta_Decls s !! N.to_nat named) as [decl|] eqn:Hdecl; simpl; [|done].
    assert (Hr : rank named < r) by (apply Hrank; simpl; by left).
    apply (IHr (rank named) Hr M).
    + by eapply maxBodySize_ge.
    + intros id Hid. by eapply Hacyclic.
    + fold M in Hfuel. nia.
  - assert (H : structToFieldsWith (toCueType fuel s) fields ≠ OutOfFuel).
    { apply structToFieldsWith_returns. intros f Hf. apply Hsub.
      - by apply typeSize_field.
      - intros id. by apply mentions_field. }
    by destruct (structToFieldsWith (toCueType fuel s) fields).
  - assert (Hk : toCueType fuel s key ≠ OutOfFuel).
    { apply Hsub; [simpl; lia|]. intros id Hid. simpl. apply elem_of_app. auto. }
    assert (Hv : toCueType fuel s value ≠ OutOfFuel).
    { apply Hsub; [simpl; lia|]. intros id Hid. simpl. apply elem_of_app. auto. }
    destruct (toCueType fuel s key); simpl; try done.
    by destruct (toCueType fuel s value).
  - assert (He : toCueType fuel s elem ≠ OutOfFuel) by (apply Hsub; [simpl; lia|done]).
    by destruct (toCueType fuel s elem).
  - by destruct b.
  - apply Hsub; [simpl; lia|done].
  - done.
Qed.

(** On an acyclic schema every translation returns, given enough fuel. *)
Lemma toCueType_returns rank s typ :
  acyclic (Meta_Decls s) rank →
  ∃ fuel, ∀ fuel', fuel ≤ fuel' → toCueType fuel' s typ ≠ OutOfFuel.
Proof.
  intros Hacyclic.
  exists (typeSize typ + S (maxRank rank (mentions typ)) * S (maxBodySize (Meta_Decls s))).
  intros fuel' Hfuel.
  apply (toCueType_returns_within rank s Hacyclic
           (S (maxRank rank (mentions typ))) (typeSize typ)); [done| |done].
  intros id Hid. pose proof (maxRank_ge rank _ _ Hid). lia.
Qed.

(** ** Tags without a name *)

(** C10: the options of a tag are handled whatever its name is.  A tag
    whose name is empty leaves the field under construction untouched
    (label and value as they were) and marks it optional when it is a json
    tag with option [omitempty] or a cue tag with option [opt]; the
    parser plays no part in the outcome, so no parse error can arise.  A
    field carrying such a tag comes out of the construction marked
    optional, and, when none of its tags has a name, with the label of the
    schema field and the translated value as they are. *)
Theorem tag_options_independent_of_name
    (tag : schema.Tag) (field : ast.Field) (isOptional : bool) :
  schema.Name tag = "" →
  applyTag tag (field, isOptional) = Ok (field, isOptional || marksOptional tag)
  ∧ (∀ translate f field',
       tag ∈ schema.Field_Tags f → marksOptional tag = true →
       structToField translate f = Ok field' → ast.isOptional field' = true)
  ∧ (∀ translate f fieldType,
       tag ∈ schema.Field_Tags f → marksOptional tag = true →
       Forall (fun t => schema.Name t = "") (schema.Field_Tags f) →
       translate (schema.Field_Typ f) = Ok fieldType →
       ∃ field', structToField translate f = Ok field'
                 ∧ ast.Label field' = ast.NewIdent (schema.Field_Name f)
                 ∧ ast.Value field' = fieldType
                 ∧ ast.isOptional field' = true).
Proof.
  intros Hname. split; [|split].
  - rewrite applyTag_spec, Hname. simpl. unfold marksOptional.
    repeat case_match; simpl; rewrite ?orb_false_r; reflexivity.
  - intros translate f field' Hin Hopt E.
    rewrite (structToField_optional _ _ _ E). apply existsb_exists.
    exists tag. split; [by apply list_elem_of_In|done].
  - intros translate f fieldType Hin Hopt Hall E.
    assert (Hex : existsb marksOptional (schema.Field_Tags f) = true).
    { apply existsb_exists. exists tag. split; [by apply list_elem_of_In|done]. }
    rewrite structToField_unfold, E. simpl.
    rewrite (foldM_applyTag_empty_names _ _ _ Hall). simpl. rewrite Hex.
    eexists. split; [reflexivity|].
    destruct (finishField_keeps f
                (ast.mkField (ast.NewIdent (schema.Field_Name f)) NoPos fieldType [])
                true) as (-> & -> & Ho).
    unfold ast.isOptional. rewrite Ho. done.
Qed.

(** ** The configuration annotation *)

(** ** The merge of top-level fields *)

Lemma set_topLevelFields_id s : set_topLevelFields s (topLevelFields s) = s.
Proof. by destruct s. Qed.

Lemma appendToFirstGroup_keeps existing lines :
  ast.Label (appendToFirstGroup existing lines) = ast.Label existing
  ∧ ast.Optional (appendToFirstGroup existing lines) = ast.Optional existing
  ∧ ast.Value (appendToFirstGroup existing lines) = ast.Value existing.
Proof. unfold appendToFirstGroup. by destruct (ast.Comments existing). Qed.

Lemma repositionFirstGroup_keeps existing :
  ast.Label (repositionFirstGroup existing) = ast.Label existing
  ∧ ast.Optional (repositionFirstGroup existing) = ast.Optional existing
  ∧ ast.Value (repositionFirstGroup existing) = ast.Value existing.
Proof.
  unfold repositionFirstGroup.
  destruct (ast.Comments existing) as [|grp others]; [done|].
  by destruct (ast.List grp).
Qed.

(** The merge of the comments touches nothing but the comments. *)
Lemma mergeComments_keeps existing field :
  ast.Label (mergeComments existing field) = ast.Label existing
  ∧ ast.Optional (mergeComments existing field) = ast.Optional existing
  ∧ ast.Value (mergeComments existing field) = ast.Value existing.
Proof.
  unfold mergeComments.
  destruct (0 <? length (ast.Comments field)); [|done].
  destruct (length (ast.Comments existing) =? 0); [done|].
  destruct (repositionFirstGroup_keeps (unionComments existing (ast.Comments field)))
    as (-> & -> & ->).
  unfold unionComments.
  generalize (ast.Comments field) as groups. intros groups. revert existing.
  induction groups as [|g rest IH]; intros existing; [done|]. simpl.
  destruct (IH (if negb (commentAlreadyPresent existing g)
                then appendToFirstGroup existing (ast.List g) else existing))
    as (-> & -> & ->).
  destruct (negb (commentAlreadyPresent existing g)); [|done].
  apply appendToFirstGroup_keeps.
Qed.

Lemma mergeComments_no_comment existing field :
  ast.Comments field = [] → mergeComments existing field = existing.
Proof. unfold mergeComments. by intros ->. Qed.

(** The merge of the values touches nothing but the value, and only when
    the two values differ. *)
Lemma mergeValues_keeps existing field :
  ast.Label (mergeValues existing field) = ast.Label existing
  ∧ ast.Optional (mergeValues existing field) = ast.Optional existing
  ∧ ast.Comments (mergeValues existing field) = ast.Comments existing
  ∧ ast.Value (mergeValues existing field)
    = (if DeepEqual (ast.Value existing) (ast.Value field) then ast.Value existing
       else ast.BinaryExpr (ast.Value existing) AND (ast.Value field)).
Proof. unfold mergeValues. by destruct (DeepEqual _ _). Qed.

Lemma mergeValues_same existing field :
  ast.Value existing = ast.Value field → mergeValues existing field = existing.
Proof. unfold mergeValues. intros ->. by rewrite DeepEqual_refl. Qed.

Lemma mergedField_keeps existing field :
  ast.Label (mergedField existing field) = ast.Label existing
  ∧ ast.Optional (mergedField existing field) = ast.Optional existing
  ∧ ast.Value (mergedField existing field)
    = (if DeepEqual (ast.Value existing) (ast.Value field) then ast.Value existing
       else ast.BinaryExpr (ast.Value existing) AND (ast.Value field)).
Proof.
  unfold mergedField.
  destruct (mergeValues_keeps (mergeComments existing field) field) as (-> & -> & _ & ->).
  by destruct (mergeComments_keeps existing field) as (-> & -> & ->).
Qed.

Lemma registerField_found field s name ptr existing :
  LabelName (ast.Label field) = inl name →
  fieldLookup s !! name = Some ptr → topLevelFields s !! ptr = Some existing →
  registerField field s
  = Ok (set_topLevelFields s (<[ptr := mergedField existing field]> (topLevelFields s))).
Proof.
  unfold registerField. intros Hname Hptr Hexisting.
  rewrite Hname. simpl. by rewrite Hptr, Hexisting.
Qed.

Lemma registerField_new field s name :
  LabelName (ast.Label field) = inl name → fieldLookup s !! name = None →
  registerField field s
  = Ok (set_topLevelFields
          (set_fieldLookup s (<[name := length (topLevelFields s)]> (fieldLookup s)))
          (topLevelFields s ++ [field])).
Proof.
  unfold registerField. intros Hname Hptr. rewrite Hname. simpl. by rewrite Hptr.
Qed.

(** The pointers of [fieldLookup] stay valid, so the branch of the model
    for a dangling pointer is never taken from a fresh service on. *)
Lemma registerField_wf field s s' :
  lookup_wf s → registerField field s = Ok s' → lookup_wf s'.
Proof.
  unfold registerField, lookup_wf. intros Hwf.
  destruct (LabelName (ast.Label field)) as [name|err]; simpl; try done.
  destruct (fieldLookup s !! name) as [ptr|] eqn:El.
  - destruct (topLevelFields s !! ptr); [|done].
    intros [= <-] name' ptr'. simpl. rewrite length_insert. apply Hwf.
  - intros [= <-] name' ptr'. simpl. rewrite length_app. simpl.
    destruct (decide (name = name')) as [<- | Hne].
    + rewrite lookup_insert_eq. intros [= <-]. lia.
    + rewrite lookup_insert_ne by done. intros H%Hwf. lia.
Qed.

Lemma registerField_succeeds field s name :
  lookup_wf s → LabelName (ast.Label field) = inl name →
  succeeded (registerField field s).
Proof.
  intros Hwf Hname. destruct (fieldLookup s !! name) as [ptr|] eqn:El.
  - destruct (lookup_lt_is_Some_2 (topLevelFields s) ptr (Hwf _ _ El)) as [existing E].
    rewrite (registerField_found _ _ _ _ _ Hname El E). by eexists.
  - rewrite (registerField_new _ _ _ Hname El). by eexists.
Qed.

(** ** The usage table and the import set *)

Lemma elem_of_NamesWithCountsOver d n named :
  named ∈ NamesWithCountsOver d n ↔ n < Count d named.
Proof.
  unfold NamesWithCountsOver. rewrite merge_sort_Permutation, list_elem_of_filter.
  split; [by intros [? _]|]. intros Hn. split; [done|].
  unfold Count in Hn. destruct (counts d !! named) as [c|] eqn:E; simpl in Hn; [|lia].
  apply list_elem_of_fmap. exists (named, c). split; [done|].
  by apply elem_of_map_to_list.
Qed.

Lemma NoDup_NamesWithCountsOver d n : NoDup (NamesWithCountsOver d n).
Proof.
  unfold NamesWithCountsOver. rewrite merge_sort_Permutation.
  apply NoDup_filter, NoDup_fst_map_to_list.
Qed.

Lemma Sorted_NamesWithCountsOver d n : Sorted N.le (NamesWithCountsOver d n).
Proof. unfold NamesWithCountsOver. apply Sorted_merge_sort. apply _. Qed.

Lemma Count_Inc d named other :
  Count (Inc d named) other = if decide (named = other) then S (Count d other) else Count d other.
Proof.
  unfold Inc, Count at 1. simpl. case_decide as Heq.
  - subst. by rewrite lookup_insert_eq.
  - by rewrite lookup_insert_ne.
Qed.






Lemma importSpecs_empty m : size m = 0 → importSpecs m = [].
Proof. intros ->%map_size_empty_iff. unfold importSpecs. by rewrite map_to_list_empty. Qed.

(** ** The assembly of the document *)

Lemma hoistDefinition_spec fuel s named f :
  hoistDefinition fuel s named f
  = def ← definitionOf fuel s named;
    Ok (ast.mkFile (ast.Decls f ++ [ast.FieldDecl def]) (ast.Imports f)
                   (ast.FileComments f)).
Proof.
  unfold hoistDefinition, definitionOf, GetConcreteType.
  destruct (Meta_Decls s !! N.to_nat named) as [decl|]; [|done]. simpl.
  destruct (toCueType fuel s (schema.Decl_Type decl)); simpl; done.
Qed.

Lemma definitionOf_label fuel s named def :
  definitionOf fuel s named = Ok def →
  definesIdent named def = true
  ∧ ∃ decl, Meta_Decls s !! N.to_nat named = Some decl
            ∧ toCueType fuel s (schema.Decl_Type decl) = Ok (ast.Value def).
Proof.
  unfold definitionOf, definesIdent.
  destruct (Meta_Decls s !! N.to_nat named) as [decl|]; [|done].
  destruct (toCueType fuel s (schema.Decl_Type decl)) as [v| | |] eqn:E; simpl;
    try done.
  destruct (negb (String.eqb (schema.Decl_Doc decl) "")); intros [= <-]; simpl;
    (split; [by apply String.eqb_eq | by exists decl]).
Qed.

Lemma foldM_hoistDefinition fuel s names : ∀ f f',
  foldM (hoistDefinition fuel s) names f = Ok f' →
  ∃ defs, Forall2 (fun named def => definitionOf fuel s named = Ok def) names defs
          ∧ f' = ast.mkFile (ast.Decls f ++ (ast.FieldDecl <$> defs)) (ast.Imports f)
                            (ast.FileComments f).
Proof.
  induction names as [|named rest IH]; intros f f'.
  - simpl. intros [= <-]. exists []. split; [constructor|].
    destruct f. simpl. by rewrite app_nil_r.
  - rewrite foldM_cons, hoistDefinition_spec.
    destruct (definitionOf fuel s named) as [def| | |] eqn:E; simpl; try done.
    intros (defs & Hdefs & ->)%IH. exists (def :: defs). split; [by constructor|].
    simpl. by rewrite <- app_assoc.
Qed.

Lemma generateCue_spec fuel s s' :
  topLevelFields s ≠ [] → generateCue fuel s = Ok s' →
  ∃ defs,
    Forall2 (fun named def => definitionOf fuel s named = Ok def)
            (NamesWithCountsOver (typeUsage s) 1) defs
    ∧ s' = set_file s
             (ast.mkFile
                (ast.Decls (file s) ++ [ast.Package (ast.NewIdent (svc_Name s))]
                   ++ importDecls s ++ (ast.FieldDecl <$> defs)
                   ++ (ast.FieldDecl <$> topLevelFields s))
                (ast.Imports (file s) ++ importSpecs (neededImports s))
                (ast.FileComments (file s) ++ [headerComment])).
Proof.
  intros Hne. unfold generateCue.
  destruct (topLevelFields s) as [|top tops] eqn:Htop; [done|].
  change (length (top :: tops) =? 0) with false. cbv iota.
  destruct (foldM (hoistDefinition fuel s) (NamesWithCountsOver (typeUsage s) 1) _)
    as [f'| | |] eqn:E; simpl; try done.
  apply foldM_hoistDefinition in E as (defs & Hdefs & ->). intros [= <-].
  exists defs. split; [done|]. f_equal. unfold importDecls.
  destruct (0 <? size (neededImports s)) eqn:Hsize; simpl.
  - by rewrite <- !app_assoc.
  - apply Nat.ltb_ge in Hsize. rewrite importSpecs_empty by lia.
    by rewrite <- !app_assoc, app_nil_r.
Qed.

(** ** An empty field table *)

(** A declaration whose record type has no field leaves the table as it
    is, for any bound on the recursion. *)
Lemma registerTopLevelField_no_fields fuel s typ :
  GetConcreteStructType (Meta_Decls s) typ = Ok [] →
  registerTopLevelField fuel s typ = Ok s.
Proof. unfold registerTopLevelField. by intros ->. Qed.

(** C8: when the table of top-level fields is empty, the assembly returns
    at once with the service as it was: no package clause, no header
    comment, no import, no definition and no field is added to the file.
    The table stays empty under the registration of a declaration whose
    record type has no field, and a pass over no declaration at all
    returns the fresh service, whose file is empty. *)
Theorem generateCue_empty_table (fuel : nat) (s : service) :
  topLevelFields s = [] →
  generateCue fuel s = Ok s
  ∧ (∀ s', generateCue fuel s = Ok s' → file s' = file s)
  ∧ (∀ typ, GetConcreteStructType (Meta_Decls s) typ = Ok [] →
            registerTopLevelField fuel s typ = Ok s)
  ∧ (∀ name decls,
       generate fuel name decls [] = Ok (newService name decls)
       ∧ file (newService name decls) = ast.mkFile [] [] []).
Proof.
  intros Hempty. unfold generateCue. rewrite Hempty. simpl.
  split; [done|]. split; [by intros s' [= <-]|].
  split; [apply registerTopLevelField_no_fields|done].
Qed.

(** A service without declarations has an empty table. *)
Lemma newService_empty_table name decls fuel :
  generateCue fuel (newService name decls) = Ok (newService name decls).
Proof. done. Qed.

(** ** The order of the document *)

(** Registering a field keeps the labels of the table in their order: a
    label seen before keeps its place, a new label goes last. *)
Lemma registerField_first_seen field s s' :
  registerField field s = Ok s' →
  ∃ name, LabelName (ast.Label field) = inl name
    ∧ ((∃ ptr, fieldLookup s !! name = Some ptr
               ∧ fieldLookup s' = fieldLookup s
               ∧ ast.Label <$> topLevelFields s' = ast.Label <$> topLevelFields s)
       ∨ (fieldLookup s !! name = None
          ∧ fieldLookup s' = <[name := length (topLevelFields s)]> (fieldLookup s)
          ∧ topLevelFields s' = topLevelFields s ++ [field])).
Proof.
  unfold registerField.
  destruct (LabelName (ast.Label field)) as [name|err]; simpl; try done.
  intros E. exists name. split; [done|].
  destruct (fieldLookup s !! name) as [ptr|] eqn:El.
  - destruct (topLevelFields s !! ptr) as [existing|] eqn:Ee; [|done].
    injection E as <-. left. exists ptr. repeat split. simpl.
    rewrite list_fmap_insert.
    destruct (mergedField_keeps existing field) as (Hl & _). unfold mergedField in Hl.
    rewrite Hl. apply list_insert_id. by rewrite list_lookup_fmap, Ee.
  - injection E as <-. by right.
Qed.


(** ** The optional mark under the merge *)


(** ** The union of the comment blocks *)

Lemma In_commentTexts field t :
  In t (commentTexts field)
  ↔ ∃ g c, In g (ast.Comments field) ∧ In c (ast.List g) ∧ ast.Text c = t.
Proof.
  unfold commentTexts. rewrite in_concat. split.
  - intros (l & Hl & Ht). apply in_map_iff in Hl as (g & <- & Hg).
    apply in_map_iff in Ht as (c & <- & Hc). eauto.
  - intros (g & c & Hg & Hc & <-). exists (ast.Text <$> ast.List g). split.
    + apply in_map_iff. eauto.
    + apply in_map_iff. eauto.
Qed.

Lemma commentAlreadyPresent_spec field comment :
  commentAlreadyPresent field comment = true
  ↔ ∀ c, In c (ast.List comment) → In (ast.Text c) (commentTexts field).
Proof.
  unfold commentAlreadyPresent. rewrite forallb_forall.
  split; intros H c Hc; specialize (H c Hc).
  - apply existsb_exists in H as (g & Hg & H).
    apply existsb_exists in H as (c' & Hc' & Heq%String.eqb_eq).
    apply In_commentTexts. eauto.
  - apply In_commentTexts in H as (g & c' & Hg & Hc' & Heq).
    apply existsb_exists. exists g. split; [done|].
    apply existsb_exists. exists c'. split; [done|]. by apply String.eqb_eq.
Qed.

(** The loop only ever extends the first comment group of the field, with
    lines of the incoming groups. *)
Lemma unionComments_shape groups : ∀ existing grp others,
  ast.Comments existing = grp :: others →
  ∃ extra,
    ast.Comments (unionComments existing groups)
    = ast.mkCommentGroup (ast.Doc grp) (ast.Line grp) (ast.Position grp)
                         (ast.List grp ++ extra) :: others
    ∧ ∀ c, In c extra → ∃ g, In g groups ∧ In c (ast.List g).
Proof.
  induction groups as [|g rest IH]; intros existing grp others Hc.
  - exists []. simpl. rewrite app_nil_r, Hc. split; [by destruct grp|done].
  - unfold unionComments in *. simpl.
    destruct (negb (commentAlreadyPresent existing g)).
    + destruct (IH (appendToFirstGroup existing (ast.List g))
                  (ast.mkCommentGroup (ast.Doc grp) (ast.Line grp) (ast.Position grp)
                     (ast.List grp ++ ast.List g)) others) as (extra & E & Hextra).
      { unfold appendToFirstGroup. by rewrite Hc. }
      exists (ast.List g ++ extra). simpl in E. rewrite E, <- app_assoc.
      split; [done|]. intros c [Hin|Hin]%in_app_or.
      * exists g. split; [by left|done].
      * destruct (Hextra c Hin) as (g' & ? & ?). exists g'. split; [by right|done].
    + destruct (IH existing grp others Hc) as (extra & E & Hextra).
      exists extra. split; [done|]. intros c Hin.
      destruct (Hextra c Hin) as (g' & ? & ?). exists g'. split; [by right|done].
Qed.

Lemma unionComments_keeps_texts groups existing grp others t :
  ast.Comments existing = grp :: others →
  In t (commentTexts existing) → In t (commentTexts (unionComments existing groups)).
Proof.
  intros Hc. destruct (unionComments_shape groups existing grp others Hc)
    as (extra & E & _).
  rewrite !In_commentTexts, E, Hc.
  intros (g & c & [<- | Hg] & Hin & <-).
  - eexists _, c. split; [by left|]. simpl. split; [|done].
    apply in_or_app. by left.
  - exists g, c. split; [by right|done].
Qed.

(** Every line of the incoming groups is on the field after the loop. *)
Lemma unionComments_covers groups : ∀ existing grp others g c,
  ast.Comments existing = grp :: others →
  In g groups → In c (ast.List g) →
  In (ast.Text c) (commentTexts (unionComments existing groups)).
Proof.
  induction groups as [|g0 rest IH]; intros existing grp others g c Hc Hg Hin; [done|].
  change (unionComments existing (g0 :: rest))
    with (unionComments
            (if negb (commentAlreadyPresent existing g0)
             then appendToFirstGroup existing (ast.List g0) else existing) rest).
  destruct (commentAlreadyPresent existing g0) eqn:Hp; simpl.
  - destruct Hg as [<- | Hg]; [|by eapply IH].
    eapply unionComments_keeps_texts; [done|].
    by apply (proj1 (commentAlreadyPresent_spec existing g0)).
  - assert (Hc' : ast.Comments (appendToFirstGroup existing (ast.List g0))
            = ast.mkCommentGroup (ast.Doc grp) (ast.Line grp) (ast.Position grp)
                (ast.List grp ++ ast.List g0) :: others).
    { unfold appendToFirstGroup. by rewrite Hc. }
    destruct Hg as [<- | Hg]; [|by eapply IH].
    eapply unionComments_keeps_texts; [done|].
    apply In_commentTexts. eexists _, c. rewrite Hc'. split; [by left|].
    simpl. split; [|done]. apply in_or_app. by right.
Qed.

(** What the merge does to the comments when both fields carry some: the
    first block of the existing field gains lines of the incoming blocks,
    every incoming line is on the field afterwards, and the block is moved
    above the field as soon as it holds a line. *)
Lemma mergeComments_union existing field grp others :
  ast.Comments existing = grp :: others → ast.Comments field ≠ [] →
  ∃ extra merged,
    ast.Comments (mergeComments existing field) = merged :: others
    ∧ ast.Text <$> ast.List merged = ast.Text <$> (ast.List grp ++ extra)
    ∧ (∀ c, In c extra → ∃ g, In g (ast.Comments field) ∧ In c (ast.List g))
    ∧ (∀ g c, In g (ast.Comments field) → In c (ast.List g) →
              In (ast.Text c) (commentTexts (mergeComments existing field)))
    ∧ (ast.List grp ++ extra ≠ [] →
       ast.Position merged = 0%Z
       ∧ ∃ c lines, ast.List merged = c :: lines ∧ ast.Slash c = RelPos_Pos NewSection).
Proof.
  intros Hc Hf.
  destruct (unionComments_shape (ast.Comments field) existing grp others Hc)
    as (extra & E & Hextra).
  assert (Hcover := fun g c => unionComments_covers (ast.Comments field)
                                 existing grp others g c Hc).
  unfold mergeComments.
  destruct (ast.Comments field) as [|g0 rest] eqn:Hfield; [done|].
  rewrite Hc. simpl length. cbv iota beta.
  change (0 <? S (length rest)) with true. change (S (length others) =? 0) with false.
  cbv iota.
  set (u := unionComments existing (g0 :: rest)) in *.
  unfold repositionFirstGroup. rewrite E. simpl ast.List.
  destruct (ast.List grp ++ extra) as [|first lines] eqn:Hlines.
  - exists extra, (ast.mkCommentGroup (ast.Doc grp) (ast.Line grp) (ast.Position grp) []).
    rewrite E, Hlines. repeat split; auto; done.
  - exists extra, (ast.mkCommentGroup (ast.Doc grp) (ast.Line grp) 0
                     (ast.mkComment (RelPos_Pos NewSection) (ast.Text first) :: lines)).
    rewrite Hlines.
    split; [reflexivity|]. split; [reflexivity|]. split; [done|].
    split; [|intros _; split; [reflexivity|eauto]].
    intros g c Hg Hin. specialize (Hcover g c Hg Hin).
    apply In_commentTexts in Hcover as (g' & c' & Hg' & Hc' & Heq).
    apply In_commentTexts. rewrite E in Hg'. cbn [ast.Comments ast.SetComments].
    destruct Hg' as [<- | Hg'].
    + cbn [ast.List] in Hc'. destruct Hc' as [<- | Hc'].
      * eexists _, _. split; [by left|]. cbn [ast.List]. split; [by left|done].
      * eexists _, c'. split; [by left|]. cbn [ast.List]. split; [by right|done].
    + exists g', c'. split; [by right|done].
Qed.

(** C4, the merge at a comment block of one line: when the incoming field
    carries the very comment line of the existing field, the line is
    already present and nothing is appended, so the union is a block of
    one line; the block is moved above the field all the same. *)
Theorem one_line_block_is_repositioned
    (label value : ast.Expr) (optional slash : Pos) (doc line : bool)
    (position : Z) (text : string) :
  let block := ast.mkCommentGroup doc line position [ast.mkComment slash text] in
  let existing := ast.mkField label optional value [block] in
  commentAlreadyPresent existing block = true
  ∧ mergeComments existing existing
    = ast.mkField label optional value
        [ast.mkCommentGroup doc line 0 [ast.mkComment (RelPos_Pos NewSection) text]]
  ∧ length (commentTexts (mergeComments existing existing)) = 1.
Proof.
  assert (Hp : commentAlreadyPresent
                 (ast.mkField label optional value
                    [ast.mkCommentGroup doc line position [ast.mkComment slash text]])
                 (ast.mkCommentGroup doc line position [ast.mkComment slash text])
               = true).
  { unfold commentAlreadyPresent. simpl. by rewrite String.eqb_refl. }
  simpl. split; [done|].
  unfold mergeComments, unionComments. simpl fold_left. rewrite Hp. simpl. done.
Qed.

(** The parts of a merge that a field with an equal value cannot change:
    the size of the table, the lookup, and the label, optional mark and
    value of the field; without a comment on the incoming field the
    service stays as it was. *)
Lemma registerField_same_value field s name ptr existing :
  LabelName (ast.Label field) = inl name →
  fieldLookup s !! name = Some ptr → topLevelFields s !! ptr = Some existing →
  DeepEqual (ast.Value existing) (ast.Value field) = true →
  ∃ s' merged,
    registerField field s = Ok s'
    ∧ length (topLevelFields s') = length (topLevelFields s)
    ∧ fieldLookup s' = fieldLookup s
    ∧ topLevelFields s' = <[ptr := merged]> (topLevelFields s)
    ∧ ast.Label merged = ast.Label existing
    ∧ ast.Optional merged = ast.Optional existing
    ∧ ast.Value merged = ast.Value existing
    ∧ (ast.Comments field = [] → s' = s).
Proof.
  intros Hname Hptr Hexisting Heq.
  rewrite (registerField_found _ _ _ _ _ Hname Hptr Hexisting).
  eexists _, (mergedField existing field). split; [done|]. simpl.
  destruct (mergedField_keeps existing field) as (Hl & Ho & Hv). rewrite Heq in Hv.
  rewrite length_insert. repeat split; try done.
  intros Hnone. unfold mergedField. rewrite (mergeComments_no_comment _ _ Hnone).
  apply DeepEqual_eq in Heq. rewrite (mergeValues_same _ _ Heq).
  rewrite list_insert_id by done. apply set_topLevelFields_id.
Qed.

(** ** The counting pass *)

Local Arguments GetConcreteType : simpl never.

Lemma Walk_fields_visits {St} (visit : schema.Node → St → St) n decls
    (visitor := fun node acc => Ok (visit node acc)) :
  (∀ typ acc acc',
     Walk n decls typ visitor acc = Ok acc' →
     ∃ nodes, walkNodes n decls typ = Ok nodes
              ∧ acc' = fold_left (fun a node => visit node a) nodes acc) →
  ∀ fields acc acc' seen,
    foldM (fun f acc => Walk n decls (schema.Field_Typ f) visitor acc) fields acc = Ok acc' →
    ∃ nodes,
      foldM (fun f acc => nodes ← walkNodes n decls (schema.Field_Typ f); Ok (acc ++ nodes))
            fields seen = Ok (seen ++ nodes)
      ∧ acc' = fold_left (fun a node => visit node a) nodes acc.
Proof.
  intros IH fields. induction fields as [|f rest IHf]; intros acc acc' seen.
  - simpl. intros [= <-]. exists []. by rewrite app_nil_r.
  - rewrite !foldM_cons.
    destruct (Walk n decls (schema.Field_Typ f) visitor acc) as [acc1| | |] eqn:E;
      simpl; try done.
    destruct (IH _ _ _ E) as (nodes1 & -> & ->). simpl.
    intros (nodes2 & -> & ->)%(IHf _ _ (seen ++ nodes1)).
    exists (nodes1 ++ nodes2). by rewrite app_assoc, fold_left_app.
Qed.

(** The walk visits the nodes of [walkNodes], one after the other. *)
Lemma Walk_visits {St} (visit : schema.Node → St → St) fuel decls :
  ∀ typ acc acc',
    Walk fuel decls typ (fun node acc => Ok (visit node acc)) acc = Ok acc' →
    ∃ nodes, walkNodes fuel decls typ = Ok nodes
             ∧ acc' = fold_left (fun a node => visit node a) nodes acc.
Proof.
  induction fuel as [|n IH]; intros typ acc acc'; [done|].
  destruct typ as [named | fields | key value | elem | b | elem |]; simpl.
  - destruct (GetConcreteType decls (schema.Type_Named named)) as [c| | |]; simpl;
      try done.
    intros (nodes & -> & ->)%IH. simpl. eauto.
  - intros (nodes & E & ->)%(Walk_fields_visits visit n decls IH _ _ _ []).
    rewrite E. simpl. eauto.
  - destruct (Walk n decls key _ (visit schema.Node_other acc)) as [acc1| | |] eqn:E;
      simpl; try done.
    destruct (IH _ _ _ E) as (nodes1 & -> & ->). simpl.
    intros (nodes2 & -> & ->)%IH. simpl.
    exists (schema.Node_other :: nodes1 ++ nodes2). simpl. by rewrite fold_left_app.
  - intros (nodes & -> & ->)%IH. simpl. eauto.
  - intros [= <-]. eauto.
  - intros (nodes & -> & ->)%IH. simpl. eauto.
  - intros [= <-]. eauto.
Qed.

Lemma countNode_fold nodes : ∀ s,
  let s' := fold_left (fun a node => countNode node a) nodes s in
  (∀ named, Count (typeUsage s') named = Count (typeUsage s) named + references named nodes)
  ∧ topLevelFields s' = topLevelFields s ∧ fieldLookup s' = fieldLookup s
  ∧ Meta_Decls s' = Meta_Decls s ∧ file s' = file s ∧ svc_Name s' = svc_Name s
  ∧ (∀ path name, neededImports s' !! path = Some name →
       neededImports s !! path = Some name ∨ (path = "time" ∧ name = "time")).
Proof.
  unfold references.
  induction nodes as [|node rest IH]; intros s; simpl.
  - repeat split; auto.
  - destruct (IH (countNode node s)) as (Hc & -> & -> & -> & -> & -> & Hi).
    split; [|repeat split].
    + intros named. rewrite Hc, filter_cons.
      destruct node as [other|b|]; simpl.
      * rewrite Count_Inc. repeat case_decide; simplify_eq; simpl; lia.
      * by destruct b.
      * done.
    + by destruct node as [other|b|]; [| destruct b|].
    + by destruct node as [other|b|]; [| destruct b|].
    + by destruct node as [other|b|]; [| destruct b|].
    + by destruct node as [other|b|]; [| destruct b|].
    + by destruct node as [other|b|]; [| destruct b|].
    + intros path name [H | H]%Hi; [|by right].
      destruct node as [other|b|]; [by left| |by left].
      destruct b; try by left. simpl in H.
      destruct (decide ("time" = path)) as [<-|Hne].
      * rewrite lookup_insert_eq in H. injection H as <-. by right.
      * rewrite lookup_insert_ne in H by done. by left.
Qed.

(** The count of a named type after the pass over one declared type is its
    count before plus the number of references to it that the walk of the
    type meets; the pass touches nothing but the counts and the imports,
    and the only import it ever records is that of [time], under its own
    name. *)
Lemma countNamedUsagesAndCollectImports_spec fuel s typ s' :
  countNamedUsagesAndCollectImports fuel s typ = Ok s' →
  ∃ nodes,
    walkNodes fuel (Meta_Decls s) typ = Ok nodes
    ∧ (∀ named, Count (typeUsage s') named
                = Count (typeUsage s) named + references named nodes)
    ∧ topLevelFields s' = topLevelFields s ∧ fieldLookup s' = fieldLookup s
    ∧ Meta_Decls s' = Meta_Decls s ∧ file s' = file s
    ∧ (∀ path name, neededImports s' !! path = Some name →
         neededImports s !! path = Some name ∨ (path = "time" ∧ name = "time")).
Proof.
  unfold countNamedUsagesAndCollectImports.
  unfold countVisitor. intros (nodes & Hnodes & ->)%Walk_visits.
  exists nodes. split; [done|].
  destruct (countNode_fold nodes s) as (Hc & Ht & Hl & Hd & Hf & _ & Hi).
  repeat split; done.
Qed.

(** ** The whole pass *)

Lemma foldM_preserves {A St B} (body : A → St → result St) (proj : St → B) :
  (∀ x s s', body x s = Ok s' → proj s' = proj s) →
  ∀ l s s', foldM body l s = Ok s' → proj s' = proj s.
Proof.
  intros Hbody l. induction l as [|x rest IH]; intros s s'.
  - simpl. by intros [= <-].
  - rewrite foldM_cons. destruct (body x s) as [s1| | |] eqn:E; simpl; try done.
    intros ->%IH. by eapply Hbody.
Qed.

Lemma registerField_frame field s s' :
  registerField field s = Ok s' → countingState s' = countingState s.
Proof.
  unfold registerField.
  destruct (LabelName (ast.Label field)) as [name|err]; simpl; try done.
  destruct (fieldLookup s !! name) as [ptr|].
  - destruct (topLevelFields s !! ptr); [|done]. by intros [= <-].
  - by intros [= <-].
Qed.

Lemma registerTopLevelField_frame fuel s typ s' :
  registerTopLevelField fuel s typ = Ok s' → countingState s' = countingState s.
Proof.
  unfold registerTopLevelField.
  destruct (GetConcreteStructType (Meta_Decls s) typ) as [concrete| | |]; simpl;
    try done.
  destruct (structToFields fuel s concrete) as [fields| | |]; simpl; try done.
  apply foldM_preserves. intros field. apply registerField_frame.
Qed.

Lemma registerTopLevelField_wf fuel s typ s' :
  lookup_wf s → registerTopLevelField fuel s typ = Ok s' → lookup_wf s'.
Proof.
  unfold registerTopLevelField. intros Hwf.
  destruct (GetConcreteStructType (Meta_Decls s) typ) as [concrete| | |]; simpl;
    try done.
  destruct (structToFields fuel s concrete) as [fields| | |]; simpl; try done.
  clear concrete. revert s Hwf.
  induction fields as [|field rest IH]; intros s Hwf.
  - simpl. by intros [= <-].
  - rewrite foldM_cons. destruct (registerField field s) as [s1| | |] eqn:E; simpl;
      try done.
    apply IH. by eapply registerField_wf.
Qed.

Lemma foldM_registerTopLevelField_wf fuel roots : ∀ s s',
  lookup_wf s →
  foldM (fun typ s => registerTopLevelField fuel s typ) roots s = Ok s' → lookup_wf s'.
Proof.
  induction roots as [|typ rest IH]; intros s s' Hwf.
  - simpl. by intros [= <-].
  - rewrite foldM_cons.
    destruct (registerTopLevelField fuel s typ) as [s1| | |] eqn:E; simpl; try done.
    apply IH. by eapply registerTopLevelField_wf.
Qed.

Lemma countNamedUsagesAndCollectImports_frame fuel s typ s' :
  countNamedUsagesAndCollectImports fuel s typ = Ok s' →
  mergingState s' = mergingState s.
Proof.
  unfold countNamedUsagesAndCollectImports, countVisitor.
  intros (nodes & _ & ->)%Walk_visits.
  destruct (countNode_fold nodes s) as (_ & Ht & Hl & Hd & Hf & Hn & _).
  unfold mergingState. by rewrite Ht, Hl, Hd, Hf, Hn.
Qed.

Lemma references_app named nodes1 nodes2 :
  references named (nodes1 ++ nodes2)
  = references named nodes1 + references named nodes2.
Proof. unfold references. by rewrite filter_app, length_app. Qed.

(** After the counting pass over all the declarations of a service, the
    count of a named type is the number of references to it that the walks
    meet, all declarations together. *)
Lemma counting_pass_counts_references fuel roots : ∀ s s' seen,
  foldM (fun typ s => countNamedUsagesAndCollectImports fuel s typ) roots s = Ok s' →
  ∃ nodes,
    foldM (fun typ acc => nodes ← walkNodes fuel (Meta_Decls s) typ; Ok (acc ++ nodes))
          roots seen = Ok (seen ++ nodes)
    ∧ (∀ named, Count (typeUsage s') named
                = Count (typeUsage s) named + references named nodes)
    ∧ mergingState s' = mergingState s.
Proof.
  induction roots as [|typ rest IH]; intros s s' seen.
  - simpl. intros [= <-]. exists []. rewrite app_nil_r. repeat split.
    intros named. unfold references. simpl. lia.
  - rewrite !foldM_cons.
    destruct (countNamedUsagesAndCollectImports fuel s typ) as [s1| | |] eqn:E; simpl;
      try done.
    assert (Hframe := countNamedUsagesAndCollectImports_frame _ _ _ _ E).
    apply countNamedUsagesAndCollectImports_spec in E
      as (nodes1 & -> & Hc1 & _ & _ & Hd & _).
    simpl. intros (nodes2 & E2 & Hc2 & Hframe2)%(IH _ _ (seen ++ nodes1)).
    rewrite Hd in E2. exists (nodes1 ++ nodes2). rewrite app_assoc.
    split; [done|]. split; [|by rewrite Hframe2].
    intros named. rewrite Hc2, Hc1, references_app. lia.
Qed.

(** The counting pass records no import but that of [time], under its own
    name. *)
Lemma counting_pass_imports fuel roots : ∀ s s',
  foldM (fun typ s => countNamedUsagesAndCollectImports fuel s typ) roots s = Ok s' →
  ∀ path name, neededImports s' !! path = Some name →
    neededImports s !! path = Some name ∨ (path = "time" ∧ name = "time").
Proof.
  induction roots as [|typ rest IH]; intros s s'.
  - simpl. intros [= <-]. auto.
  - rewrite foldM_cons.
    destruct (countNamedUsagesAndCollectImports fuel s typ) as [s1| | |] eqn:E; simpl;
      try done.
    apply countNamedUsagesAndCollectImports_spec in E as (_ & _ & _ & _ & _ & _ & _ & Hi).
    intros Hrest path name [H | H]%(IH _ _ Hrest); auto.
Qed.

(** The three steps of a pass that succeeds, and what they share: the
    declarations, and the usage table that the counting pass has built
    before the first field is translated. *)
Lemma generate_spec fuel name decls roots s' :
  generate fuel name decls roots = Ok s' →
  ∃ nodes counted registered,
    walkAll fuel decls roots = Ok nodes
    ∧ foldM (fun typ s => countNamedUsagesAndCollectImports fuel s typ) roots
            (newService name decls) = Ok counted
    ∧ foldM (fun typ s => registerTopLevelField fuel s typ) roots counted = Ok registered
    ∧ generateCue fuel registered = Ok s'
    ∧ countingState registered = countingState counted
    ∧ Meta_Decls registered = decls
    ∧ file registered = ast.mkFile [] [] []
    ∧ (∀ path name, neededImports registered !! path = Some name →
                    path = "time" ∧ name = "time")
    ∧ lookup_wf registered
    ∧ ∀ named, Count (typeUsage registered) named = references named nodes.
Proof.
  unfold generate, walkAll.
  destruct (foldM _ roots (newService name decls)) as [counted| | |] eqn:Ec; simpl;
    try done.
  destruct (foldM _ roots counted) as [registered| | |] eqn:Er; simpl; try done.
  intros Hg.
  destruct (counting_pass_counts_references fuel roots _ _ [] Ec)
    as (nodes & Hnodes & Hc & Hframe).
  assert (Hreg : countingState registered = countingState counted).
  { revert Er. apply foldM_preserves. intros typ s0 s1.
    apply registerTopLevelField_frame. }
  assert (Hwf : lookup_wf registered).
  { apply (foldM_registerTopLevelField_wf fuel roots counted); [|done].
    intros n ptr. injection Hframe as _ _ _ _ Hl. rewrite Hl. simpl.
    by rewrite lookup_empty. }
  exists nodes, counted, registered. simpl in Hnodes.
  assert (Hreg' := Hreg). injection Hreg' as _ Hd Hf Hi Hu.
  injection Hframe as _ Hd' Hf' _ _.
  assert (Himports : ∀ path name, neededImports registered !! path = Some name →
                                  path = "time" ∧ name = "time").
  { intros path alias. rewrite Hi.
    intros [H | H]%(counting_pass_imports _ _ _ _ Ec); [|done].
    simpl in H. by rewrite lookup_empty in H. }
  split; [done|]. split; [done|]. split; [done|]. split; [done|]. split; [done|].
  split; [by rewrite Hd, Hd'|]. split; [by rewrite Hf, Hf'|].
  split; [exact Himports|]. split; [done|].
  intros named. rewrite Hu, Hc. unfold Count at 1. simpl. by rewrite lookup_empty.
Qed.


(** A malformed annotation anywhere in a declaration fails the whole
    pass. *)
Lemma generate_fails_on_malformed_annotation
    fuel name decls roots root fields f tag err :
  root ∈ roots → GetConcreteStructType decls root = Ok fields →
  f ∈ fields → tag ∈ schema.Field_Tags f →
  schema.Key tag = "cue" → schema.Name tag ≠ "" →
  ParseExpr (schema.Name tag) = inr err →
  ¬ succeeded (generate fuel name decls roots).
Proof.
  intros Hroot Hres Hf Htag Hkey Hname Hparse [s' E].
  unfold generate in E.
  destruct (foldM _ roots (newService name decls)) as [counted| | |] eqn:Ec;
    simpl in E; try done.
  destruct (foldM _ roots counted) as [registered| | |] eqn:Er; simpl in E; try done.
  clear E.
  assert (Hd : Meta_Decls counted = decls).
  { destruct (counting_pass_counts_references fuel roots _ _ [] Ec) as (_ & _ & _ & H).
    by injection H as _ -> _ _ _. }
  clear Ec. revert counted Hd Er.
  induction roots as [|typ rest IH]; intros s Hd; [by apply elem_of_nil in Hroot|].
  rewrite foldM_cons.
  destruct (registerTopLevelField fuel s typ) as [s1| | |] eqn:E; simpl; try done.
  apply elem_of_cons in Hroot as [<- | Hroot].
  - exfalso. revert E. unfold registerTopLevelField. rewrite Hd, Hres. simpl.
    destruct (structToField_parse_error (toCueType fuel s) f tag err Htag Hkey Hname
                Hparse) as [Hnot _].
    destruct (structToFields fuel s fields) as [out| | |] eqn:E1; simpl; try done.
    exfalso. eapply structToFieldsWith_not_ok; [exact Hf|exact Hnot|]. by eexists.
  - apply IH; [done|].
    apply registerTopLevelField_frame in E. injection E as _ -> _ _ _. done.
Qed.

(** A service without declarations: the pass leaves the fresh service. *)
Lemma generate_no_declarations fuel name decls :
  generate fuel name decls [] = Ok (newService name decls).
Proof. done. Qed.

(** ** The pass returns on an acyclic schema *)

Lemma foldM_returns {A St} (body : A → St → result St) l :
  (∀ x acc, body x acc ≠ OutOfFuel) → ∀ acc, foldM body l acc ≠ OutOfFuel.
Proof.
  intros Hbody. induction l as [|x rest IH]; intros acc; [done|].
  rewrite foldM_cons. specialize (Hbody x acc).
  destruct (body x acc); simpl; auto.
Qed.

Lemma registerField_returns field s : registerField field s ≠ OutOfFuel.
Proof.
  unfold registerField.
  destruct (LabelName (ast.Label field)) as [name|err]; simpl; [|done].
  destruct (fieldLookup s !! name) as [ptr|]; [|done].
  by destruct (topLevelFields s !! ptr).
Qed.

(** The registration of a declaration returns, given enough fuel. *)
Lemma registerTopLevelField_returns rank s typ :
  acyclic (Meta_Decls s) rank →
  ∃ fuel, ∀ fuel', fuel ≤ fuel' → registerTopLevelField fuel' s typ ≠ OutOfFuel.
Proof.
  intros Hacyclic. unfold registerTopLevelField.
  destruct (GetConcreteStructType (Meta_Decls s) typ) as [fields| | |] eqn:E;
    simpl; try (by exists 0).
  - destruct (toCueType_returns rank s (schema.Type_Struct fields) Hacyclic)
      as [fuel Hfuel].
    exists fuel. intros fuel' Hle.
    assert (H := Hfuel (S fuel') ltac:(lia)). simpl in H. unfold structToFields.
    destruct (structToFieldsWith (toCueType fuel' s) fields); simpl; try done.
    apply foldM_returns. intros field acc. apply registerField_returns.
  - unfold GetConcreteStructType in E.
    destruct (GetConcreteType (Meta_Decls s) typ) as [c| | |] eqn:Ec; simpl in E;
      try done.
    + by destruct c.
    + unfold GetConcreteType in Ec. destruct typ; try done.
      by destruct (Meta_Decls s !! N.to_nat Id).
Qed.

(** The assembly of the document returns, given enough fuel. *)
Lemma generateCue_returns rank s :
  acyclic (Meta_Decls s) rank →
  ∃ fuel, ∀ fuel', fuel ≤ fuel' → generateCue fuel' s ≠ OutOfFuel.
Proof.
  intros Hacyclic.
  set (all := concat ((fun decl => mentions (schema.Decl_Type decl)) <$> Meta_Decls s)).
  exists (maxBodySize (Meta_Decls s)
          + S (maxRank rank all) * S (maxBodySize (Meta_Decls s))).
  intros fuel' Hfuel. unfold generateCue.
  destruct (length (topLevelFields s) =? 0); [done|].
  match goal with |- context [foldM ?body ?l ?acc] =>
    assert (H : foldM body l acc ≠ OutOfFuel) end.
  { apply foldM_returns. intros named f. rewrite hoistDefinition_spec.
    unfold definitionOf.
    destruct (Meta_Decls s !! N.to_nat named) as [decl|] eqn:Hdecl; [|done].
    assert (Hbody : toCueType fuel' s (schema.Decl_Type decl) ≠ OutOfFuel).
    { apply (toCueType_returns_within rank s Hacyclic (S (maxRank rank all))
               (maxBodySize (Meta_Decls s))); [by eapply maxBodySize_ge| |done].
      intros id Hid. assert (Hin : id ∈ all).
      { unfold all. apply list_elem_of_In, in_concat.
        exists (mentions (schema.Decl_Type decl)). split.
        - apply list_elem_of_In, list_elem_of_fmap. exists decl. split; [done|].
          by eapply list_elem_of_lookup_2.
        - by apply list_elem_of_In. }
      pose proof (maxRank_ge rank _ _ Hin). lia. }
    by destruct (toCueType fuel' s (schema.Decl_Type decl)). }
  match goal with |- context [foldM ?body ?l ?acc] =>
    destruct (foldM body l acc) end; done.
Qed.

(** ** The document of a pass *)

(** ** The threshold between inlining and hoisting *)

Lemma definitionOf_definesIdent fuel s other named def :
  definitionOf fuel s other = Ok def →
  definesIdent named def = String.eqb (cueName other) (cueName named).
Proof.
  unfold definitionOf, definesIdent.
  destruct (Meta_Decls s !! N.to_nat other) as [decl|]; [|done].
  destruct (toCueType fuel s (schema.Decl_Type decl)) as [v| | |]; simpl; try done.
  by destruct (negb (String.eqb (schema.Decl_Doc decl) "")); intros [= <-].
Qed.

(** Among the definitions emitted for [names], the number of those that
    define the identifier of [named]. *)
Lemma definitions_of_ident fuel s named names defs :
  Forall2 (fun other def => definitionOf fuel s other = Ok def) names defs →
  NoDup names →
  (∀ other, other ∈ names → cueName other = cueName named → other = named) →
  length (filter (fun def => definesIdent named def = true) defs)
  = if decide (named ∈ names) then 1 else 0.
Proof.
  induction 1 as [|other def names defs Hdef Hrest IH]; intros Hnd Hinj; [done|].
  apply NoDup_cons in Hnd as [Hnotin Hnd].
  rewrite filter_cons, (definitionOf_definesIdent _ _ _ named _ Hdef).
  assert (Htail : ∀ o, o ∈ names → cueName o = cueName named → o = named)
    by (intros; apply Hinj; [by right|done]).
  destruct (String.eqb (cueName other) (cueName named)) eqn:Heq.
  - rewrite decide_True by done. simpl length. rewrite IH by done.
    apply String.eqb_eq in Heq.
    assert (other = named) as -> by (apply Hinj; [by left|done]).
    rewrite decide_False by done. rewrite decide_True by by left. done.
  - rewrite decide_False by done. rewrite IH by done.
    assert (other ≠ named) by (intros ->; by rewrite String.eqb_refl in Heq).
    destruct (decide (named ∈ names)).
    + rewrite decide_True by by right. done.
    + rewrite decide_False; [done|]. by intros [->|?]%elem_of_cons.
Qed.

(** ** Further properties of the registration of fields *)

Lemma foldM_invariant {A St} (body : A → St → result St) (P : St → Prop) :
  (∀ x s s', P s → body x s = Ok s' → P s') →
  ∀ l s s', P s → foldM body l s = Ok s' → P s'.
Proof.
  intros Hstep l. induction l as [|x l IH]; intros s s' HP E.
  - injection E as <-. exact HP.
  - rewrite foldM_cons in E. destruct (body x s) as [s1| | |] eqn:E1; try done.
    simpl in E. exact (IH s1 s' (Hstep x s s1 HP E1) E).
Qed.

Lemma foldM_relation {A St} (body : A → St → result St) (R : St → St → Prop) :
  (∀ s, R s s) → (∀ s1 s2 s3, R s1 s2 → R s2 s3 → R s1 s3) →
  (∀ x s s', body x s = Ok s' → R s s') →
  ∀ l s s', foldM body l s = Ok s' → R s s'.
Proof.
  intros Hrefl Htrans Hstep l. induction l as [|x l IH]; intros s s' E.
  - injection E as <-. apply Hrefl.
  - rewrite foldM_cons in E. destruct (body x s) as [s1| | |] eqn:E1; try done.
    simpl in E. exact (Htrans s s1 s' (Hstep x s s1 E1) (IH s1 s' E)).
Qed.

Lemma table_inv_empty s :
  topLevelFields s = [] → fieldLookup s = ∅ → table_inv s.
Proof.
  intros Hfields Hlookup. unfold table_inv. rewrite Hfields, Hlookup. split.
  - intros i f Hf. by rewrite lookup_nil in Hf.
  - intros n i. rewrite lookup_empty. split; [done|].
    intros (f & Hf & _). by rewrite lookup_nil in Hf.
Qed.

Lemma registerField_table_inv field s s' :
  table_inv s → registerField field s = Ok s' → table_inv s'.
Proof.
  intros [Hnamed Hinv] E. unfold registerField in E.
  destruct (LabelName (ast.Label field)) as [name|err] eqn:Hname; simpl in E; [|done].
  destruct (fieldLookup s !! name) as [ptr|] eqn:Hl.
  - destruct (topLevelFields s !! ptr) as [existing|] eqn:He; [|done].
    injection E as <-.
    destruct (mergedField_keeps existing field) as (Hlabel & _ & _).
    fold (mergedField existing field). unfold table_inv. simpl.
    assert (Hptr : ptr < length (topLevelFields s)) by (by eapply lookup_lt_Some).
    assert (Hat : ∀ i n,
      (∃ f, <[ptr := mergedField existing field]> (topLevelFields s) !! i = Some f
            ∧ LabelName (ast.Label f) = inl n)
      ↔ ∃ f, topLevelFields s !! i = Some f ∧ LabelName (ast.Label f) = inl n).
    { intros i n. destruct (decide (ptr = i)) as [<-|Hne].
      - rewrite list_lookup_insert_eq by done. rewrite He. split.
        + intros (f & [= <-] & Hf). exists existing. by rewrite <- Hlabel.
        + intros (f & [= <-] & Hf). eexists. split; [done|]. by rewrite Hlabel.
      - by rewrite list_lookup_insert_ne. }
    split.
    + intros i f Hf. destruct (decide (ptr = i)) as [<-|Hne].
      * rewrite list_lookup_insert_eq in Hf by done. injection Hf as <-.
        rewrite Hlabel. by eapply Hnamed.
      * rewrite list_lookup_insert_ne in Hf by done. by eapply Hnamed.
    + intros n i. rewrite Hat. apply Hinv.
  - injection E as <-. unfold table_inv. simpl. split.
    + intros i f [Hf | [_ Hf]]%lookup_app_Some; [by eapply Hnamed|].
      destruct (i - length (topLevelFields s)) as [|k]; simpl in Hf; [|done].
      injection Hf as <-. by exists name.
    + intros n i. destruct (decide (n = name)) as [->|Hne].
      * rewrite lookup_insert_eq. split.
        -- intros [= <-]. exists field. split; [|done].
           rewrite lookup_app_r by lia. by rewrite Nat.sub_diag.
        -- intros (f & Hf & Hn). f_equal.
           apply lookup_app_Some in Hf as [Hf | [Hle Hf]].
           ++ assert (fieldLookup s !! name = Some i) as Hsome
                by (apply Hinv; by exists f).
              congruence.
           ++ destruct (i - length (topLevelFields s)) as [|k] eqn:Hk; simpl in Hf;
                [lia | done].
      * rewrite lookup_insert_ne by done. rewrite Hinv. split.
        -- intros (f & Hf & Hn). exists f. split; [|done]. by apply lookup_app_l_Some.
        -- intros (f & Hf & Hn). exists f. split; [|done].
           apply lookup_app_Some in Hf as [Hf | [Hle Hf]]; [done|].
           destruct (i - length (topLevelFields s)) as [|k]; simpl in Hf; [|done].
           injection Hf as <-. congruence.
Qed.

Lemma registerTopLevelField_table_inv fuel s typ s' :
  table_inv s → registerTopLevelField fuel s typ = Ok s' → table_inv s'.
Proof.
  intros Hinv E. unfold registerTopLevelField in E.
  destruct (GetConcreteStructType (Meta_Decls s) typ) as [concrete| | |]; try done.
  simpl in E. destruct (structToFields fuel s concrete) as [fields| | |]; try done.
  simpl in E. revert E. revert Hinv. apply foldM_invariant.
  intros field s0 s1. apply registerField_table_inv.
Qed.

(** X1: the table of top-level fields never holds two fields with the
    same label.  Whatever declarations are registered, in a table that
    agrees with its lookup, the table and the lookup still agree
    afterwards, and two entries of the table with the same label name are
    one and the same entry. *)
Theorem one_field_per_label
    (fuel : nat) (roots : list schema.Type_) (s s' : service) :
  table_inv s →
  foldM (fun typ s => registerTopLevelField fuel s typ) roots s = Ok s' →
  table_inv s'
  ∧ ∀ i j f g name,
      topLevelFields s' !! i = Some f → topLevelFields s' !! j = Some g →
      LabelName (ast.Label f) = inl name → LabelName (ast.Label g) = inl name →
      i = j.
Proof.
  intros Hinv E.
  assert (Hinv' : table_inv s').
  { revert E. revert Hinv. apply foldM_invariant.
    intros typ s0 s1. apply registerTopLevelField_table_inv. }
  split; [exact Hinv'|].
  intros i j f g name Hf Hg Hnf Hng. destruct Hinv' as [_ Hinv'].
  assert (fieldLookup s' !! name = Some i) as Hi by (apply Hinv'; by exists f).
  assert (fieldLookup s' !! name = Some j) as Hj by (apply Hinv'; by exists g).
  congruence.
Qed.

Lemma keepsFields_refl s : keepsFields s s.
Proof. split; [done|]. intros i f Hf. by exists f. Qed.

Lemma keepsFields_trans s1 s2 s3 :
  keepsFields s1 s2 → keepsFields s2 s3 → keepsFields s1 s3.
Proof.
  intros [Hl1 Hf1] [Hl2 Hf2]. split.
  - intros name ptr H. by apply Hl2, Hl1.
  - intros i f Hf. destruct (Hf1 i f Hf) as (f' & Hf' & Hlab & Hopt).
    destruct (Hf2 i f' Hf') as (f'' & Hf'' & Hlab' & Hopt').
    exists f''. split; [done|]. split; congruence.
Qed.

Lemma registerField_keepsFields field s s' :
  registerField field s = Ok s' → keepsFields s s'.
Proof.
  intros E. unfold registerField in E.
  destruct (LabelName (ast.Label field)) as [name|err] eqn:Hname; simpl in E; [|done].
  destruct (fieldLookup s !! name) as [ptr|] eqn:Hl.
  - destruct (topLevelFields s !! ptr) as [existing|] eqn:He; [|done].
    injection E as <-. fold (mergedField existing field).
    destruct (mergedField_keeps existing field) as (Hlabel & Hopt & _).
    split; [done|]. simpl. intros i f Hf.
    destruct (decide (ptr = i)) as [<-|Hne].
    + rewrite list_lookup_insert_eq by (by eapply lookup_lt_Some).
      eexists. split; [done|]. split; congruence.
    + rewrite list_lookup_insert_ne by done. by exists f.
  - injection E as <-. split; simpl.
    + intros n ptr Hn. rewrite lookup_insert_ne; [done|]. congruence.
    + intros i f Hf. exists f. split; [|done]. by apply lookup_app_l_Some.
Qed.

(** X2: registering a declaration never removes, moves or renames a field
    that is already in the table, and never changes its optional mark:
    every entry of the lookup still points at the same index, and the field
    at every index of the table has its label and its optional position
    unchanged; the table can only grow. *)
Theorem registration_keeps_earlier_fields
    (fuel : nat) (s : service) (typ : schema.Type_) (s' : service) :
  registerTopLevelField fuel s typ = Ok s' →
  keepsFields s s'
  ∧ length (topLevelFields s) ≤ length (topLevelFields s')
  ∧ ast.Label <$> take (length (topLevelFields s)) (topLevelFields s')
    = ast.Label <$> topLevelFields s.
Proof.
  intros E.
  assert (Hkeeps : keepsFields s s').
  { unfold registerTopLevelField in E.
    destruct (GetConcreteStructType (Meta_Decls s) typ) as [concrete| | |]; try done.
    simpl in E. destruct (structToFields fuel s concrete) as [fields| | |]; try done.
    simpl in E. revert E.
    apply (foldM_relation registerField keepsFields);
      [apply keepsFields_refl | apply keepsFields_trans |].
    intros field s0 s1. apply registerField_keepsFields. }
  split; [exact Hkeeps|]. destruct Hkeeps as [_ Hfields].
  assert (Hlen : length (topLevelFields s) ≤ length (topLevelFields s')).
  { destruct (length (topLevelFields s)) as [|n] eqn:El; [lia|].
    destruct (lookup_lt_is_Some_2 (topLevelFields s) n) as [f Hf]; [lia|].
    destruct (Hfields n f Hf) as (f' & Hf' & _). apply lookup_lt_Some in Hf'. lia. }
  split; [exact Hlen|].
  apply list_eq. intros i. rewrite !list_lookup_fmap.
  destruct (topLevelFields s !! i) as [f|] eqn:Hf.
  - destruct (Hfields i f Hf) as (f' & Hf' & Hlab & _).
    rewrite lookup_take_lt by (by eapply lookup_lt_Some).
    rewrite Hf'. simpl. by rewrite Hlab.
  - apply lookup_ge_None in Hf. rewrite lookup_take_ge by lia. done.
Qed.

Lemma structToFieldsWith_ext tr1 tr2 fields :
  (∀ t, tr1 t = tr2 t) → structToFieldsWith tr1 fields = structToFieldsWith tr2 fields.
Proof.
  intros Hext. induction fields as [|f rest IH]; [done|].
  simpl. unfold structToField. by rewrite Hext, IH.
Qed.

Lemma toCueType_ext s s' :
  typeUsage s' = typeUsage s → Meta_Decls s' = Meta_Decls s →
  ∀ fuel typ, toCueType fuel s' typ = toCueType fuel s typ.
Proof.
  intros Husage Hdecls fuel. induction fuel as [|n IH]; intros typ; [done|].
  destruct typ; simpl; rewrite ?Husage, ?Hdecls, ?IH; try done.
  - destruct (_ <=? 1); [|done]. destruct (GetConcreteType _ _); simpl; by rewrite ?IH.
  - by rewrite (structToFieldsWith_ext _ _ _ IH).
Qed.

(** X3: registering a declaration does not change how any type is
    translated.  The translation reads the usage counts and the registry
    only, and the registration writes the table of fields and its lookup
    only: the identifier table, the imports and the file are the same
    before and after, and so is the outcome of translating any type. *)
Theorem registration_does_not_change_translation
    (fuel : nat) (s : service) (typ : schema.Type_) (s' : service) :
  registerTopLevelField fuel s typ = Ok s' →
  typeUsage s' = typeUsage s ∧ neededImports s' = neededImports s
  ∧ file s' = file s ∧ Meta_Decls s' = Meta_Decls s
  ∧ (∀ fuel' t, toCueType fuel' s' t = toCueType fuel' s t)
  ∧ (∀ fuel' stru, structToFields fuel' s' stru = structToFields fuel' s stru).
Proof.
  intros E. apply registerTopLevelField_frame in E.
  unfold countingState in E. injection E as Hname Hdecls Hfile Himports Husage.
  repeat split; try done.
  - by apply toCueType_ext.
  - intros fuel' stru. unfold structToFields.
    apply structToFieldsWith_ext. intros t. by apply toCueType_ext.
Qed.


(** ** Further properties of the construction of fields *)

Lemma jsonNames_cons tag tags :
  jsonNames (tag :: tags)
  = if String.eqb (schema.Key tag) "json" && negb (String.eqb (schema.Name tag) "")
    then schema.Name tag :: jsonNames tags else jsonNames tags.
Proof.
  unfold jsonNames. rewrite filter_cons.
  destruct (String.eqb_spec (schema.Key tag) "json"),
           (String.eqb_spec (schema.Name tag) ""); simpl;
    [rewrite decide_False by (intros [? ?]; congruence) | rewrite decide_True by done
    | rewrite decide_False by (intros [? ?]; congruence) | rewrite decide_False by (intros [? ?]; congruence)];
    done.
Qed.

Lemma annotations_cons tag tags :
  annotations (tag :: tags)
  = if String.eqb (schema.Key tag) "cue" && negb (String.eqb (schema.Name tag) "")
    then schema.Name tag :: annotations tags else annotations tags.
Proof.
  unfold annotations. rewrite filter_cons.
  destruct (String.eqb_spec (schema.Key tag) "cue"),
           (String.eqb_spec (schema.Name tag) ""); simpl;
    [rewrite decide_False by (intros [? ?]; congruence) | rewrite decide_True by done
    | rewrite decide_False by (intros [? ?]; congruence) | rewrite decide_False by (intros [? ?]; congruence)];
    done.
Qed.

Lemma marksOptional_other_key tag :
  String.eqb (schema.Key tag) "json" = false →
  String.eqb (schema.Key tag) "cue" = false → marksOptional tag = false.
Proof. unfold marksOptional. by intros -> ->. Qed.

(** The loop over the tags of a field, in closed form. *)
Lemma foldM_applyTag_closed tags : ∀ field isOptional,
  foldM applyTag tags (field, isOptional)
  = exprs ← returned (parseAll (annotations tags));
    Ok (ast.mkField
          (from_option ast.NewIdent (ast.Label field) (last (jsonNames tags)))
          (ast.Optional field) (conjoin (ast.Value field) exprs) (ast.Comments field),
        isOptional || existsb marksOptional tags).
Proof.
  induction tags as [|tag tags IH]; intros field isOptional.
  - simpl. rewrite orb_false_r. by destruct field.
  - rewrite foldM_cons, applyTag_spec, jsonNames_cons, annotations_cons.
    cbn [existsb]. rewrite orb_assoc.
    destruct (String.eqb (schema.Key tag) "json") eqn:Hjson.
    + rewrite (String_eqb_json_cue _ Hjson). simpl.
      destruct (String.eqb (schema.Name tag) ""); simpl; rewrite IH; [done|].
      rewrite last_cons. by destruct (last (jsonNames tags)).
    + simpl. destruct (String.eqb (schema.Key tag) "cue") eqn:Hcue; simpl.
      * destruct (String.eqb (schema.Name tag) ""); simpl; [by rewrite IH|].
        destruct (ParseExpr (schema.Name tag)) as [expr|err]; simpl; [|done].
        rewrite IH. simpl. by destruct (parseAll (annotations tags)).
      * rewrite IH. by rewrite (marksOptional_other_key _ Hjson Hcue), orb_false_r.
Qed.

(** X4: the field made from a schema field, in closed form.  Its label is
    the name of the last json tag that carries a name, and the name of the
    schema field when there is none; its value is the translated type
    conjoined, to the left, with the annotation of every cue tag that
    carries one, in the order of the tags; it is optional exactly when
    some tag marks it so; its comment is the documentation, if any.  The
    first annotation that cannot be read is the error of the whole
    field. *)
Theorem structToField_closed_form
    (translate : schema.Type_ → result ast.Expr) (f : schema.Field) :
  structToField translate f
  = fieldType ← translate (schema.Field_Typ f);
    exprs ← returned (parseAll (annotations (schema.Field_Tags f)));
    Ok (ast.mkField
          (ast.NewIdent
             (default (schema.Field_Name f) (last (jsonNames (schema.Field_Tags f)))))
          (if existsb marksOptional (schema.Field_Tags f)
           then RelPos_Pos Blank else NoPos)
          (conjoin fieldType exprs)
          (if String.eqb (schema.Field_Doc f) "" then []
           else [docComment (schema.Field_Doc f)])).
Proof.
  rewrite structToField_unfold.
  destruct (translate (schema.Field_Typ f)) as [fieldType| | |]; simpl; try done.
  rewrite foldM_applyTag_closed. simpl.
  destruct (parseAll (annotations (schema.Field_Tags f))) as [exprs|err]; simpl; [|done].
  unfold finishField. simpl.
  destruct (last (jsonNames (schema.Field_Tags f))),
           (existsb marksOptional (schema.Field_Tags f)),
           (String.eqb (schema.Field_Doc f) ""); done.
Qed.

Lemma jsonNames_by_key tags :
  jsonNames tags = jsonNames (filter (fun tag => schema.Key tag = "json") tags).
Proof.
  induction tags as [|tag tags IH]; [done|].
  rewrite filter_cons, jsonNames_cons.
  destruct (String.eqb_spec (schema.Key tag) "json") as [Hk|Hk]; simpl.
  - rewrite decide_True by done. rewrite jsonNames_cons.
    rewrite <- IH. by apply String.eqb_eq in Hk as ->.
  - by rewrite decide_False.
Qed.

Lemma annotations_by_key tags :
  annotations tags = annotations (filter (fun tag => schema.Key tag = "cue") tags).
Proof.
  induction tags as [|tag tags IH]; [done|].
  rewrite filter_cons, annotations_cons.
  destruct (String.eqb_spec (schema.Key tag) "cue") as [Hk|Hk]; simpl.
  - rewrite decide_True by done. rewrite annotations_cons.
    rewrite <- IH. by apply String.eqb_eq in Hk as ->.
  - by rewrite decide_False.
Qed.

Lemma marksOptional_by_key tags :
  existsb marksOptional tags
  = existsb marksOptional (filter (fun tag => schema.Key tag = "json") tags)
    || existsb marksOptional (filter (fun tag => schema.Key tag = "cue") tags).
Proof.
  induction tags as [|tag tags IH]; [done|].
  rewrite !filter_cons. cbn [existsb]. rewrite IH.
  destruct (String.eqb_spec (schema.Key tag) "json") as [Hj|Hj];
    destruct (String.eqb_spec (schema.Key tag) "cue") as [Hc|Hc];
    try (exfalso; congruence).
  - rewrite decide_True, decide_False by congruence. cbn [existsb].
    by rewrite orb_assoc.
  - rewrite decide_False, decide_True by congruence. cbn [existsb].
    destruct (marksOptional tag), (existsb marksOptional (filter _ tags)); done.
  - rewrite !decide_False by done.
    rewrite marksOptional_other_key; [done| |]; by apply String.eqb_neq.
Qed.

(** X5: the tags of a field act by key.  The field made from a schema
    field depends on its json tags, taken in their order, and on its cue
    tags, taken in their order, and on nothing else of the tags: tags of
    any other key are ignored, and how the json tags and the cue tags are
    interleaved makes no difference. *)
Theorem tags_act_by_key
    (translate : schema.Type_ → result ast.Expr) (name : string)
    (typ : schema.Type_) (doc : string) (tags1 tags2 : list schema.Tag) :
  filter (fun tag => schema.Key tag = "json") tags1
  = filter (fun tag => schema.Key tag = "json") tags2 →
  filter (fun tag => schema.Key tag = "cue") tags1
  = filter (fun tag => schema.Key tag = "cue") tags2 →
  structToField translate (schema.mkField name typ doc tags1)
  = structToField translate (schema.mkField name typ doc tags2).
Proof.
  intros Hjson Hcue. rewrite !structToField_unfold. simpl.
  destruct (translate typ) as [fieldType| | |]; simpl; try done.
  rewrite !foldM_applyTag_closed.
  rewrite (jsonNames_by_key tags1), (annotations_by_key tags1),
    (marksOptional_by_key tags1), Hjson, Hcue.
  by rewrite <- jsonNames_by_key, <- annotations_by_key, <- marksOptional_by_key.
Qed.

Lemma structToFieldsWith_app translate pre post :
  structToFieldsWith translate (pre ++ post)
  = out ← structToFieldsWith translate pre;
    out' ← structToFieldsWith translate post;
    Ok (out ++ out').
Proof.
  induction pre as [|f pre IH]; simpl.
  - by destruct (structToFieldsWith translate post).
  - destruct (structToField translate f); simpl; try done.
    rewrite IH. destruct (structToFieldsWith translate pre); simpl; try done.
    by destruct (structToFieldsWith translate post).
Qed.

(** X6: [structToFields] makes its fields one by one, in the order of the
    schema fields, and stops at the first field that fails.  It returns
    fields exactly when every schema field yields one, and then returns
    these, in order; when the fields before a field yield theirs and that
    field fails, its error, or its panic, is the outcome, whatever
    follows. *)
Theorem first_failing_field_decides
    (translate : schema.Type_ → result ast.Expr)
    (pre : list schema.Field) (f : schema.Field) (rest : list schema.Field)
    (out : list ast.Field) :
  structToFieldsWith translate pre = Ok out →
  Forall2 (fun f field => structToField translate f = Ok field) pre out
  ∧ (∀ e, structToField translate f = Err e →
          structToFieldsWith translate (pre ++ f :: rest) = Err e)
  ∧ (∀ m, structToField translate f = Panic m →
          structToFieldsWith translate (pre ++ f :: rest) = Panic m)
  ∧ (∀ field out',
       structToField translate f = Ok field →
       structToFieldsWith translate rest = Ok out' →
       structToFieldsWith translate (pre ++ f :: rest) = Ok (out ++ field :: out')).
Proof.
  intros Hpre. split.
  - revert out Hpre. induction pre as [|f0 pre IH]; intros out Hpre.
    + injection Hpre as <-. constructor.
    + simpl in Hpre. destruct (structToField translate f0) as [field| | |] eqn:E0;
        try done. simpl in Hpre.
      destruct (structToFieldsWith translate pre) as [out0| | |]; try done.
      injection Hpre as <-. constructor; [done|]. by apply IH.
  - rewrite structToFieldsWith_app, Hpre. simpl.
    repeat split.
    + by intros e ->.
    + by intros m ->.
    + by intros field out' -> ->.
Qed.


(** ** Further properties of the merge of fields *)

Lemma BinaryExpr_neq_left a : ∀ op b, ast.BinaryExpr a op b ≠ a.
Proof.
  induction a as [p n | v | o x IH | x IHx o y IHy | x IHx sel IHs
                 | es IH | t IH | fs IH]; intros op b H; try discriminate H.
  injection H as H _ _. by apply IHx in H.
Qed.

Lemma BinaryExpr_neq_right b : ∀ a op, ast.BinaryExpr a op b ≠ b.
Proof.
  induction b as [p n | v | o x IH | x IHx o y IHy | x IHx sel IHs
                 | es IH | t IH | fs IH]; intros a op H; try discriminate H.
  injection H as _ _ H. by apply IHy in H.
Qed.

Lemma mergedField_value_differs existing field :
  ast.Value existing ≠ ast.Value field →
  ast.Value (mergedField existing field)
  = ast.BinaryExpr (ast.Value existing) AND (ast.Value field).
Proof.
  intros Hne. destruct (mergedField_keeps existing field) as (_ & _ & ->).
  destruct (DeepEqual _ _) eqn:E; [|done]. by apply DeepEqual_eq in E.
Qed.

(** X7: the values of a label are conjoined without looking for the
    incoming value among the conjuncts already there.  When a field with a
    value [b] is merged into a field of the table whose value [a] differs
    from it, the value becomes [a & b]; when the same field is merged once
    more, the value becomes [(a & b) & b], and not [a & b]: the equality
    test is made against the whole value of the existing field. *)
Theorem merge_conjoins_without_deduplication
    (field : ast.Field) (s : service) (name : string) (ptr : nat)
    (existing : ast.Field) :
  LabelName (ast.Label field) = inl name →
  fieldLookup s !! name = Some ptr → topLevelFields s !! ptr = Some existing →
  ast.Value existing ≠ ast.Value field →
  ∃ s1 s2 once twice,
    registerField field s = Ok s1 ∧ registerField field s1 = Ok s2
    ∧ topLevelFields s1 !! ptr = Some once ∧ topLevelFields s2 !! ptr = Some twice
    ∧ ast.Value once = ast.BinaryExpr (ast.Value existing) AND (ast.Value field)
    ∧ ast.Value twice
      = ast.BinaryExpr (ast.BinaryExpr (ast.Value existing) AND (ast.Value field))
                       AND (ast.Value field)
    ∧ length (topLevelFields s2) = length (topLevelFields s).
Proof.
  intros Hname Hlookup Hexisting Hne.
  assert (Hptr : ptr < length (topLevelFields s)) by (by eapply lookup_lt_Some).
  set (once := mergedField existing field).
  set (s1 := set_topLevelFields s (<[ptr := once]> (topLevelFields s))).
  assert (Hat1 : topLevelFields s1 !! ptr = Some once)
    by (by apply list_lookup_insert_eq).
  set (twice := mergedField once field).
  set (s2 := set_topLevelFields s1 (<[ptr := twice]> (topLevelFields s1))).
  assert (Hvalue : ast.Value once
                   = ast.BinaryExpr (ast.Value existing) AND (ast.Value field))
    by (by apply mergedField_value_differs).
  exists s1, s2, once, twice.
  split; [by apply (registerField_found field s name ptr existing)|].
  split; [by apply (registerField_found field s1 name ptr once)|].
  split; [exact Hat1|]. split.
  { apply list_lookup_insert_eq. simpl. by rewrite length_insert. }
  split; [exact Hvalue|]. split.
  - unfold twice. rewrite mergedField_value_differs; rewrite Hvalue; [done|].
    apply BinaryExpr_neq_right.
  - simpl. by rewrite !length_insert.
Qed.

Lemma commentTexts_repositionFirstGroup field :
  commentTexts (repositionFirstGroup field) = commentTexts field.
Proof.
  unfold repositionFirstGroup, commentTexts.
  destruct (ast.Comments field) as [|grp others] eqn:Hc; [by rewrite Hc|].
  destruct (ast.List grp) as [|first lines] eqn:Hl; [by rewrite Hc|].
  simpl. by rewrite Hl.
Qed.

Lemma unionComments_all_present groups : ∀ existing,
  (∀ g, In g groups → commentAlreadyPresent existing g = true) →
  unionComments existing groups = existing.
Proof.
  induction groups as [|g rest IH]; intros existing Hall; [done|].
  change (unionComments existing (g :: rest))
    with (unionComments
            (if negb (commentAlreadyPresent existing g)
             then appendToFirstGroup existing (ast.List g) else existing) rest).
  rewrite (Hall g) by (by left). simpl. apply IH.
  intros g' Hg'. apply Hall. by right.
Qed.

Lemma mergeComments_texts existing field t :
  In t (commentTexts (mergeComments existing field))
  ↔ In t (commentTexts existing) ∨ In t (commentTexts field).
Proof.
  unfold mergeComments.
  destruct (ast.Comments field) as [|g0 rest] eqn:Hf.
  { simpl. unfold commentTexts at 3. rewrite Hf. simpl. tauto. }
  change (0 <? length (g0 :: rest)) with true. cbv iota.
  destruct (ast.Comments existing) as [|grp others] eqn:He.
  { simpl. unfold commentTexts. rewrite He. simpl. rewrite Hf. tauto. }
  change (length (grp :: others) =? 0) with false. cbv iota.
  rewrite commentTexts_repositionFirstGroup. split.
  - intros Hin.
    destruct (unionComments_shape (g0 :: rest) existing grp others He)
      as (extra & E & Hextra).
    apply In_commentTexts in Hin as (g & c & Hg & Hc & <-). rewrite E in Hg.
    destruct Hg as [<- | Hg].
    + simpl in Hc. apply in_app_or in Hc as [Hc | Hc].
      * left. apply In_commentTexts. exists grp, c. rewrite He.
        split; [by left|done].
      * right. destruct (Hextra c Hc) as (g' & Hg' & Hc').
        apply In_commentTexts. exists g', c. by rewrite Hf.
    + left. apply In_commentTexts. exists g, c. rewrite He. split; [by right|done].
  - intros [Hin | Hin].
    + by eapply unionComments_keeps_texts.
    + apply In_commentTexts in Hin as (g & c & Hg & Hc & <-). rewrite Hf in Hg.
      by eapply unionComments_covers.
Qed.

Lemma mergeComments_nonempty existing field :
  ast.Comments field ≠ [] → ast.Comments (mergeComments existing field) ≠ [].
Proof.
  intros Hf. destruct (ast.Comments existing) as [|grp others] eqn:He.
  - unfold mergeComments. rewrite He.
    by destruct (ast.Comments field) as [|g0 rest] eqn:Hfield.
  - destruct (mergeComments_union existing field grp others He Hf)
      as (extra & merged & -> & _). done.
Qed.

(** X8: the merge of comments is the union of the comment lines, by
    text.  A line is on the merged field exactly when it is on the
    existing field or on the incoming field; and merging the same incoming
    field a second time adds no line: the comment lines of the field are
    the same after one merge and after two. *)
Theorem comment_merge_is_a_union (existing field : ast.Field) :
  (∀ t, In t (commentTexts (mergeComments existing field))
        ↔ In t (commentTexts existing) ∨ In t (commentTexts field))
  ∧ commentTexts (mergeComments (mergeComments existing field) field)
    = commentTexts (mergeComments existing field).
Proof.
  split; [apply mergeComments_texts|].
  set (merged := mergeComments existing field).
  destruct (ast.Comments field) as [|g0 rest] eqn:Hf.
  { by rewrite (mergeComments_no_comment merged field Hf). }
  assert (Hpresent : ∀ g, In g (ast.Comments field) →
                          commentAlreadyPresent merged g = true).
  { intros g Hg. apply commentAlreadyPresent_spec. intros c Hc.
    apply mergeComments_texts. right. apply In_commentTexts. by exists g, c. }
  unfold mergeComments at 1. rewrite Hf.
  change (0 <? length (g0 :: rest)) with true. cbv iota.
  destruct (length (ast.Comments merged) =? 0) eqn:Hlen.
  - apply Nat.eqb_eq in Hlen. exfalso.
    apply (mergeComments_nonempty existing field); [by rewrite Hf|].
    by apply length_zero_iff_nil.
  - rewrite commentTexts_repositionFirstGroup.
    rewrite <- Hf. by rewrite unionComments_all_present.
Qed.


(** ** Further properties of the counting pass and of the translation *)

Lemma countNode_fold_imports nodes : ∀ s,
  neededImports (fold_left (fun a node => countNode node a) nodes s)
  = if decide (schema.Node_Builtin schema.Builtin_TIME ∈ nodes)
    then <["time" := "time"]> (neededImports s) else neededImports s.
Proof.
  induction nodes as [|node rest IH]; intros s.
  - done.
  - simpl. rewrite IH.
    destruct (decide (node = schema.Node_Builtin schema.Builtin_TIME)) as [->|Hne].
    + simpl. case_decide; [|done]. by rewrite insert_insert_eq.
    + assert (Hsame : neededImports (countNode node s) = neededImports s).
      { destruct node as [other|b|]; [done| |done]. by destruct b. }
      rewrite Hsame.
      destruct (decide (schema.Node_Builtin schema.Builtin_TIME ∈ rest)) as [Hin|Hin].
      * rewrite decide_True; [done|]. by right.
      * rewrite decide_False; [done|]. by intros [?|?]%elem_of_cons.
Qed.

Lemma references_zero named nodes :
  references named nodes = 0 ↔ schema.Node_Named named ∉ nodes.
Proof.
  unfold references. rewrite length_zero_iff_nil. split.
  - intros Hnil Hin.
    assert (schema.Node_Named named
            ∈ filter (fun node => node = schema.Node_Named named) nodes) as H
      by (by apply list_elem_of_filter).
    rewrite Hnil in H. by apply elem_of_nil in H.
  - intros Hnot. apply elem_of_nil_inv. intros node [-> Hin]%list_elem_of_filter. done.
Qed.

(** X9: what the counting pass over a declared type records.  The import
    of [time] is recorded, under its own name, exactly when the walk meets
    the builtin [TIME], and the imports are otherwise those from before;
    no count ever decreases, and the count of a named type stays as it was
    exactly when the walk does not meet the type. *)
Theorem counting_records_time_import
    (fuel : nat) (s : service) (typ : schema.Type_) (s' : service) :
  countNamedUsagesAndCollectImports fuel s typ = Ok s' →
  ∃ nodes,
    walkNodes fuel (Meta_Decls s) typ = Ok nodes
    ∧ neededImports s'
      = (if decide (schema.Node_Builtin schema.Builtin_TIME ∈ nodes)
         then <["time" := "time"]> (neededImports s) else neededImports s)
    ∧ (∀ named, Count (typeUsage s) named ≤ Count (typeUsage s') named)
    ∧ (∀ named, Count (typeUsage s') named = Count (typeUsage s) named
                ↔ schema.Node_Named named ∉ nodes).
Proof.
  unfold countNamedUsagesAndCollectImports, countVisitor.
  intros (nodes & Hnodes & ->)%Walk_visits.
  exists nodes. split; [done|]. split; [apply countNode_fold_imports|].
  destruct (countNode_fold nodes s) as (Hc & _).
  split; intros named; rewrite Hc; [lia|].
  rewrite <- references_zero. lia.
Qed.

(** X10: the import of [time] goes with the one builtin that needs it.
    The visitor of the counting pass records the import at the builtin
    [TIME], whose translation is the selector [time.Time]; at any other
    builtin it records nothing, and the translation of the builtin, when
    it has one, is a plain identifier. *)
Theorem time_import_goes_with_time_selector (b : schema.Builtin) (s : service) :
  (b = schema.Builtin_TIME
   ∧ builtinToCue b
     = Ok (ast.SelectorExpr (ast.Ident NoPos "time") (ast.Ident NoPos "Time"))
   ∧ countNode (schema.Node_Builtin b) s
     = set_neededImports s (<["time" := "time"]> (neededImports s)))
  ∨ (b ≠ schema.Builtin_TIME
     ∧ countNode (schema.Node_Builtin b) s = s
     ∧ ∀ e, builtinToCue b = Ok e → ∃ name, e = ast.Ident NoPos name).
Proof.
  destruct b; first [by left | right]; (split; [done|]); (split; [done|]);
    intros e [= <-]; eauto.
Qed.

Lemma translatable_field s fields f :
  f ∈ fields → translatable s (schema.Type_Struct fields) = true →
  translatable s (schema.Field_Typ f) = true
  ∧ forallb tagParses (schema.Field_Tags f) = true.
Proof.
  simpl. induction fields as [|g rest IH]; intros Hin; [by apply elem_of_nil in Hin|].
  intros [[Ht Hp]%andb_true_iff Hrest]%andb_true_iff.
  apply elem_of_cons in Hin as [-> | Hin]; [done|]. by apply IH.
Qed.

Lemma parseAll_tagParses tags :
  forallb tagParses tags = true → ∃ exprs, parseAll (annotations tags) = inl exprs.
Proof.
  induction tags as [|tag tags IH]; [by exists []|].
  simpl. intros [Htag Hrest]%andb_true_iff. destruct (IH Hrest) as [exprs Hexprs].
  rewrite annotations_cons. unfold tagParses in Htag.
  destruct (String.eqb (schema.Key tag) "cue" && negb (String.eqb (schema.Name tag) ""));
    [|by exists exprs].
  simpl. destruct (ParseExpr (schema.Name tag)) as [expr|err]; [|done].
  rewrite Hexprs. by exists (expr :: exprs).
Qed.

Lemma structToField_succeeds translate f :
  succeeded (translate (schema.Field_Typ f)) →
  forallb tagParses (schema.Field_Tags f) = true →
  succeeded (structToField translate f).
Proof.
  intros [fieldType Ht] [exprs Hp]%parseAll_tagParses.
  rewrite structToField_unfold, Ht. simpl.
  rewrite foldM_applyTag_closed, Hp. simpl. by eexists.
Qed.

Lemma structToFieldsWith_succeeds translate fields :
  (∀ f, f ∈ fields → succeeded (structToField translate f)) →
  succeeded (structToFieldsWith translate fields).
Proof.
  induction fields as [|f rest IH]; intros Hall; [by exists []|].
  simpl. destruct (Hall f ltac:(by left)) as [field ->]. simpl.
  destruct IH as [out ->]; [intros g Hg; apply Hall; by right|].
  simpl. by eexists.
Qed.

Lemma translatable_succeeds_within s : ∀ n typ fuel,
  typeSize typ ≤ n → n ≤ fuel → translatable s typ = true →
  succeeded (toCueType fuel s typ).
Proof.
  induction n as [|n IHn]; intros typ fuel Hsize Hfuel Hok.
  { pose proof (typeSize_pos typ). lia. }
  destruct fuel as [|fuel]; [lia|].
  destruct typ as [named | fields | key value | elem | b | elem |]; simpl in *.
  - rewrite Nat.ltb_lt in Hok.
    assert ((Count (typeUsage s) named <=? 1) = false) as -> by (apply Nat.leb_gt; lia).
    by eexists.
  - destruct (structToFieldsWith_succeeds (toCueType fuel s) fields) as [out ->];
      [|simpl; by eexists].
    intros f Hf.
    destruct (translatable_field s fields f Hf Hok) as [Ht Hp].
    apply structToField_succeeds; [|done].
    apply (IHn (schema.Field_Typ f) fuel); [|lia|done].
    pose proof (typeSize_field fields f Hf). simpl in *. lia.
  - apply andb_true_iff in Hok as [Hk Hv].
    destruct (IHn key fuel) as [keyType ->]; [lia|lia|done|].
    destruct (IHn value fuel) as [valueType ->]; [lia|lia|done|].
    simpl. by eexists.
  - destruct (IHn elem fuel) as [listType ->]; [lia|lia|done|]. simpl. by eexists.
  - destruct b; try done; by eexists.
  - apply (IHn elem fuel); [lia|lia|done].
  - done.
Qed.

(** X11: a type that needs nothing of the registry is always translated.
    When every named type in it is used more than once, every builtin in it
    is a known one, the type holds no node of an unexpected kind and every
    annotation of its fields can be read, the translation returns an
    expression, with a recursion bound of the size of the type: it does
    not fail and does not panic. *)
Theorem translatable_types_translate
    (s : service) (typ : schema.Type_) (fuel : nat) :
  translatable s typ = true → typeSize typ ≤ fuel →
  succeeded (toCueType fuel s typ).
Proof.
  intros Hok Hfuel. by apply (translatable_succeeds_within s (typeSize typ)).
Qed.


(** ** Further properties of the assembly of the document *)

Lemma definitionOf_ext fuel s s' named :
  typeUsage s' = typeUsage s → Meta_Decls s' = Meta_Decls s →
  definitionOf fuel s' named = definitionOf fuel s named.
Proof.
  intros Husage Hdecls. unfold definitionOf. rewrite Hdecls.
  destruct (Meta_Decls s !! N.to_nat named) as [decl|]; [|done].
  by rewrite (toCueType_ext s s' Husage Hdecls).
Qed.

Lemma definitionOf_succeeds_iff fuel s named :
  succeeded (definitionOf fuel s named)
  ↔ ∃ decl, Meta_Decls s !! N.to_nat named = Some decl
            ∧ succeeded (toCueType fuel s (schema.Decl_Type decl)).
Proof.
  split.
  - intros [def (_ & decl & Hdecl & Hvalue)%definitionOf_label].
    exists decl. split; [done|]. by eexists.
  - intros (decl & Hdecl & [value Hvalue]). unfold definitionOf.
    rewrite Hdecl, Hvalue. simpl. by eexists.
Qed.

Lemma foldM_hoistDefinition_succeeds fuel s names :
  (∀ named, named ∈ names → succeeded (definitionOf fuel s named)) →
  ∀ f, succeeded (foldM (hoistDefinition fuel s) names f).
Proof.
  induction names as [|named rest IH]; intros Hall f; [by eexists|].
  rewrite foldM_cons, hoistDefinition_spec.
  destruct (Hall named ltac:(by left)) as [def ->]. simpl.
  apply IH. intros other Hother. apply Hall. by right.
Qed.

(** X12: when the assembly of a document succeeds.  For a table that is
    not empty, [generateCue] returns a document exactly when every named
    type used more than once has a declaration in the registry whose body
    can be translated.  A reference to a named type used more than once is
    translated to its identifier without a look at the registry, so a
    reference to a type that the registry does not hold passes the
    translation of the fields and stops the assembly. *)
Theorem generateCue_succeeds_iff (fuel : nat) (s : service) :
  topLevelFields s ≠ [] →
  (succeeded (generateCue fuel s)
   ↔ ∀ named, 1 < Count (typeUsage s) named →
       ∃ decl, Meta_Decls s !! N.to_nat named = Some decl
               ∧ succeeded (toCueType fuel s (schema.Decl_Type decl)))
  ∧ (∀ named,
       1 < Count (typeUsage s) named → Meta_Decls s !! N.to_nat named = None →
       toCueType (S fuel) s (schema.Type_Named named) = Ok (CueIdent named)
       ∧ ¬ succeeded (generateCue fuel s)).
Proof.
  intros Hne.
  assert (Hiff : succeeded (generateCue fuel s)
                 ↔ ∀ named, 1 < Count (typeUsage s) named →
                     ∃ decl, Meta_Decls s !! N.to_nat named = Some decl
                             ∧ succeeded (toCueType fuel s (schema.Decl_Type decl))).
  { split.
    - intros [s' E] named Hcount.
      destruct (generateCue_spec fuel s s' Hne E) as (defs & Hdefs & _).
      apply elem_of_NamesWithCountsOver in Hcount.
      apply list_elem_of_lookup_1 in Hcount as [i Hi].
      destruct (Forall2_lookup_l _ _ _ _ _ Hdefs Hi) as (def & _ & Hdef).
      apply definitionOf_succeeds_iff. by exists def.
    - intros Hall. unfold generateCue.
      destruct (topLevelFields s) as [|top tops] eqn:Htop; [done|].
      change (length (top :: tops) =? 0) with false. cbv iota.
      assert (Hdefs : ∀ named, named ∈ NamesWithCountsOver (typeUsage s) 1 →
                               succeeded (definitionOf fuel s named)).
      { intros named Hnamed%elem_of_NamesWithCountsOver.
        apply definitionOf_succeeds_iff. by apply Hall. }
      match goal with |- succeeded (foldM _ ?names ?f0 ≫= _) =>
        destruct (foldM_hoistDefinition_succeeds fuel s names Hdefs f0) as [f' ->]
      end.
      simpl. by eexists. }
  split; [exact Hiff|].
  intros named Hcount Hnone. split.
  - simpl. assert ((Count (typeUsage s) named <=? 1) = false) as ->; [|done].
    apply Nat.leb_gt. lia.
  - intros Hok. destruct (proj1 Hiff Hok named Hcount) as (decl & Hdecl & _).
    congruence.
Qed.

(** X13: [generateCue] writes the file and nothing else, and only
    appends to it.  After a call that succeeds the service differs from
    the service before in its file at most; the declarations, the import
    specifications and the comments that the file held are still there, at
    the head of their lists; and when the table is not empty the
    top-level fields are the last declarations of the file. *)
Theorem generateCue_only_appends (fuel : nat) (s s' : service) :
  generateCue fuel s = Ok s' →
  s' = set_file s (file s')
  ∧ ast.Decls (file s) `prefix_of` ast.Decls (file s')
  ∧ ast.Imports (file s) `prefix_of` ast.Imports (file s')
  ∧ ast.FileComments (file s) `prefix_of` ast.FileComments (file s')
  ∧ (topLevelFields s ≠ [] →
     (ast.FieldDecl <$> topLevelFields s') `suffix_of` ast.Decls (file s')).
Proof.
  intros E. destruct (topLevelFields s) as [|top tops] eqn:Htop.
  - unfold generateCue in E. rewrite Htop in E. injection E as <-.
    destruct s. by repeat split.
  - assert (Hne : topLevelFields s ≠ []) by (by rewrite Htop).
    destruct (generateCue_spec fuel s s' Hne E) as (defs & _ & ->). simpl.
    split; [done|]. split; [by eexists|]. split; [by eexists|].
    split; [by eexists|]. intros _.
    exists (ast.Decls (file s) ++ [ast.Package (ast.NewIdent (svc_Name s))]
            ++ importDecls s ++ (ast.FieldDecl <$> defs)).
    by rewrite <- !app_assoc.
Qed.

Lemma definitions_functional fuel s s' names :
  typeUsage s' = typeUsage s → Meta_Decls s' = Meta_Decls s →
  ∀ defs defs',
    Forall2 (fun named def => definitionOf fuel s named = Ok def) names defs →
    Forall2 (fun named def => definitionOf fuel s' named = Ok def) names defs' →
    defs' = defs.
Proof.
  intros Husage Hdecls. induction names as [|named names IH]; intros defs defs' H H';
    inversion H as [|? def ? defs0 Hdef Hrest]; subst;
    inversion H' as [|? def' ? defs0' Hdef' Hrest']; subst; [done|].
  rewrite (definitionOf_ext fuel s s' named Husage Hdecls) in Hdef'.
  f_equal; [congruence|]. by apply IH.
Qed.

(** X14: [generateCue] is not meant to be called twice.  A second call on
    the service that the first call returns appends a whole document
    again: the file then holds the header comment twice and every import
    specification twice, its second import declaration lists all of them,
    and the same definitions and top-level fields follow a second package
    clause. *)
Theorem generateCue_twice_duplicates (fuel : nat) (s s' s'' : service) :
  topLevelFields s ≠ [] →
  generateCue fuel s = Ok s' → generateCue fuel s' = Ok s'' →
  ∃ defs,
    ast.Decls (file s')
    = ast.Decls (file s) ++ [ast.Package (ast.NewIdent (svc_Name s))]
        ++ importDecls s ++ (ast.FieldDecl <$> defs)
        ++ (ast.FieldDecl <$> topLevelFields s)
    ∧ ast.Decls (file s'')
      = ast.Decls (file s') ++ [ast.Package (ast.NewIdent (svc_Name s))]
          ++ (if 0 <? size (neededImports s)
              then [ast.ImportDecl (ast.Imports (file s''))] else [])
          ++ (ast.FieldDecl <$> defs) ++ (ast.FieldDecl <$> topLevelFields s)
    ∧ ast.Imports (file s'')
      = ast.Imports (file s) ++ importSpecs (neededImports s)
          ++ importSpecs (neededImports s)
    ∧ ast.FileComments (file s'')
      = ast.FileComments (file s) ++ [headerComment; headerComment].
Proof.
  intros Hne E1 E2.
  destruct (generateCue_spec fuel s s' Hne E1) as (defs & Hdefs & ->).
  apply generateCue_spec in E2 as (defs' & Hdefs' & ->); [|exact Hne].
  simpl in Hdefs'.
  assert (defs' = defs) as ->
    by (by eapply (definitions_functional fuel s); [| |exact Hdefs|exact Hdefs']).
  exists defs. simpl. unfold importDecls at 2. simpl.
  split; [done|]. split; [done|]. split; [by rewrite <- app_assoc|].
  by rewrite <- app_assoc.
Qed.


(** X15: the definition hoisted for a named type is made of the body of
    its declaration, not of a reference to the type itself.  The loop of
    [generateCue] appends one field to the declarations of the file and
    leaves the rest of the file alone; the field is labelled with the
    identifier of the type, is never optional, and has the translation of
    the declared body for its value, which is a struct of one field per
    schema field when the body is a record.  A documented declaration gets
    its documentation as a comment; an undocumented one gets a section
    break before its label instead, and no comment. *)
Theorem hoisted_definition_expands_the_body
    (fuel : nat) (s : service) (named : N) (f f' : ast.File) :
  hoistDefinition fuel s named f = Ok f' →
  ∃ decl def,
    Meta_Decls s !! N.to_nat named = Some decl
    ∧ f' = ast.mkFile (ast.Decls f ++ [ast.FieldDecl def]) (ast.Imports f)
                      (ast.FileComments f)
    ∧ ast.Label def
      = ast.Ident (if String.eqb (schema.Decl_Doc decl) ""
                   then RelPos_Pos NewSection else NoPos) (cueName named)
    ∧ ast.Optional def = NoPos
    ∧ ast.Comments def
      = (if String.eqb (schema.Decl_Doc decl) "" then []
         else [docComment (schema.Decl_Doc decl)])
    ∧ toCueType fuel s (schema.Decl_Type decl) = Ok (ast.Value def)
    ∧ (∀ fields, schema.Decl_Type decl = schema.Type_Struct fields →
         ∃ out, ast.Value def = ast.StructLit out ∧ length out = length fields).
Proof.
  rewrite hoistDefinition_spec. unfold definitionOf.
  destruct (Meta_Decls s !! N.to_nat named) as [decl|]; [|done].
  destruct (toCueType fuel s (schema.Decl_Type decl)) as [value| | |] eqn:Hvalue;
    try done.
  simpl. intros [= <-]. exists decl. eexists. split; [done|]. split; [done|].
  assert (Hstruct : ∀ fields, schema.Decl_Type decl = schema.Type_Struct fields →
                      ∃ out, value = ast.StructLit out ∧ length out = length fields).
  { intros fields Hbody. rewrite Hbody in Hvalue. destruct fuel as [|n]; [done|].
    simpl in Hvalue.
    destruct (structToFieldsWith (toCueType n s) fields) as [out| | |] eqn:Hout;
      try done.
    injection Hvalue as <-. exists out. split; [done|].
    by eapply structToFieldsWith_length. }
  destruct (String.eqb (schema.Decl_Doc decl) ""); simpl; by repeat split.
Qed.

Lemma foldM_registerField_fresh fields : ∀ names s,
  Forall2 (fun field name => LabelName (ast.Label field) = inl name) fields names →
  NoDup names → (∀ name, name ∈ names → fieldLookup s !! name = None) →
  ∃ s', foldM registerField fields s = Ok s'
        ∧ topLevelFields s' = topLevelFields s ++ fields
        ∧ (∀ i name, names !! i = Some name →
             fieldLookup s' !! name = Some (length (topLevelFields s) + i))
        ∧ (∀ name, name ∉ names → fieldLookup s' !! name = fieldLookup s !! name).
Proof.
  induction fields as [|field fields IH]; intros names s Hnames Hdup Hfresh.
  - inversion Hnames; subst. exists s. split; [done|]. rewrite app_nil_r.
    split; [done|]. split; [|done]. intros i name Hi. by rewrite lookup_nil in Hi.
  - inversion Hnames as [|? name ? names' Hname Hrest]; subst.
    apply NoDup_cons in Hdup as [Hnotin Hdup].
    rewrite foldM_cons, (registerField_new field s name Hname)
      by (apply Hfresh; by left).
    simpl.
    destruct (IH names'
                (set_topLevelFields
                   (set_fieldLookup s
                      (<[name := length (topLevelFields s)]> (fieldLookup s)))
                   (topLevelFields s ++ [field])) Hrest Hdup)
      as (s' & -> & Hfields & Hptr & Hother).
    { intros other Hother. simpl. rewrite lookup_insert_ne by congruence.
      apply Hfresh. by right. }
    exists s'. split; [done|]. simpl in *.
    split; [by rewrite Hfields, <- app_assoc|]. split.
    + intros [|i] other Hi; simpl in Hi.
      * injection Hi as <-. rewrite (Hother name Hnotin), lookup_insert_eq.
        f_equal. lia.
      * rewrite (Hptr i other Hi), length_app. simpl. f_equal. lia.
    + intros other Hother'. apply not_elem_of_cons in Hother' as [Hne Hother'].
      rewrite (Hother other Hother'). by rewrite lookup_insert_ne.
Qed.

(** X16: a declaration whose fields carry labels that are new to the
    table, and differ from one another, is registered as it is.  Its
    fields are appended to the table in the order of the declaration,
    unchanged, the label of each is entered in the lookup with the index
    of its field, and no other entry of the lookup changes. *)
Theorem fresh_fields_are_appended_as_they_are
    (fuel : nat) (s : service) (typ : schema.Type_)
    (concrete : list schema.Field) (fields : list ast.Field) (names : list string) :
  GetConcreteStructType (Meta_Decls s) typ = Ok concrete →
  structToFields fuel s concrete = Ok fields →
  Forall2 (fun field name => LabelName (ast.Label field) = inl name) fields names →
  NoDup names → (∀ name, name ∈ names → fieldLookup s !! name = None) →
  ∃ s', registerTopLevelField fuel s typ = Ok s'
        ∧ topLevelFields s' = topLevelFields s ++ fields
        ∧ (∀ i name, names !! i = Some name →
             fieldLookup s' !! name = Some (length (topLevelFields s) + i))
        ∧ (∀ name, name ∉ names → fieldLookup s' !! name = fieldLookup s !! name).
Proof.
  intros Hconcrete Hfields Hnames Hdup Hfresh.
  unfold registerTopLevelField. rewrite Hconcrete. simpl. rewrite Hfields. simpl.
  by apply foldM_registerField_fresh.
Qed.


(** ** The order in which the labels are first seen *)




Lemma structToFieldsWith_Forall2 translate fields out :
  structToFieldsWith translate fields = Ok out →
  Forall2 (fun f field => structToField translate f = Ok field) fields out.
Proof.
  revert out. induction fields as [|f fields IH]; intros out E.
  - injection E as <-. constructor.
  - simpl in E. destruct (structToField translate f) as [field| | |] eqn:Ef; try done.
    simpl in E. destruct (structToFieldsWith translate fields) as [out'| | |]; try done.
    injection E as <-. constructor; [done|]. by apply IH.
Qed.






(** ** The order of the document *)



(** ** A malformed annotation anywhere in the declared types *)

Lemma bind_not_succeeded {A B} (r : result A) (k : A → result B) :
  ¬ succeeded r → ¬ succeeded (r ≫= k).
Proof. intros Hnot [b E]. destruct r; try done. apply Hnot. by eexists. Qed.

Lemma structToField_translate_fails translate f :
  ¬ succeeded (translate (schema.Field_Typ f)) → ¬ succeeded (structToField translate f).
Proof. intros Hnot. rewrite structToField_unfold. by apply bind_not_succeeded. Qed.

(** The translation of a type does not succeed when it comes across a
    field with an annotation that the parser rejects. *)
Lemma toCueType_fails_on_malformed tag err s :
  schema.Key tag = "cue" → schema.Name tag ≠ "" →
  ParseExpr (schema.Name tag) = inr err →
  ∀ typ f, reachesInline s typ f → tag ∈ schema.Field_Tags f →
           ∀ fuel, ¬ succeeded (toCueType fuel s typ).
Proof.
  intros Hkey Hname Hparse typ f Hreach Htag.
  induction Hreach as [fields f Hf | fields g f Hg _ IH | key value f _ IH
                      | key value f _ IH | elem f _ IH | elem f _ IH
                      | named decl f Hcount Hdecl _ IH];
    intros [|fuel]; try (by intros [? ?]); simpl.
  - apply bind_not_succeeded. eapply structToFieldsWith_not_ok; [exact Hf|].
    by apply (structToField_parse_error _ f tag err).
  - apply bind_not_succeeded. eapply structToFieldsWith_not_ok; [exact Hg|].
    apply structToField_translate_fails. by apply IH.
  - apply bind_not_succeeded. by apply IH.
  - destruct (toCueType fuel s key); try (by intros [? ?]). simpl.
    apply bind_not_succeeded. by apply IH.
  - apply bind_not_succeeded. by apply IH.
  - by apply IH.
  - apply Nat.leb_le in Hcount. rewrite Hcount. unfold GetConcreteType.
    rewrite Hdecl. simpl. by apply IH.
Qed.

(** A field that a declared type holds is met by the translation of the
    type, or by the translation of the body of a named type that is used
    more than once. *)
Lemma reaches_split s typ f :
  reaches (Meta_Decls s) typ f →
  reachesInline s typ f
  ∨ ∃ named decl, 1 < Count (typeUsage s) named
                  ∧ Meta_Decls s !! N.to_nat named = Some decl
                  ∧ reachesInline s (schema.Decl_Type decl) f.
Proof.
  unfold reaches, reachesInline.
  induction 1 as [fields f Hf | fields g f Hg _ IH | key value f _ IH
                 | key value f _ IH | elem f _ IH | elem f _ IH
                 | named decl f _ Hdecl _ IH].
  - left. by constructor.
  - destruct IH as [IH | IH]; [left | by right]. by eapply reaches_struct.
  - destruct IH as [IH | IH]; [left | by right]. by apply reaches_key.
  - destruct IH as [IH | IH]; [left | by right]. by apply reaches_value.
  - destruct IH as [IH | IH]; [left | by right]. by apply reaches_elem.
  - destruct IH as [IH | IH]; [left | by right]. by apply reaches_config.
  - destruct IH as [IH | IH]; [|by right].
    destruct (decide (Count (typeUsage s) named ≤ 1)) as [Hle | Hgt].
    + left. by eapply reaches_named.
    + right. exists named, decl. split; [lia|done].
Qed.

Lemma reachesInline_ext s s' typ f :
  typeUsage s' = typeUsage s → Meta_Decls s' = Meta_Decls s →
  reachesInline s typ f → reachesInline s' typ f.
Proof. unfold reachesInline. by intros -> ->. Qed.

Lemma reaches_root decls root concrete f :
  GetConcreteStructType decls root = Ok concrete → reaches decls root f →
  f ∈ concrete ∨ ∃ g, g ∈ concrete ∧ reaches decls (schema.Field_Typ g) f.
Proof.
  unfold GetConcreteStructType, GetConcreteType, reaches. intros Hconcrete Hreach.
  assert (Hstruct : ∀ fields, reachesVia (fun _ => True) decls
                                (schema.Type_Struct fields) f →
                     f ∈ fields ∨ ∃ g, g ∈ fields
                       ∧ reachesVia (fun _ => True) decls (schema.Field_Typ g) f).
  { intros fields H. inversion H; subst; [by left | right; eauto]. }
  destruct root as [named | fields | key value | elem | b | elem |];
    simpl in Hconcrete; try done.
  - inversion Hreach as [| | | | | |? decl ? _ Hdecl Hbody]; subst.
    rewrite Hdecl in Hconcrete. simpl in Hconcrete.
    destruct (schema.Decl_Type decl) as [| fields | | | | |]; try done.
    injection Hconcrete as <-. by apply Hstruct.
  - injection Hconcrete as <-. by apply Hstruct.
Qed.

Lemma generateCue_hoists fuel s named :
  topLevelFields s ≠ [] → succeeded (generateCue fuel s) →
  1 < Count (typeUsage s) named →
  ∃ decl, Meta_Decls s !! N.to_nat named = Some decl
          ∧ succeeded (toCueType fuel s (schema.Decl_Type decl)).
Proof.
  intros Hne [s' E] Hcount.
  destruct (generateCue_spec fuel s s' Hne E) as (defs & Hdefs & _).
  apply elem_of_NamesWithCountsOver in Hcount.
  apply list_elem_of_lookup_1 in Hcount as [i Hi].
  destruct (Forall2_lookup_l _ _ _ _ _ Hdefs Hi) as (def & _ & Hdef).
  apply definitionOf_label in Hdef as (_ & decl & Hdecl & Hvalue).
  exists decl. split; [done|]. by eexists.
Qed.

Lemma keepsFields_length s s' :
  keepsFields s s' → length (topLevelFields s) ≤ length (topLevelFields s').
Proof.
  intros [_ Hfields].
  destruct (length (topLevelFields s)) as [|n] eqn:El; [lia|].
  destruct (lookup_lt_is_Some_2 (topLevelFields s) n) as [f Hf]; [lia|].
  destruct (Hfields n f Hf) as (f' & Hf' & _). apply lookup_lt_Some in Hf'. lia.
Qed.

Lemma registerField_nonempty field s s' :
  registerField field s = Ok s' → topLevelFields s' ≠ [].
Proof.
  intros E.
  destruct (registerField_first_seen field s s' E)
    as (name & Hname & [(ptr & Hptr & _ & Hlabels) | (_ & _ & ->)]).
  - unfold registerField in E. rewrite Hname in E. simpl in E. rewrite Hptr in E.
    destruct (topLevelFields s !! ptr) as [existing|] eqn:He; [|done].
    apply lookup_lt_Some in He. intros Hnil.
    apply (f_equal length) in Hlabels. rewrite !length_fmap, Hnil in Hlabels.
    simpl in Hlabels. lia.
  - by destruct (topLevelFields s).
Qed.

Lemma registerTopLevelField_keepsFields fuel s typ s' :
  registerTopLevelField fuel s typ = Ok s' → keepsFields s s'.
Proof.
  intros E. unfold registerTopLevelField in E.
  destruct (GetConcreteStructType (Meta_Decls s) typ) as [concrete| | |]; try done.
  simpl in E. destruct (structToFields fuel s concrete) as [fields| | |]; try done.
  simpl in E. revert E.
  apply (foldM_relation registerField keepsFields);
    [apply keepsFields_refl | apply keepsFields_trans |].
  intros field s0 s1. apply registerField_keepsFields.
Qed.

(** A successful loop has run its body on every element, from a state
    that the invariant holds of, and the end state is related to the state
    after that run. *)
Lemma foldM_elem {A St} (body : A → St → result St)
    (P : St → Prop) (R : St → St → Prop) :
  (∀ x s s', P s → body x s = Ok s' → P s') →
  (∀ s, R s s) → (∀ s1 s2 s3, R s1 s2 → R s2 s3 → R s1 s3) →
  (∀ x s s', body x s = Ok s' → R s s') →
  ∀ l s s' x, P s → foldM body l s = Ok s' → x ∈ l →
    ∃ s1 s2, P s1 ∧ body x s1 = Ok s2 ∧ R s2 s'.
Proof.
  intros HP Hrefl Htrans HR l.
  induction l as [|y l IH]; intros s s' x Hs E Hx; [by apply elem_of_nil in Hx|].
  rewrite foldM_cons in E. destruct (body y s) as [s1| | |] eqn:E1; try done.
  simpl in E. apply elem_of_cons in Hx as [-> | Hx].
  - exists s, s1. split; [done|]. split; [done|].
    revert E. by apply foldM_relation.
  - by apply (IH s1 s' x (HP y s s1 Hs E1) E).
Qed.

(** A pass over declared types that hold, at any depth, a field with an
    annotation that the parser rejects does not succeed. *)
Lemma generate_fails_on_reachable_malformed
    fuel name decls roots root f tag err :
  schema.Key tag = "cue" → schema.Name tag ≠ "" →
  ParseExpr (schema.Name tag) = inr err →
  root ∈ roots → reaches decls root f → tag ∈ schema.Field_Tags f →
  ¬ succeeded (generate fuel name decls roots).
Proof.
  intros Hkey Hname Hparse Hroot Hreach Htag [s' Hg].
  destruct (generate_spec _ _ _ _ _ Hg)
    as (nodes & counted & registered & _ & _ & Hreg & Hgen & Hframe & Hdecls & _).
  destruct (foldM_elem (fun typ s => registerTopLevelField fuel s typ)
              (fun s => countingState s = countingState registered)
              (fun s s' => length (topLevelFields s) ≤ length (topLevelFields s')))
    with (l := roots) (s := counted) (s' := registered) (x := root)
    as (s1 & s2 & Hs1 & E & Hlen); try done.
  { intros typ s0 s0' Hs0 E0. apply registerTopLevelField_frame in E0. congruence. }
  { intros; lia. }
  { intros typ s0 s0' E0. by apply keepsFields_length, (registerTopLevelField_keepsFields fuel s0 typ). }
  unfold countingState in Hs1. injection Hs1 as _ Hdecls1 _ _ Husage1.
  unfold registerTopLevelField in E.
  destruct (GetConcreteStructType (Meta_Decls s1) root) as [concrete| | |] eqn:Hc;
    try done.
  simpl in E. destruct (structToFields fuel s1 concrete) as [fields| | |] eqn:Hf;
    try done.
  simpl in E. rewrite Hdecls1, Hdecls in Hc.
  assert (Hfail : ∀ g, g ∈ concrete →
                       ¬ succeeded (structToField (toCueType fuel s1) g) → False).
  { intros g Hg' Hnot.
    apply (structToFieldsWith_not_ok (toCueType fuel s1) concrete g Hg' Hnot).
    by exists fields. }
  destruct (reaches_root decls root concrete f Hc Hreach) as [Hin | (g & Hin & Hg')].
  { apply (Hfail f Hin). by apply (structToField_parse_error _ f tag err). }
  rewrite <- Hdecls in Hg'.
  destruct (reaches_split registered (schema.Field_Typ g) f Hg')
    as [Hinline | (named & decl & Hcount & Hdecl & Hinline)].
  - apply (Hfail g Hin). apply structToField_translate_fails.
    eapply (toCueType_fails_on_malformed tag err s1); try done.
    by apply (reachesInline_ext registered).
  - assert (Hne : topLevelFields registered ≠ []).
    { assert (fields ≠ []) as Hfields.
      { apply structToFieldsWith_length in Hf. intros ->.
        destruct concrete; [by apply elem_of_nil in Hin | done]. }
      destruct fields as [|field fields]; [done|].
      assert (topLevelFields s2 ≠ []) as Hs2.
      { rewrite foldM_cons in E.
        destruct (registerField field s1) as [s0| | |] eqn:E0; try done. simpl in E.
        apply registerField_nonempty in E0.
        assert (length (topLevelFields s0) ≤ length (topLevelFields s2)) as Hle.
        { revert E. apply (foldM_relation registerField
                             (fun s s' => length (topLevelFields s)
                                          ≤ length (topLevelFields s'))); try (intros; lia).
          intros x sa sb Eab. by apply keepsFields_length, (registerField_keepsFields x). }
        destruct (topLevelFields s0); [done|]. destruct (topLevelFields s2); [|done].
        simpl in Hle. lia. }
      destruct (topLevelFields s2); [done|]. destruct (topLevelFields registered); [|done].
      simpl in Hlen. lia. }
    destruct (generateCue_hoists fuel registered named Hne) as (decl' & Hdecl' & Hok);
      [by exists s' | done |].
    assert (decl' = decl) as -> by congruence.
    by apply (toCueType_fails_on_malformed tag err registered Hkey Hname Hparse
                _ f Hinline Htag fuel).
Qed.


(** ** A malformed annotation is fatal *)

(** C5: a cue tag with a name has its name parsed as an expression, which
    is conjoined with the value of the field; when the parser rejects the
    name, the construction of the fields returns an error instead of
    fields, and so does the registration of the declaration, whatever the
    position of the field and of the tag: the field is not skipped.  The
    same holds at any depth: the translation of a type that holds such a
    field, in a record, a map, a list, a wrapper or an inlined named type,
    does not succeed, the record branch of the translator hands on the
    error of its fields, the loop of [generateCue] hands on the error of
    the body of a hoisted type, and a pass over declared types that hold
    such a field anywhere does not succeed. *)
Theorem malformed_cue_tag_is_fatal (tag : schema.Tag) :
  schema.Key tag = "cue" → schema.Name tag ≠ "" →
  (∀ field isOptional,
     applyTag tag (field, isOptional)
     = match ParseExpr (schema.Name tag) with
       | inl expr =>
           Ok (ast.setValue field (ast.BinaryExpr (ast.Value field) AND expr),
               isOptional || marksOptional tag)
       | inr err => Err err
       end)
  ∧ (∀ translate f fieldType expr,
       schema.Field_Tags f = [tag] → translate (schema.Field_Typ f) = Ok fieldType →
       ParseExpr (schema.Name tag) = inl expr →
       ∃ field, structToField translate f = Ok field
                ∧ ast.Value field = ast.BinaryExpr fieldType AND expr)
  ∧ (∀ err translate fields f,
       ParseExpr (schema.Name tag) = inr err →
       f ∈ fields → tag ∈ schema.Field_Tags f →
       ¬ succeeded (structToFieldsWith translate fields)
       ∧ ((∀ f', f' ∈ fields → succeeded (translate (schema.Field_Typ f'))) →
          ∃ err', structToFieldsWith translate fields = Err err'))
  ∧ (∀ err fuel s typ fields f,
       ParseExpr (schema.Name tag) = inr err →
       GetConcreteStructType (Meta_Decls s) typ = Ok fields →
       f ∈ fields → tag ∈ schema.Field_Tags f →
       ¬ succeeded (registerTopLevelField fuel s typ)
       ∧ ((∀ f', f' ∈ fields → succeeded (toCueType fuel s (schema.Field_Typ f'))) →
          ∃ err', registerTopLevelField fuel s typ = Err err'))
  ∧ (∀ err fuel s typ f,
       ParseExpr (schema.Name tag) = inr err →
       reachesInline s typ f → tag ∈ schema.Field_Tags f →
       ¬ succeeded (toCueType fuel s typ))
  ∧ (∀ fuel s fields e,
       structToFieldsWith (toCueType fuel s) fields = Err e →
       toCueType (S fuel) s (schema.Type_Struct fields) = Err e)
  ∧ (∀ err fuel s named decl f,
       ParseExpr (schema.Name tag) = inr err →
       topLevelFields s ≠ [] → 1 < Count (typeUsage s) named →
       Meta_Decls s !! N.to_nat named = Some decl →
       reachesInline s (schema.Decl_Type decl) f → tag ∈ schema.Field_Tags f →
       ¬ succeeded (generateCue fuel s))
  ∧ (∀ fuel s pre named post decl e,
       topLevelFields s ≠ [] →
       NamesWithCountsOver (typeUsage s) 1 = pre ++ named :: post →
       (∀ other, other ∈ pre → succeeded (definitionOf fuel s other)) →
       Meta_Decls s !! N.to_nat named = Some decl →
       toCueType fuel s (schema.Decl_Type decl) = Err e →
       generateCue fuel s = Err e)
  ∧ (∀ err fuel name decls roots root f,
       ParseExpr (schema.Name tag) = inr err →
       root ∈ roots → reaches decls root f → tag ∈ schema.Field_Tags f →
       ¬ succeeded (generate fuel name decls roots)).
Proof.
  intros Hkey Hname.
  assert (Hne : String.eqb (schema.Name tag) "" = false) by by apply String.eqb_neq.
  assert (Hfields : ∀ err translate fields f,
    ParseExpr (schema.Name tag) = inr err →
    f ∈ fields → tag ∈ schema.Field_Tags f →
    ¬ succeeded (structToFieldsWith translate fields)
    ∧ ((∀ f', f' ∈ fields → succeeded (translate (schema.Field_Typ f'))) →
       ∃ err', structToFieldsWith translate fields = Err err')).
  { intros err translate fields f Hparse Hf Htag.
    destruct (structToField_parse_error translate f tag err Htag Hkey Hname Hparse)
      as [Hnot Herr].
    split; [by eapply structToFieldsWith_not_ok|].
    intros Hall. destruct (Herr (Hall f Hf)) as [err' E].
    by eapply structToFieldsWith_err. }
  split; [|split; [|split; [|split; [|split; [|split; [|split; [|split]]]]]]].
  - intros field isOptional. rewrite applyTag_spec, Hkey, Hne. reflexivity.
  - intros translate f fieldType expr Htags E Hparse.
    rewrite structToField_unfold, E, Htags. simpl.
    rewrite applyTag_spec, Hkey, Hne, Hparse. simpl.
    eexists. split; [reflexivity|].
    by destruct (finishField_keeps f
      (ast.setValue (ast.mkField (ast.NewIdent (schema.Field_Name f)) NoPos fieldType [])
         (ast.NewBinExpr AND fieldType expr))
      (marksOptional tag)) as (_ & -> & _).
  - exact Hfields.
  - intros err fuel s typ fields f Hparse Hres Hf Htag.
    destruct (Hfields err (toCueType fuel s) fields f Hparse Hf Htag) as [Hnot Herr].
    unfold registerTopLevelField. rewrite Hres. simpl. unfold structToFields. split.
    + intros [s' E].
      destruct (structToFieldsWith (toCueType fuel s) fields) eqn:E1; simpl in E; try done.
      apply Hnot. by eexists.
    + intros Hall. destruct (Herr Hall) as [err' ->]. simpl. eauto.
  - intros err fuel s typ f Hparse Hreach Htag.
    by apply (toCueType_fails_on_malformed tag err s Hkey Hname Hparse typ f).
  - intros fuel s fields e E. simpl. by rewrite E.
  - intros err fuel s named decl f Hparse Hnonempty Hcount Hdecl Hreach Htag Hok.
    destruct (generateCue_hoists fuel s named Hnonempty Hok Hcount)
      as (decl' & Hdecl' & Hbody).
    assert (decl' = decl) as -> by congruence.
    by apply (toCueType_fails_on_malformed tag err s Hkey Hname Hparse _ f Hreach
                Htag fuel).
  - intros fuel s pre named post decl e Hnonempty Hnames Hpre Hdecl Hbody.
    unfold generateCue.
    destruct (topLevelFields s) as [|top tops] eqn:Htop; [done|].
    change (length (top :: tops) =? 0) with false. cbv iota.
    rewrite Hnames, foldM_app.
    match goal with |- (foldM _ pre ?f0 ≫= _) ≫= _ = _ =>
      destruct (foldM_hoistDefinition_succeeds fuel s pre Hpre f0) as [f' ->]
    end.
    simpl. rewrite hoistDefinition_spec. unfold definitionOf.
    by rewrite Hdecl, Hbody.
  - intros err fuel name decls roots root f Hparse Hroot Hreach Htag.
    by apply (generate_fails_on_reachable_malformed fuel name decls roots root f tag err).
Qed.


(** ** The use sites of the named types *)

Lemma contains_trans a b c : contains a b → contains b c → contains a c.
Proof.
  induction 1 as [e | x op y sub _ IH | x op y sub _ IH | es e sub He _ IH
                 | t sub _ IH | fields field sub Hf _ IH | fields field sub Hf _ IH];
    intros Hc; [done| | | | | |].
  - apply contains_left. by apply IH.
  - apply contains_right. by apply IH.
  - eapply contains_element; [exact He|]. by apply IH.
  - apply contains_ellipsis. by apply IH.
  - eapply contains_label; [exact Hf|]. by apply IH.
  - eapply contains_value; [exact Hf|]. by apply IH.
Qed.

Lemma conjoin_contains exprs : ∀ value, contains (conjoin value exprs) value.
Proof.
  induction exprs as [|expr exprs IH]; intros value; [constructor|].
  simpl. eapply contains_trans; [apply IH|]. apply contains_left. constructor.
Qed.

(** The value of a field made from a schema field holds the translation
    of the type of the schema field. *)
Lemma structToField_value translate g field :
  structToField translate g = Ok field →
  ∃ v, translate (schema.Field_Typ g) = Ok v ∧ contains (ast.Value field) v.
Proof.
  rewrite structToField_unfold.
  destruct (translate (schema.Field_Typ g)) as [v| | |]; simpl; try done.
  rewrite foldM_applyTag_closed.
  destruct (parseAll (annotations (schema.Field_Tags g))) as [exprs|err]; simpl;
    [|done].
  intros [= <-]. exists v. split; [done|].
  match goal with |- contains (ast.Value (finishField ?f ?fld ?o)) _ =>
    destruct (finishField_keeps f fld o) as (_ & -> & _) end.
  simpl. apply conjoin_contains.
Qed.

(** Every use site inside a translated type is translated, and its
    translation occurs in the translation of the type. *)
Lemma toCueType_useSite s root t :
  useSite s root t →
  ∀ fuel e, toCueType fuel s root = Ok e →
    ∃ fuel' sub, toCueType fuel' s t = Ok sub ∧ contains e sub.
Proof.
  induction 1 as [typ | fields g t Hg _ IH | key value t _ IH | key value t _ IH
                 | elem t _ IH | elem t _ IH | named decl t Hcount Hdecl _ IH];
    intros fuel e E;
    [exists fuel, e; split; [done|constructor] | ..];
    (destruct fuel as [|fuel]; [done|]); simpl in E.
  - destruct (structToFieldsWith (toCueType fuel s) fields) as [out| | |] eqn:Hout;
      try done.
    injection E as <-. apply structToFieldsWith_Forall2 in Hout.
    apply list_elem_of_lookup_1 in Hg as [i Hi].
    destruct (Forall2_lookup_l _ _ _ _ _ Hout Hi) as (field & Hfield & Hmade).
    destruct (structToField_value _ _ _ Hmade) as (v & Hv & Hin).
    destruct (IH fuel v Hv) as (fuel' & sub & Hsub & Hc).
    exists fuel', sub. split; [done|].
    eapply contains_value; [by eapply list_elem_of_lookup_2|].
    by eapply contains_trans.
  - destruct (toCueType fuel s key) as [keyType| | |] eqn:Hk; try done. simpl in E.
    destruct (toCueType fuel s value) as [valueType| | |]; try done.
    injection E as <-. destruct (IH fuel keyType Hk) as (fuel' & sub & Hsub & Hc).
    exists fuel', sub. split; [done|].
    eapply contains_label; [by left|]. simpl.
    eapply contains_element; [by left|done].
  - destruct (toCueType fuel s key) as [keyType| | |]; try done. simpl in E.
    destruct (toCueType fuel s value) as [valueType| | |] eqn:Hv; try done.
    injection E as <-. destruct (IH fuel valueType Hv) as (fuel' & sub & Hsub & Hc).
    exists fuel', sub. split; [done|]. eapply contains_value; [by left|done].
  - destruct (toCueType fuel s elem) as [listType| | |] eqn:He; try done.
    injection E as <-. destruct (IH fuel listType He) as (fuel' & sub & Hsub & Hc).
    exists fuel', sub. split; [done|].
    eapply contains_element; [by left|]. by apply contains_ellipsis.
  - by apply (IH fuel).
  - apply Nat.leb_le in Hcount. rewrite Hcount in E. unfold GetConcreteType in E.
    rewrite Hdecl in E. simpl in E. by apply (IH fuel).
Qed.

Lemma toCueType_reference fuel s named sub :
  2 ≤ Count (typeUsage s) named →
  toCueType fuel s (schema.Type_Named named) = Ok sub → sub = CueIdent named.
Proof.
  intros Hcount. destruct fuel as [|fuel]; [done|]. simpl.
  assert ((Count (typeUsage s) named <=? 1) = false) as -> by (apply Nat.leb_gt; lia).
  by intros [= <-].
Qed.

Lemma useSite_ext s s' root t :
  typeUsage s' = typeUsage s → Meta_Decls s' = Meta_Decls s →
  useSite s root t → useSite s' root t.
Proof.
  intros Husage Hdecls.
  induction 1 as [typ | fields g t Hg _ IH | key value t _ IH | key value t _ IH
                 | elem t _ IH | elem t _ IH | named decl t Hcount Hdecl _ IH].
  - constructor.
  - by eapply useSite_field.
  - by apply useSite_key.
  - by apply useSite_value.
  - by apply useSite_elem.
  - by apply useSite_config.
  - eapply useSite_inlined; [by rewrite Husage | by rewrite Hdecls | done].
Qed.

(** *** The values of the table *)

Lemma keepsValues_refl s : keepsValues s s.
Proof. intros i f Hf. exists f. split; [done|constructor]. Qed.

Lemma keepsValues_trans s1 s2 s3 :
  keepsValues s1 s2 → keepsValues s2 s3 → keepsValues s1 s3.
Proof.
  intros H12 H23 i f Hf. destruct (H12 i f Hf) as (f' & Hf' & Hc).
  destruct (H23 i f' Hf') as (f'' & Hf'' & Hc'). exists f''. split; [done|].
  by eapply contains_trans.
Qed.

Lemma mergedField_contains existing field :
  contains (ast.Value (mergedField existing field)) (ast.Value existing)
  ∧ contains (ast.Value (mergedField existing field)) (ast.Value field).
Proof.
  destruct (mergedField_keeps existing field) as (_ & _ & ->).
  destruct (DeepEqual _ _) eqn:E.
  - apply DeepEqual_eq in E as <-. split; constructor.
  - split; [apply contains_left | apply contains_right]; constructor.
Qed.

(** The registration of a field leaves every value of the table in place,
    possibly inside a conjunction, and puts the value of the field in the
    table. *)
Lemma registerField_values field s s' :
  registerField field s = Ok s' →
  keepsValues s s'
  ∧ ∃ i f', topLevelFields s' !! i = Some f'
            ∧ contains (ast.Value f') (ast.Value field).
Proof.
  intros E. unfold registerField in E.
  destruct (LabelName (ast.Label field)) as [name|err] eqn:Hname; simpl in E; [|done].
  destruct (fieldLookup s !! name) as [ptr|] eqn:Hl.
  - destruct (topLevelFields s !! ptr) as [existing|] eqn:He; [|done].
    injection E as <-. fold (mergedField existing field).
    destruct (mergedField_contains existing field) as [Hexisting Hfield].
    assert (Hptr : ptr < length (topLevelFields s)) by (by eapply lookup_lt_Some).
    split.
    + intros i f Hf. simpl. destruct (decide (ptr = i)) as [<-|Hne].
      * rewrite list_lookup_insert_eq by done. eexists. split; [done|]. congruence.
      * rewrite list_lookup_insert_ne by done. exists f. split; [done|constructor].
    + exists ptr, (mergedField existing field). simpl.
      by rewrite list_lookup_insert_eq.
  - injection E as <-. split.
    + intros i f Hf. simpl. exists f. split; [by apply lookup_app_l_Some|constructor].
    + exists (length (topLevelFields s)), field. simpl.
      rewrite lookup_app_r by lia. rewrite Nat.sub_diag. split; [done|constructor].
Qed.

Lemma foldM_registerField_values fields : ∀ s s',
  foldM registerField fields s = Ok s' →
  keepsValues s s'
  ∧ ∀ field, field ∈ fields →
      ∃ i f', topLevelFields s' !! i = Some f'
              ∧ contains (ast.Value f') (ast.Value field).
Proof.
  induction fields as [|field fields IH]; intros s s' E.
  - injection E as <-. split; [apply keepsValues_refl|].
    intros field Hin. by apply elem_of_nil in Hin.
  - rewrite foldM_cons in E.
    destruct (registerField field s) as [s1| | |] eqn:E1; try done. simpl in E.
    destruct (registerField_values field s s1 E1) as (Hkeeps1 & i & f1 & Hf1 & Hc1).
    destruct (IH s1 s' E) as [Hkeeps Hall].
    split; [by eapply keepsValues_trans|].
    intros field' [-> | Hin]%elem_of_cons; [|by apply Hall].
    destruct (Hkeeps i f1 Hf1) as (f' & Hf' & Hc').
    exists i, f'. split; [done|]. by eapply contains_trans.
Qed.

(** The registration of a declaration: every use site inside the type of
    a field of the declaration is translated, and its translation occurs
    in a value of the table. *)
Lemma registerTopLevelField_values fuel s typ s' :
  registerTopLevelField fuel s typ = Ok s' →
  keepsValues s s'
  ∧ ∀ concrete g t,
      GetConcreteStructType (Meta_Decls s) typ = Ok concrete →
      g ∈ concrete → useSite s (schema.Field_Typ g) t →
      ∃ fuel' sub i f',
        toCueType fuel' s t = Ok sub
        ∧ topLevelFields s' !! i = Some f' ∧ contains (ast.Value f') sub.
Proof.
  intros E. unfold registerTopLevelField in E.
  destruct (GetConcreteStructType (Meta_Decls s) typ) as [concrete| | |]; try done.
  simpl in E. destruct (structToFields fuel s concrete) as [fields| | |] eqn:Ef;
    try done.
  simpl in E. destruct (foldM_registerField_values fields s s' E) as [Hkeeps Hall].
  split; [done|]. intros concrete' g t [= <-] Hg Hsite.
  apply structToFieldsWith_Forall2 in Ef.
  apply list_elem_of_lookup_1 in Hg as [k Hk].
  destruct (Forall2_lookup_l _ _ _ _ _ Ef Hk) as (field & Hfield & Hmade).
  destruct (structToField_value _ _ _ Hmade) as (v & Hv & Hin).
  destruct (toCueType_useSite s _ t Hsite fuel v Hv) as (fuel' & sub & Hsub & Hc).
  destruct (Hall field) as (i & f' & Hf' & Hc'); [by eapply list_elem_of_lookup_2|].
  exists fuel', sub, i, f'. split; [done|]. split; [done|].
  eapply contains_trans; [exact Hc'|]. by eapply contains_trans.
Qed.

Lemma NoDup_occurrences (names : list N) (named : N) :
  NoDup names →
  length (filter (fun other => other = named) names)
  = if decide (named ∈ names) then 1 else 0.
Proof.
  induction 1 as [|other names Hnot _ IH]; [done|].
  rewrite filter_cons. destruct (decide (other = named)) as [->|Hne].
  - simpl. rewrite IH, decide_False by done. by rewrite decide_True by (by left).
  - rewrite IH. destruct (decide (named ∈ names)) as [Hin|Hin].
    + by rewrite decide_True by (by right).
    + rewrite decide_False; [done|]. intros [?|?]%elem_of_cons; congruence.
Qed.


(** *** The whole pass *)

(** In a pass, the fields are translated under the counts of the counting
    pass; every use site inside the type of a field of a declaration has
    its translation in a top-level field of the document, and every use
    site inside the body of a named type counted more than once has its
    translation in the definition of that type. *)
Lemma generate_use_sites fuel name decls roots generated :
  generate fuel name decls roots = Ok generated →
  ∃ nodes counted registered,
    walkAll fuel decls roots = Ok nodes
    ∧ foldM (fun typ s => countNamedUsagesAndCollectImports fuel s typ) roots
            (newService name decls) = Ok counted
    ∧ foldM (fun typ s => registerTopLevelField fuel s typ) roots counted = Ok registered
    ∧ generateCue fuel registered = Ok generated
    ∧ (∀ other, Count (typeUsage counted) other = references other nodes)
    ∧ typeUsage registered = typeUsage counted
    ∧ Meta_Decls counted = decls ∧ Meta_Decls registered = decls
    ∧ (∀ fuel' t, toCueType fuel' registered t = toCueType fuel' counted t)
    ∧ (∀ root concrete g t,
         root ∈ roots → GetConcreteStructType decls root = Ok concrete →
         g ∈ concrete → useSite counted (schema.Field_Typ g) t →
         ∃ fuel' sub field,
           toCueType fuel' counted t = Ok sub
           ∧ field ∈ topLevelFields registered
           ∧ ast.FieldDecl field ∈ ast.Decls (file generated)
           ∧ contains (ast.Value field) sub)
    ∧ (∀ named decl t,
         topLevelFields registered ≠ [] →
         1 < Count (typeUsage counted) named →
         decls !! N.to_nat named = Some decl →
         useSite counted (schema.Decl_Type decl) t →
         ∃ fuel' sub def,
           toCueType fuel' counted t = Ok sub
           ∧ ast.FieldDecl def ∈ ast.Decls (file generated)
           ∧ definesIdent named def = true
           ∧ contains (ast.Value def) sub).
Proof.
  intros Hg.
  destruct (generate_spec _ _ _ _ _ Hg)
    as (nodes & counted & registered & Hwalk & Hcount & Hreg & Hgen & Hframe & Hdecls
        & _ & _ & _ & Hrefs).
  pose proof Hframe as Hstate.
  unfold countingState in Hframe. injection Hframe as _ Hdecls' _ _ Husage.
  assert (Hsame : ∀ fuel' t, toCueType fuel' registered t = toCueType fuel' counted t)
    by (by apply toCueType_ext).
  exists nodes, counted, registered.
  split; [done|]. split; [done|]. split; [done|]. split; [done|].
  split; [by intros other; rewrite <- Husage|]. split; [done|].
  split; [congruence|]. split; [done|]. split; [done|]. split.
  - intros root concrete g t Hroot Hconcrete Hin Hsite.
    destruct (foldM_elem (fun typ s => registerTopLevelField fuel s typ)
                (fun s => countingState s = countingState registered) keepsValues)
      with (l := roots) (s := counted) (s' := registered) (x := root)
      as (s1 & s2 & Hs1 & E & Hkeeps); try done.
    { intros typ s0 s0' Hs0 E0. apply registerTopLevelField_frame in E0. congruence. }
    { apply keepsValues_refl. }
    { apply keepsValues_trans. }
    { intros typ s0 s0' E0. by apply (registerTopLevelField_values fuel s0 typ). }
    unfold countingState in Hs1. injection Hs1 as _ Hdecls1 _ _ Husage1.
    destruct (registerTopLevelField_values fuel s1 root s2 E) as [_ Hsites].
    destruct (Hsites concrete g t) as (fuel' & sub & i & f' & Hsub & Hf' & Hc);
      [congruence | done | |].
    { apply (useSite_ext counted); [congruence | congruence | done]. }
    destruct (Hkeeps i f' Hf') as (field & Hfield & Hc').
    exists fuel', sub, field.
    split; [by rewrite <- Hsub; symmetry; apply toCueType_ext; congruence|].
    assert (Hin' : field ∈ topLevelFields registered)
      by (by eapply list_elem_of_lookup_2).
    split; [done|]. split; [|by eapply contains_trans].
    assert (Hne : topLevelFields registered ≠ [])
      by (intros Hnil; rewrite Hnil in Hin'; by apply elem_of_nil in Hin').
    destruct (generateCue_spec fuel registered generated Hne Hgen) as (defs & _ & ->).
    cbn [ast.Decls file set_file]. rewrite !elem_of_app. do 4 right.
    by apply list_elem_of_fmap_2.
  - intros named decl t Hne Hcounted Hdecl Hsite.
    destruct (generateCue_spec fuel registered generated Hne Hgen)
      as (defs & Hdefs & ->).
    assert (Hnamed : named ∈ NamesWithCountsOver (typeUsage registered) 1)
      by (apply elem_of_NamesWithCountsOver; by rewrite Husage).
    apply list_elem_of_lookup_1 in Hnamed as [i Hi].
    destruct (Forall2_lookup_l _ _ _ _ _ Hdefs Hi) as (def & Hdef & Hmade).
    destruct (definitionOf_label _ _ _ _ Hmade) as (Hident & decl' & Hdecl' & Hvalue).
    assert (decl' = decl) as -> by congruence.
    rewrite Hsame in Hvalue.
    destruct (toCueType_useSite counted _ t Hsite fuel _ Hvalue)
      as (fuel' & sub & Hsub & Hc).
    exists fuel', sub, def. split; [done|]. split; [|done].
    cbn [ast.Decls file set_file]. rewrite !elem_of_app. do 3 right. left.
    apply list_elem_of_fmap_2. by eapply list_elem_of_lookup_2.
Qed.

(** C1: a named type counted at most once (in particular exactly once) is
    translated to the translation of its body, and gets no definition; a
    named type counted twice or more is translated to its identifier, and
    gets a definition when a document is made, one and no more.  The
    translator treats the types it finds inside records, maps, lists and
    wrappers in the same way, so that every use site inside a translated
    type has its translation, the identifier for a type counted twice or
    more, in the translation of the type.  The own root type of a
    declaration is no such use site: whatever its count, it is resolved
    and its fields become top-level fields.  In a pass, the count is the
    number of references that the walks of all the declarations meet, the
    fields are translated under these counts, every use site inside a
    field of a declaration is in a top-level field of the document, every
    use site inside the body of a hoisted type is in its definition, and
    on an acyclic schema translation and assembly return. *)
Theorem dedup_threshold (fuel : nat) (s : service) (named : N) :
  (Count (typeUsage s) named ≤ 1 →
     toCueType (S fuel) s (schema.Type_Named named)
     = (concrete ← GetConcreteType (Meta_Decls s) (schema.Type_Named named);
        toCueType fuel s concrete)
     ∧ named ∉ NamesWithCountsOver (typeUsage s) 1)
  ∧ (2 ≤ Count (typeUsage s) named →
     toCueType (S fuel) s (schema.Type_Named named) = Ok (CueIdent named)
     ∧ named ∈ NamesWithCountsOver (typeUsage s) 1)
  ∧ (∀ fields key value elem,
       toCueType (S fuel) s (schema.Type_Struct fields)
       = (out ← structToFieldsWith (toCueType fuel s) fields; Ok (ast.StructLit out))
       ∧ toCueType (S fuel) s (schema.Type_Map key value)
         = (keyType ← toCueType fuel s key;
            valueType ← toCueType fuel s value;
            Ok (ast.StructLit
                  [ast.mkField (ast.ListLit [keyType]) NoPos valueType []]))
       ∧ toCueType (S fuel) s (schema.Type_List elem)
         = (listType ← toCueType fuel s elem;
            Ok (ast.ListLit [ast.Ellipsis listType]))
       ∧ toCueType (S fuel) s (schema.Type_Config elem) = toCueType fuel s elem)
  ∧ (∀ root t e,
       toCueType fuel s root = Ok e → useSite s root t →
       ∃ fuel' sub,
         toCueType fuel' s t = Ok sub ∧ contains e sub
         ∧ (2 ≤ Count (typeUsage s) named → t = schema.Type_Named named →
            sub = CueIdent named))
  ∧ (∀ s',
       topLevelFields s ≠ [] → generateCue fuel s = Ok s' →
       ∃ defs,
         ast.Decls (file s')
         = ast.Decls (file s) ++ [ast.Package (ast.NewIdent (svc_Name s))]
             ++ importDecls s ++ (ast.FieldDecl <$> defs)
             ++ (ast.FieldDecl <$> topLevelFields s)
         ∧ Forall2 (fun other def =>
                      definesIdent other def = true
                      ∧ ∃ decl, Meta_Decls s !! N.to_nat other = Some decl
                                ∧ toCueType fuel s (schema.Decl_Type decl)
                                  = Ok (ast.Value def))
                   (NamesWithCountsOver (typeUsage s) 1) defs
         ∧ NoDup (NamesWithCountsOver (typeUsage s) 1)
         ∧ length (filter (fun other => other = named)
                          (NamesWithCountsOver (typeUsage s) 1))
           = if decide (2 ≤ Count (typeUsage s) named) then 1 else 0)
  ∧ (∀ typ concrete,
       GetConcreteStructType (Meta_Decls s) typ = Ok concrete →
       registerTopLevelField fuel s typ
       = (fields ← structToFieldsWith (toCueType fuel s) concrete;
          foldM registerField fields s))
  ∧ (∀ name decls roots generated,
       generate fuel name decls roots = Ok generated →
       ∃ nodes counted registered,
         walkAll fuel decls roots = Ok nodes
         ∧ foldM (fun typ s => countNamedUsagesAndCollectImports fuel s typ) roots
                 (newService name decls) = Ok counted
         ∧ foldM (fun typ s => registerTopLevelField fuel s typ) roots counted
           = Ok registered
         ∧ generateCue fuel registered = Ok generated
         ∧ (∀ other, Count (typeUsage counted) other = references other nodes)
         ∧ typeUsage registered = typeUsage counted
         ∧ Meta_Decls counted = decls ∧ Meta_Decls registered = decls
         ∧ (∀ fuel' t, toCueType fuel' registered t = toCueType fuel' counted t)
         ∧ (∀ root concrete g t,
              root ∈ roots → GetConcreteStructType decls root = Ok concrete →
              g ∈ concrete → useSite counted (schema.Field_Typ g) t →
              ∃ fuel' sub field,
                toCueType fuel' counted t = Ok sub
                ∧ field ∈ topLevelFields registered
                ∧ ast.FieldDecl field ∈ ast.Decls (file generated)
                ∧ contains (ast.Value field) sub)
         ∧ (∀ other decl t,
              topLevelFields registered ≠ [] →
              1 < Count (typeUsage counted) other →
              decls !! N.to_nat other = Some decl →
              useSite counted (schema.Decl_Type decl) t →
              ∃ fuel' sub def,
                toCueType fuel' counted t = Ok sub
                ∧ ast.FieldDecl def ∈ ast.Decls (file generated)
                ∧ definesIdent other def = true
                ∧ contains (ast.Value def) sub))
  ∧ (∀ rank,
       acyclic (Meta_Decls s) rank →
       ∃ enough, ∀ fuel', enough ≤ fuel' →
         toCueType fuel' s (schema.Type_Named named) ≠ OutOfFuel
         ∧ generateCue fuel' s ≠ OutOfFuel).
Proof.
  split; [|split; [|split; [|split; [|split; [|split; [|split]]]]]].
  - intros Hle. split.
    + simpl. by apply Nat.leb_le in Hle as ->.
    + rewrite elem_of_NamesWithCountsOver. lia.
  - intros Hge. split.
    + simpl. assert ((Count (typeUsage s) named <=? 1) = false) as ->; [|done].
      apply Nat.leb_gt. lia.
    + rewrite elem_of_NamesWithCountsOver. lia.
  - intros fields key value elem. by repeat split.
  - intros root t e E Hsite.
    destruct (toCueType_useSite s root t Hsite fuel e E) as (fuel' & sub & Hsub & Hc).
    exists fuel', sub. split; [done|]. split; [done|].
    intros Hge ->. by eapply toCueType_reference.
  - intros s' Hne E.
    destruct (generateCue_spec fuel s s' Hne E) as (defs & Hdefs & ->).
    exists defs. simpl. split; [done|]. split.
    + eapply Forall2_impl; [exact Hdefs|]. intros other def Hdef.
      by apply definitionOf_label.
    + split; [apply NoDup_NamesWithCountsOver|].
      rewrite NoDup_occurrences by apply NoDup_NamesWithCountsOver.
      repeat case_decide; try done;
        match goal with H : context [_ ∈ NamesWithCountsOver _ _] |- _ =>
          rewrite elem_of_NamesWithCountsOver in H end; lia.
  - intros typ concrete Hconcrete. unfold registerTopLevelField. by rewrite Hconcrete.
  - intros name decls roots generated Hg. by apply generate_use_sites.
  - intros rank Hacyclic.
    destruct (toCueType_returns rank s (schema.Type_Named named) Hacyclic) as [n1 H1].
    destruct (generateCue_returns rank s Hacyclic) as [n2 H2].
    exists (n1 `max` n2). intros fuel' Hle. split; [apply H1|apply H2]; lia.
Qed.


End Cuegen.

(** ** Worked examples on the demo service *)

Section Examples.

Local Abbreviation toCueType' := (toCueType demo.ParseExpr demo.cueName demo.docComment).
Local Abbreviation register' :=
  (registerTopLevelField demo.ParseExpr demo.LabelName demo.cueName demo.docComment).
Local Abbreviation generateCue' := (generateCue demo.ParseExpr demo.cueName demo.docComment).
Local Abbreviation registerField' := (registerField demo.LabelName).

Example demo_counting_pass :
  foldM (fun typ s => countNamedUsagesAndCollectImports 10 s typ)
        [schema.Type_Named 1; schema.Type_Named 2] (newService "svc" demo.decls)
  = Ok demo_counted.
Proof. vm_compute. reflexivity. Qed.

Example demo_registration :
  (s ← register' 10 demo_counted (schema.Type_Named 1);
   register' 10 s (schema.Type_Named 2))
  = Ok demo_registered.
Proof. vm_compute. reflexivity. Qed.

Example demo_acyclic : acyclic demo.decls demo.rank.
Proof.
  intros id decl Hdecl id' Hin.
  destruct (N.to_nat id) as [|[|[|[|n]]]] eqn:E; simpl in Hdecl; try done;
    injection Hdecl as <-;
    apply (f_equal N.of_nat) in E; rewrite N2Nat.id in E; subst id;
    simpl in Hin; repeat (apply elem_of_cons in Hin as [-> | Hin]);
    try (by apply elem_of_nil in Hin); simpl; lia.
Qed.

Example demo_generation : generateCue' 10 demo_registered = Ok demo_generated.
Proof. vm_compute. reflexivity. Qed.

Example demo_generate :
  generate demo.ParseExpr demo.LabelName demo.cueName demo.docComment 10 "svc" demo.decls
           [schema.Type_Named 1; schema.Type_Named 2]
  = Ok demo_generated.
Proof. vm_compute. reflexivity. Qed.

(** *** The wrapper *)

Lemma config_wrapper_is_transparent_witness :
  toCueType' 12 demo_registered (schema.Type_Config (schema.Type_Named 1))
  = toCueType' 11 demo_registered (schema.Type_Named 1)
  ∧ ∃ wrapped inner,
      toCueType' 12 demo_registered (schema.Type_Config (schema.Type_Named 1))
      = Ok wrapped
      ∧ toCueType' 10 demo_registered (schema.Type_Named 1) = Ok inner
      ∧ wrapped = inner.
Proof.
  destruct (config_wrapper_is_transparent demo.ParseExpr demo.cueName demo.docComment
              demo_registered (schema.Type_Named 1)) as (Hstep & _ & Hsame).
  split; [exact (Hstep 11)|].
  destruct (toCueType' 12 demo_registered (schema.Type_Config (schema.Type_Named 1)))
    as [wrapped| | |] eqn:Hw; try (vm_compute in Hw; discriminate Hw).
  destruct (toCueType' 10 demo_registered (schema.Type_Named 1))
    as [inner| | |] eqn:Hi; try (vm_compute in Hi; discriminate Hi).
  exists wrapped, inner. split; [reflexivity|]. split; [reflexivity|].
  exact (Hsame 12 10 wrapped inner Hw Hi).
Defined.

(** *** Tags *)

Lemma tag_options_independent_of_name_witness :
  schema.Name (schema.mkTag "cue" "" ["opt"]) = ""
  ∧ applyTag demo.ParseExpr (schema.mkTag "cue" "" ["opt"])
      (ast.mkField (ast.NewIdent "Since") NoPos (ast.NewIdent "string") [], false)
    = Ok (ast.mkField (ast.NewIdent "Since") NoPos (ast.NewIdent "string") [], true).
Proof.
  split; [reflexivity|].
  exact (proj1 (tag_options_independent_of_name demo.ParseExpr demo.docComment
                  (schema.mkTag "cue" "" ["opt"])
                  (ast.mkField (ast.NewIdent "Since") NoPos (ast.NewIdent "string") [])
                  false eq_refl)).
Defined.

(** *** The empty table *)

Lemma generateCue_empty_table_witness :
  topLevelFields (newService "svc" demo.decls) = []
  ∧ register' 10 (newService "svc" demo.decls) (schema.Type_Named 3)
    = Ok (newService "svc" demo.decls)
  ∧ generateCue' 10 (newService "svc" demo.decls) = Ok (newService "svc" demo.decls).
Proof.
  split; [reflexivity|]. split; [reflexivity|].
  exact (proj1 (generateCue_empty_table demo.ParseExpr demo.LabelName demo.cueName
                  demo.docComment 10 (newService "svc" demo.decls) eq_refl)).
Defined.

(** *** The optional mark *)



(** *** The merge of a field with itself *)

(** C2 at a documented field: the declaration [PortDocumented] is
    registered twice.  The table keeps its size, and the value stays [int]
    instead of becoming [int & int]; but the second registration moves the
    comment block, which held one line and still holds one, above the
    field: the service after the merge is not the service before it. *)
Theorem self_merge_moves_the_comment :
  let port := ast.mkField (ast.NewIdent "Port") NoPos (ast.NewIdent "int")
                [ast.mkCommentGroup false true 4 [ast.mkComment NoPos "// The port"]] in
  let moved := ast.mkField (ast.NewIdent "Port") NoPos (ast.NewIdent "int")
                 [ast.mkCommentGroup false true 0
                    [ast.mkComment (RelPos_Pos NewSection) "// The port"]] in
  let once := set_fieldLookup (set_topLevelFields (newService "svc" []) [port])
                (<["Port" := 0]> ∅) in
  let twice := set_fieldLookup (set_topLevelFields (newService "svc" []) [moved])
                 (<["Port" := 0]> ∅) in
  register' 10 (newService "svc" []) demo.PortDocumented = Ok once
  ∧ register' 10 once demo.PortDocumented = Ok twice
  ∧ registerField' port once = Ok twice
  ∧ length (topLevelFields twice) = length (topLevelFields once)
  ∧ ast.Value <$> topLevelFields twice = [ast.NewIdent "int"]
  ∧ twice ≠ once.
Proof.
  repeat split; try (vm_compute; reflexivity).
  intros Heq. apply (f_equal topLevelFields) in Heq. discriminate Heq.
Qed.

(** *** The table of fields *)

Lemma one_field_per_label_witness :
  table_inv demo.LabelName demo_counted
  ∧ foldM (fun typ s => register' 10 s typ)
          [schema.Type_Named 1; schema.Type_Named 2] demo_counted
    = Ok demo_registered
  ∧ table_inv demo.LabelName demo_registered
  ∧ ∀ i j f g name,
      topLevelFields demo_registered !! i = Some f →
      topLevelFields demo_registered !! j = Some g →
      demo.LabelName (ast.Label f) = inl name →
      demo.LabelName (ast.Label g) = inl name → i = j.
Proof.
  assert (Hinv : table_inv demo.LabelName demo_counted)
    by (apply table_inv_empty; reflexivity).
  assert (Hreg : foldM (fun typ s => register' 10 s typ)
                   [schema.Type_Named 1; schema.Type_Named 2] demo_counted
                 = Ok demo_registered) by (vm_compute; reflexivity).
  split; [exact Hinv|]. split; [exact Hreg|].
  exact (one_field_per_label demo.ParseExpr demo.LabelName demo.cueName demo.docComment
           10 [schema.Type_Named 1; schema.Type_Named 2] demo_counted demo_registered
           Hinv Hreg).
Defined.

Lemma registration_keeps_earlier_fields_witness :
  ∃ s, register' 10 demo_counted (schema.Type_Named 1) = Ok s
       ∧ register' 10 s (schema.Type_Named 2) = Ok demo_registered
       ∧ keepsFields s demo_registered
       ∧ length (topLevelFields s) ≤ length (topLevelFields demo_registered)
       ∧ ast.Label <$> take (length (topLevelFields s)) (topLevelFields demo_registered)
         = ast.Label <$> topLevelFields s.
Proof.
  destruct (register' 10 demo_counted (schema.Type_Named 1)) as [s| | |] eqn:E1;
    try (vm_compute in E1; discriminate E1).
  assert (E2 : register' 10 s (schema.Type_Named 2) = Ok demo_registered).
  { vm_compute in E1. injection E1 as <-. vm_compute. reflexivity. }
  exists s. split; [reflexivity|]. split; [exact E2|].
  exact (registration_keeps_earlier_fields demo.ParseExpr demo.LabelName demo.cueName
           demo.docComment 10 s (schema.Type_Named 2) demo_registered E2).
Defined.

Lemma registration_does_not_change_translation_witness :
  ∃ s, register' 10 demo_counted (schema.Type_Named 1) = Ok s
       ∧ ∀ fuel' t, toCueType' fuel' s t = toCueType' fuel' demo_counted t.
Proof.
  destruct (register' 10 demo_counted (schema.Type_Named 1)) as [s| | |] eqn:E;
    try (vm_compute in E; discriminate E).
  exists s. split; [reflexivity|].
  destruct (registration_does_not_change_translation demo.ParseExpr demo.LabelName
              demo.cueName demo.docComment 10 demo_counted (schema.Type_Named 1) s E)
    as (_ & _ & _ & _ & Hsame & _).
  exact Hsame.
Defined.


(** *** The construction of fields *)

Lemma tags_act_by_key_witness :
  structToField demo.ParseExpr demo.docComment
    (toCueType' 10 (newService "svc" []))
    (schema.mkField "Name" demo.string_ ""
       [ schema.mkTag "json" "name" []; schema.mkTag "validate" "required" ["opt"];
         schema.mkTag "cue" "=~^[a-z]+$" [] ])
  = structToField demo.ParseExpr demo.docComment
      (toCueType' 10 (newService "svc" []))
      (schema.mkField "Name" demo.string_ ""
         [ schema.mkTag "cue" "=~^[a-z]+$" []; schema.mkTag "json" "name" [] ]).
Proof.
  apply (tags_act_by_key demo.ParseExpr demo.docComment); reflexivity.
Defined.

Lemma first_failing_field_decides_witness :
  structToFieldsWith demo.ParseExpr demo.docComment
    (toCueType' 10 (newService "svc" []))
    [schema.mkField "Port" demo.int_ "" []]
  = Ok [ast.mkField (ast.NewIdent "Port") NoPos (ast.NewIdent "int") []]
  ∧ structToFieldsWith demo.ParseExpr demo.docComment
      (toCueType' 10 (newService "svc" []))
      ([schema.mkField "Port" demo.int_ "" []]
       ++ schema.mkField "Name" demo.string_ "" [schema.mkTag "cue" "(" []]
       :: [schema.mkField "Since" (schema.Type_Builtin (schema.Builtin_other 99)) "" []])
    = Err "expected ')', found 'EOF'".
Proof.
  split; [reflexivity|].
  destruct (first_failing_field_decides demo.ParseExpr demo.docComment
              (toCueType' 10 (newService "svc" []))
              [schema.mkField "Port" demo.int_ "" []]
              (schema.mkField "Name" demo.string_ "" [schema.mkTag "cue" "(" []])
              [schema.mkField "Since" (schema.Type_Builtin (schema.Builtin_other 99)) "" []]
              [ast.mkField (ast.NewIdent "Port") NoPos (ast.NewIdent "int") []]
              eq_refl) as (_ & Herr & _).
  apply Herr. reflexivity.
Defined.


(** *** The merge of values *)

Lemma merge_conjoins_without_deduplication_witness :
  let field := ast.mkField (ast.NewIdent "Port") NoPos (ast.NewIdent "string") [] in
  ∃ s1 s2 once twice,
    registerField' field demo_registered = Ok s1 ∧ registerField' field s1 = Ok s2
    ∧ topLevelFields s1 !! 0 = Some once ∧ topLevelFields s2 !! 0 = Some twice
    ∧ ast.Value once = ast.BinaryExpr (ast.NewIdent "int") AND (ast.NewIdent "string")
    ∧ ast.Value twice
      = ast.BinaryExpr
          (ast.BinaryExpr (ast.NewIdent "int") AND (ast.NewIdent "string"))
          AND (ast.NewIdent "string")
    ∧ length (topLevelFields s2) = length (topLevelFields demo_registered).
Proof.
  intros field.
  assert (Hne : ast.NewIdent "int" ≠ ast.NewIdent "string") by discriminate.
  exact (merge_conjoins_without_deduplication demo.LabelName field demo_registered
           "Port" 0
           (ast.mkField (ast.NewIdent "Port") NoPos (ast.NewIdent "int")
              [ast.mkCommentGroup false true 0
                 [ast.mkComment (RelPos_Pos NewSection) "// The port"]])
           eq_refl eq_refl eq_refl Hne).
Defined.


(** *** The counting pass and the translation *)

Lemma counting_records_time_import_witness :
  ∃ s', countNamedUsagesAndCollectImports 10 (newService "svc" demo.decls)
          (schema.Type_Named 2) = Ok s'
        ∧ ∃ nodes,
            walkNodes 10 demo.decls (schema.Type_Named 2) = Ok nodes
            ∧ neededImports s'
              = (if decide (schema.Node_Builtin schema.Builtin_TIME ∈ nodes)
                 then <["time" := "time"]> ∅ else ∅)
            ∧ (∀ named, Count (mkDefinitionGenerator ∅) named
                        ≤ Count (typeUsage s') named)
            ∧ (∀ named, Count (typeUsage s') named
                        = Count (mkDefinitionGenerator ∅) named
                        ↔ schema.Node_Named named ∉ nodes).
Proof.
  destruct (countNamedUsagesAndCollectImports 10 (newService "svc" demo.decls)
              (schema.Type_Named 2)) as [s'| | |] eqn:E;
    try (vm_compute in E; discriminate E).
  exists s'. split; [reflexivity|].
  exact (counting_records_time_import 10 (newService "svc" demo.decls)
           (schema.Type_Named 2) s' E).
Defined.

Lemma translatable_types_translate_witness :
  let typ := schema.Type_Struct
               [ schema.mkField "Name" demo.string_ ""
                   [schema.mkTag "json" "name" []; schema.mkTag "cue" "=~^[a-z]+$" []];
                 schema.mkField "Retry" (schema.Type_List (schema.Type_Named 0)) "" [] ] in
  translatable demo.ParseExpr demo_registered typ = true
  ∧ typeSize typ ≤ 4
  ∧ succeeded (toCueType' 4 demo_registered typ).
Proof.
  intros typ.
  assert (Hok : translatable demo.ParseExpr demo_registered typ = true)
    by (vm_compute; reflexivity).
  assert (Hsize : typeSize typ ≤ 4) by (vm_compute; lia).
  split; [exact Hok|]. split; [exact Hsize|].
  exact (translatable_types_translate demo.ParseExpr demo.cueName demo.docComment
           demo_registered typ 4 Hok Hsize).
Defined.


(** *** The assembly of the document *)

Lemma generateCue_succeeds_iff_witness :
  topLevelFields demo_registered ≠ []
  ∧ (succeeded (generateCue' 10 demo_registered)
     ↔ ∀ named, 1 < Count (typeUsage demo_registered) named →
         ∃ decl, Meta_Decls demo_registered !! N.to_nat named = Some decl
                 ∧ succeeded (toCueType' 10 demo_registered (schema.Decl_Type decl))).
Proof.
  assert (Hne : topLevelFields demo_registered ≠ []) by discriminate.
  split; [exact Hne|].
  exact (proj1 (generateCue_succeeds_iff demo.ParseExpr demo.cueName demo.docComment
                  10 demo_registered Hne)).
Defined.

Lemma generateCue_only_appends_witness :
  generateCue' 10 demo_registered = Ok demo_generated
  ∧ demo_generated = set_file demo_registered (file demo_generated)
  ∧ ast.Decls (file demo_registered) `prefix_of` ast.Decls (file demo_generated)
  ∧ ast.Imports (file demo_registered) `prefix_of` ast.Imports (file demo_generated)
  ∧ ast.FileComments (file demo_registered)
      `prefix_of` ast.FileComments (file demo_generated)
  ∧ (topLevelFields demo_registered ≠ [] →
     (ast.FieldDecl <$> topLevelFields demo_generated)
       `suffix_of` ast.Decls (file demo_generated)).
Proof.
  split; [exact demo_generation|].
  exact (generateCue_only_appends demo.ParseExpr demo.cueName demo.docComment
           10 demo_registered demo_generated demo_generation).
Defined.

Lemma generateCue_twice_duplicates_witness :
  topLevelFields demo_registered ≠ []
  ∧ ∃ s'', generateCue' 10 demo_generated = Ok s''
           ∧ ast.Imports (file s'')
             = [ast.mkImportSpec None "time"; ast.mkImportSpec None "time"]
           ∧ ast.FileComments (file s'') = [headerComment; headerComment].
Proof.
  assert (Hne : topLevelFields demo_registered ≠ []) by discriminate.
  split; [exact Hne|].
  destruct (generateCue' 10 demo_generated) as [s''| | |] eqn:E2;
    try (vm_compute in E2; discriminate E2).
  exists s''. split; [reflexivity|].
  destruct (generateCue_twice_duplicates demo.ParseExpr demo.cueName demo.docComment
              10 demo_registered demo_generated s'' Hne demo_generation E2)
    as (defs & _ & _ & Himports & Hcomments).
  split; [exact Himports | exact Hcomments].
Defined.


Lemma hoisted_definition_expands_the_body_witness :
  ∃ f', hoistDefinition demo.ParseExpr demo.cueName demo.docComment 10
          demo_registered 0 (ast.mkFile [] [] []) = Ok f'
        ∧ ∃ def out,
            f' = ast.mkFile [ast.FieldDecl def] [] []
            ∧ ast.Label def = ast.Ident (RelPos_Pos NewSection) "#Retry"
            ∧ ast.Value def = ast.StructLit out ∧ length out = 1.
Proof.
  destruct (hoistDefinition demo.ParseExpr demo.cueName demo.docComment 10
              demo_registered 0 (ast.mkFile [] [] [])) as [f'| | |] eqn:E;
    try (vm_compute in E; discriminate E).
  exists f'. split; [reflexivity|].
  destruct (hoisted_definition_expands_the_body demo.ParseExpr demo.cueName
              demo.docComment 10 demo_registered 0 (ast.mkFile [] [] []) f' E)
    as (decl & def & Hdecl & Hfile & Hlabel & _ & _ & _ & Hstruct).
  injection Hdecl as <-.
  destruct (Hstruct [schema.mkField "Count" demo.int_ "" []] eq_refl)
    as (out & Hvalue & Hlen).
  exists def, out. split; [exact Hfile|]. split; [exact Hlabel|].
  split; [exact Hvalue | exact Hlen].
Defined.

(** *** The order of the document *)




(** *** A malformed annotation *)

Lemma malformed_cue_tag_is_fatal_witness :
  let tag := schema.mkTag "cue" "(" [] in
  let pattern := schema.mkField "Value" demo.string_ "" [tag] in
  let decls :=
    [ schema.mkDecl "Pattern" (schema.Type_Struct [pattern]) "";
      schema.mkDecl "Holder"
        (schema.Type_Struct
           [ schema.mkField "First" (schema.Type_Named 0) "" [];
             schema.mkField "Second" (schema.Type_List (schema.Type_Named 0)) "" [] ])
        "" ] in
  let nested :=
    schema.Type_Struct
      [schema.mkField "Inner"
         (schema.Type_Map demo.string_ (schema.Type_Struct [pattern])) "" []] in
  let pass := generate demo.ParseExpr demo.LabelName demo.cueName demo.docComment 10 in
  schema.Key tag = "cue"
  ∧ schema.Name tag ≠ ""
  ∧ (∃ err, register' 10 (newService "svc" []) demo.Malformed = Err err)
  ∧ ¬ succeeded (pass "svc" decls [schema.Type_Named 1])
  ∧ pass "svc" decls [schema.Type_Named 1] = Err "expected ')', found 'EOF'"
  ∧ ¬ succeeded (pass "svc" [] [nested])
  ∧ pass "svc" [] [nested] = Err "expected ')', found 'EOF'".
Proof.
  intros tag pattern decls nested pass.
  assert (Hname : schema.Name tag ≠ "") by discriminate.
  split; [reflexivity|]. split; [exact Hname|].
  destruct (malformed_cue_tag_is_fatal demo.ParseExpr demo.LabelName demo.cueName
              demo.docComment tag eq_refl Hname)
    as (_ & _ & _ & Hpass & _ & _ & _ & _ & Hgen).
  split; [|split; [|split; [|split]]].
  - destruct (Hpass "expected ')', found 'EOF'" 10 (newService "svc" []) demo.Malformed
                [ schema.mkField "Port" demo.int_ "" [];
                  schema.mkField "Name" demo.string_ "" [tag] ]
                (schema.mkField "Name" demo.string_ "" [tag])
                eq_refl eq_refl) as [_ Herr].
    + right. left.
    + left.
    + apply Herr. intros f' Hf'.
      apply elem_of_cons in Hf' as [-> | Hf'];
        [|apply list_elem_of_singleton in Hf' as ->]; eexists; reflexivity.
  - apply (Hgen "expected ')', found 'EOF'" 10 "svc" decls [schema.Type_Named 1]
             (schema.Type_Named 1) pattern eq_refl).
    + left.
    + apply (reaches_named _ _ 1
               (schema.mkDecl "Holder"
                  (schema.Type_Struct
                     [ schema.mkField "First" (schema.Type_Named 0) "" [];
                       schema.mkField "Second"
                         (schema.Type_List (schema.Type_Named 0)) "" [] ]) ""));
        [exact I | reflexivity |].
      apply (reaches_struct _ _ _
               (schema.mkField "Second" (schema.Type_List (schema.Type_Named 0)) "" []));
        [right; left|].
      apply reaches_elem.
      apply (reaches_named _ _ 0 (schema.mkDecl "Pattern" (schema.Type_Struct [pattern]) ""));
        [exact I | reflexivity |].
      apply reaches_field. left.
    + left.
  - vm_compute. reflexivity.
  - apply (Hgen "expected ')', found 'EOF'" 10 "svc" [] [nested] nested pattern eq_refl).
    + left.
    + apply (reaches_struct _ _ _
               (schema.mkField "Inner"
                  (schema.Type_Map demo.string_ (schema.Type_Struct [pattern])) "" []));
        [left|].
      apply reaches_value. apply reaches_field. left.
    + left.
  - vm_compute. reflexivity.
Defined.


(** *** The threshold *)

(** C1, as stated, fails at the root of a declaration: when the type
    [Retry] is loaded twice, it is counted twice and a definition [#Retry]
    is written, but both use sites, the two declarations, are expanded
    into the top-level field [Count], and nothing in the document refers
    to [#Retry]. *)
Lemma declaration_loaded_twice_is_hoisted_and_expanded :
  ∃ s',
    generate demo.ParseExpr demo.LabelName demo.cueName demo.docComment 10 "svc"
             demo.decls [schema.Type_Named 0; schema.Type_Named 0] = Ok s'
    ∧ Count (typeUsage s') 0 = 2
    ∧ ast.Decls (file s')
      = [ ast.Package (ast.NewIdent "svc");
          ast.FieldDecl demo_Retry_definition;
          ast.FieldDecl (ast.mkField (ast.NewIdent "Count") NoPos (ast.NewIdent "int") []) ]
    ∧ topLevelFields s'
      = [ast.mkField (ast.NewIdent "Count") NoPos (ast.NewIdent "int") []]
    ∧ ∀ field, field ∈ topLevelFields s' →
               ¬ contains (ast.Value field) (ast.NewIdent "#Retry").
Proof.
  eexists. split; [vm_compute; reflexivity|].
  split; [vm_compute; reflexivity|]. split; [vm_compute; reflexivity|].
  split; [vm_compute; reflexivity|].
  intros field Hin. apply list_elem_of_singleton in Hin as ->. simpl.
  intros H. inversion H.
Qed.

Lemma dedup_threshold_witness :
  let nested := schema.Type_Map demo.string_
                  (schema.Type_List (schema.Type_Config (schema.Type_Named 0))) in
  Count (typeUsage demo_registered) 1 ≤ 1
  ∧ 2 ≤ Count (typeUsage demo_registered) 0
  ∧ toCueType' 10 demo_registered (schema.Type_Named 1)
    = toCueType' 9 demo_registered (schema.Decl_Type demo.Server)
  ∧ (1%N ∉ NamesWithCountsOver (typeUsage demo_registered) 1)
  ∧ toCueType' 10 demo_registered (schema.Type_Named 0) = Ok (ast.NewIdent "#Retry")
  ∧ (∃ e, toCueType' 10 demo_registered nested = Ok e
          ∧ contains e (ast.NewIdent "#Retry"))
  ∧ (∃ defs,
       ast.Decls (file demo_generated)
       = ast.Decls (file demo_registered) ++ [ast.Package (ast.NewIdent "svc")]
           ++ importDecls demo_registered ++ (ast.FieldDecl <$> defs)
           ++ (ast.FieldDecl <$> demo_fields)
       ∧ length (filter (fun other => other = 0%N)
                        (NamesWithCountsOver (typeUsage demo_registered) 1)) = 1
       ∧ length (filter (fun other => other = 1%N)
                        (NamesWithCountsOver (typeUsage demo_registered) 1)) = 0)
  ∧ (∃ field,
       field ∈ topLevelFields demo_registered
       ∧ ast.FieldDecl field ∈ ast.Decls (file demo_generated)
       ∧ contains (ast.Value field) (ast.NewIdent "#Retry"))
  ∧ acyclic (Meta_Decls demo_registered) demo.rank
  ∧ (∃ enough, ∀ fuel', enough ≤ fuel' →
       toCueType' fuel' demo_registered (schema.Type_Named 0) ≠ OutOfFuel
       ∧ generateCue' fuel' demo_registered ≠ OutOfFuel).
Proof.
  intros nested.
  assert (Hle : Count (typeUsage demo_registered) 1 ≤ 1) by (vm_compute; lia).
  assert (Hge : 2 ≤ Count (typeUsage demo_registered) 0) by (vm_compute; lia).
  assert (Hne : topLevelFields demo_registered ≠ []) by discriminate.
  destruct (dedup_threshold demo.ParseExpr demo.LabelName demo.cueName demo.docComment 9
              demo_registered 1) as (Hinline & _).
  destruct (dedup_threshold demo.ParseExpr demo.LabelName demo.cueName demo.docComment 9
              demo_registered 0) as (_ & Hhoist & _).
  destruct (dedup_threshold demo.ParseExpr demo.LabelName demo.cueName demo.docComment 10
              demo_registered 0) as (_ & _ & _ & Hsites & Hdoc0 & _ & Hpass & Hret).
  destruct (dedup_threshold demo.ParseExpr demo.LabelName demo.cueName demo.docComment 10
              demo_registered 1) as (_ & _ & _ & _ & Hdoc1 & _).
  destruct (Hinline Hle) as [Hstep Hnot]. destruct (Hhoist Hge) as [Hident _].
  split; [exact Hle|]. split; [exact Hge|]. split; [exact Hstep|].
  split; [exact Hnot|]. split; [exact Hident|].
  split; [|split; [|split; [|split]]].
  - destruct (toCueType' 10 demo_registered nested) as [e| | |] eqn:E;
      try (vm_compute in E; discriminate E).
    exists e. split; [reflexivity|].
    destruct (Hsites nested (schema.Type_Named 0) e E) as (fuel' & sub & _ & Hc & Hsub).
    { apply useSite_value, useSite_elem, useSite_config, useSite_here. }
    by rewrite (Hsub Hge eq_refl) in Hc.
  - destruct (Hdoc0 demo_generated Hne demo_generation) as (defs & Hdecls & _ & _ & Hn0).
    destruct (Hdoc1 demo_generated Hne demo_generation) as (_ & _ & _ & _ & Hn1).
    exists defs. split; [exact Hdecls|]. split.
    + rewrite Hn0. by rewrite decide_True by exact Hge.
    + rewrite Hn1. by rewrite decide_False by lia.
  - destruct (Hpass "svc" demo.decls [schema.Type_Named 1; schema.Type_Named 2]
                demo_generated demo_generate)
      as (nodes & counted & registered & _ & Hcount & Hreg & _ & _ & _ & _ & _ & _
          & Hfields & _).
    assert (counted = demo_counted) as ->.
    { pose proof demo_counting_pass as Hdemo. congruence. }
    assert (registered = demo_registered) as ->.
    { assert (Hdemo : foldM (fun typ s => register' 10 s typ)
                        [schema.Type_Named 1; schema.Type_Named 2] demo_counted
                      = Ok demo_registered) by (vm_compute; reflexivity).
      congruence. }
    destruct (Hfields (schema.Type_Named 1) (match schema.Decl_Type demo.Server with
                                              | schema.Type_Struct fields => fields
                                              | _ => []
                                              end)
                (schema.mkField "Retry" (schema.Type_Named 0) "" [])
                (schema.Type_Named 0))
      as (fuel' & sub & field & Hsub & Hin & Hdecl & Hc).
    + left.
    + reflexivity.
    + right. right. left.
    + apply useSite_here.
    + exists field. split; [exact Hin|]. split; [exact Hdecl|].
      assert (2 ≤ Count (typeUsage demo_counted) 0) as Hge' by (vm_compute; lia).
      by rewrite (toCueType_reference demo.ParseExpr demo.cueName demo.docComment
                    fuel' demo_counted 0 sub Hge' Hsub) in Hc.
  - exact demo_acyclic.
  - exact (Hret demo.rank demo_acyclic).
Defined.


Lemma fresh_fields_are_appended_as_they_are_witness :
  let typ := schema.Type_Struct
               [ schema.mkField "Host" demo.string_ "" [schema.mkTag "json" "host" []];
                 schema.mkField "Timeout" demo.int_ "" [];
                 schema.mkField "Tags" (schema.Type_List demo.string_) "The tags"
                   [schema.mkTag "json" "" ["omitempty"]] ] in
  let fields :=
    [ ast.mkField (ast.NewIdent "host") NoPos (ast.NewIdent "string") [];
      ast.mkField (ast.NewIdent "Timeout") NoPos (ast.NewIdent "int") [];
      ast.mkField (ast.NewIdent "Tags") (RelPos_Pos Blank)
        (ast.ListLit [ast.Ellipsis (ast.NewIdent "string")])
        [demo.docComment "The tags"] ] in
  NoDup ["host"; "Timeout"; "Tags"]
  ∧ length (topLevelFields demo_registered) = 4
  ∧ ∃ s', register' 10 demo_registered typ = Ok s'
          ∧ topLevelFields s' = demo_fields ++ fields
          ∧ fieldLookup s' !! "host" = Some 4
          ∧ fieldLookup s' !! "Timeout" = Some 5
          ∧ fieldLookup s' !! "Tags" = Some 6
          ∧ fieldLookup s' !! "Port" = Some 0
          ∧ fieldLookup s' !! "Since" = Some 3.
Proof.
  intros typ fields.
  assert (Hdup : NoDup ["host"; "Timeout"; "Tags"]).
  { apply (bool_decide_unpack _). vm_compute. exact I. }
  split; [exact Hdup|]. split; [reflexivity|].
  destruct (fresh_fields_are_appended_as_they_are demo.ParseExpr demo.LabelName
              demo.cueName demo.docComment 10 demo_registered typ
              [ schema.mkField "Host" demo.string_ "" [schema.mkTag "json" "host" []];
                schema.mkField "Timeout" demo.int_ "" [];
                schema.mkField "Tags" (schema.Type_List demo.string_) "The tags"
                  [schema.mkTag "json" "" ["omitempty"]] ]
              fields ["host"; "Timeout"; "Tags"] eq_refl)
    as (s' & Hreg & Hfields & Hptr & Hother); [| |exact Hdup| |].
  - vm_compute. reflexivity.
  - repeat constructor.
  - intros name Hin.
    repeat (apply elem_of_cons in Hin as [-> | Hin]; [reflexivity|]).
    by apply elem_of_nil in Hin.
  - exists s'. split; [exact Hreg|]. split; [exact Hfields|].
    split; [exact (Hptr 0 "host" eq_refl)|].
    split; [exact (Hptr 1 "Timeout" eq_refl)|].
    split; [exact (Hptr 2 "Tags" eq_refl)|].
    split; [rewrite Hother; [reflexivity|]|rewrite Hother; [reflexivity|]];
      apply (bool_decide_unpack _); vm_compute; exact I.
Defined.


End Examples.
